(** * git-super: the OAuth/SSO authentication subsystem

    A shallow embedding of
      - lib/auth/oauth-flows.mjs      (DeviceCodeFlow.pollForToken),
      - lib/auth/credential-store.mjs (CredentialStore),
      - lib/auth/token-manager.mjs    (TokenManager),
      - lib/auth/auth-strategy.mjs    (OAuthAuthStrategy),
    followed by the properties stated about them.

    Conventions.
    - What the code receives from outside is an explicit argument: the
      replies to its HTTP requests, the clock, the bytes of
      [randomBytes], the state of the file system and of the keychain.
    - An exception is an [Error] object; it is represented by its
      message.  A promise that rejects is [Rejected message].
    - An [async] method is written in state-passing style and runs
      without interruption, except [TokenManager.refreshToken] and
      [_doRefresh], whose interleavings matter: they are coroutines
      over their [await] points, run by a step function under any
      schedule.
    - The files are ES modules and call [require], which node defines
      for CommonJS modules only: in the program as node runs it every
      call of [require] throws a ReferenceError.  A runner that
      evaluates the modules in a scope of its own can define it; the
      tests of the repository that write and read credentials pass
      only where it is defined.  Whether [require] is defined is part
      of the machine.
    - [writeFileSync] succeeds; directories and file modes are not
      modelled. *)

From stdpp Require Import gmap strings list fin_maps pretty.
From Stdlib Require Import ZArith Lia.
From Stdlib.Strings Require Byte.

(* ===================================================================== *)
(** * JavaScript values used by the code *)
(* ===================================================================== *)

Module JS.

(** The settlement of a promise returned by an [async] function. *)
Inductive Outcome (A : Type) : Type :=
| Resolved (value : A)
| Rejected (message : string).
Arguments Resolved {A} value.
Arguments Rejected {A} message.

(** Truthiness of a string: only the empty string is falsy. *)
Definition truthy (s : string) : bool :=
  match s with
  | EmptyString => false
  | String _ _ => true
  end.

(** Truthiness of an optional string property: [undefined] is falsy. *)
Definition truthy_opt (o : option string) : bool :=
  match o with
  | Some s => truthy s
  | None => false
  end.

(** [o || d] for an optional string property. *)
Definition or_default (o : option string) (d : string) : string :=
  match o with
  | Some s => if truthy s then s else d
  | None => d
  end.

(** [o || null] for an optional string property. *)
Definition or_null (o : option string) : option string :=
  match o with
  | Some s => if truthy s then Some s else None
  | None => None
  end.

(** [String.prototype.includes]. *)
Fixpoint includes (s sub : string) : bool :=
  String.prefix sub s ||
  match s with
  | EmptyString => false
  | String _ rest => includes rest sub
  end.

End JS.

Import JS.

(* ===================================================================== *)
(** * lib/auth/oauth-flows.mjs: DeviceCodeFlow.pollForToken *)
(* ===================================================================== *)

Module DeviceCodeFlow.

(** The JSON body of a token-endpoint reply: the properties that
    [pollForToken] reads.  [None] is an absent property. *)
Record TokenResponse := {
  error : option string;
  error_description : option string;
  access_token : option string;
  refresh_token : option string;
  expires_in : option Z;
  token_type : option string;
  scope : option string;
}.

(** The object returned on success. *)
Record Tokens := {
  accessToken : option string;
  refreshToken : option string;
  expiresIn : option Z;
  tokenType : option string;
  tokens_scope : option string;
}.

(** What one polling attempt gets from outside: either [fetch] or
    [response.json()] rejects (or the body is not an object and reading
    [data.error] raises), with the message of that exception, or a JSON
    body arrives. *)
Inductive Reply :=
| Threw (message : string)
| Body (data : TokenResponse).

(** Observable effects, in program order. *)
Inductive Effect :=
| Sleep (ms : Z)              (* await new Promise(r => setTimeout(r, ms)) *)
| Fetch (attempt : nat)       (* fetch(this.tokenEndpoint, ...) *)
| Warn (text : string).       (* console.warn(text) *)

(** How a run of the [try] block, and of the whole loop body, ends. *)
Inductive Completion :=
| Normal                      (* falls through to the end of the body *)
| Continue                    (* a [continue] statement *)
| Return (tokens : Tokens)
| Throw (message : string).

Definition maxAttempts : nat := 180.

(** Lines 92-119: the [try] block once the reply is there. *)
Definition try_block (pollInterval : Z) (reply : Reply)
  : Completion * list Effect :=
  match reply with
  | Threw message => (Throw message, [])
  | Body data =>
    if truthy_opt (error data) then
      let e := default "" (error data) in
      if String.eqb e "authorization_pending" then (Continue, [])
      else if String.eqb e "slow_down" then (Continue, [Sleep pollInterval])
      else if String.eqb e "expired_token" then
        (Throw "Device code expired. Please try again.", [])
      else if String.eqb e "access_denied" then
        (Throw "User denied authorization.", [])
      else
        (Throw ("Authorization error: " +:+ e +:+ " - " +:+
                or_default (error_description data) ""), [])
    else
      (Return {| accessToken := access_token data;
                 refreshToken := refresh_token data;
                 expiresIn := expires_in data;
                 tokenType := token_type data;
                 tokens_scope := scope data |}, [])
  end.

(** Lines 120-128: the [catch] clause.  It receives every exception of
    the [try] block, those thrown by the block itself and those of
    [fetch] and [response.json()] alike, and tells them apart by their
    message. *)
Definition rethrown (message : string) : bool :=
  includes message "Authorization error" ||
  includes message "expired" ||
  includes message "denied".

Definition catch_clause (attempt : nat) (message : string)
  : Completion * list Effect :=
  if rethrown message then (Throw message, [])
  else (Normal,
        [Warn ("Polling attempt " +:+ pretty (attempt + 1)%nat +:+
               " failed: " +:+ message)]).

(** One iteration of the [for] loop: sleep, fetch, [try]/[catch]. *)
Definition iteration (pollInterval : Z) (attempt : nat) (reply : Reply)
  : Completion * list Effect :=
  let pre := [Sleep pollInterval; Fetch attempt] in
  match try_block pollInterval reply with
  | (Throw message, eff) =>
    let '(c, eff') := catch_clause attempt message in (c, pre ++ eff ++ eff')
  | (c, eff) => (c, pre ++ eff)
  end.

(** The loop [for (attempt = 0; attempt < maxAttempts; attempt++)],
    entered at [attempt] with [remaining = maxAttempts - attempt]
    iterations left, followed by the final [throw]. *)
Fixpoint poll_loop (pollInterval : Z) (replies : nat → Reply)
    (remaining attempt : nat) : Outcome Tokens * list Effect :=
  match remaining with
  | O => (Rejected "Authorization timeout. Please try again.", [])
  | S remaining' =>
    let '(c, eff) := iteration pollInterval attempt (replies attempt) in
    match c with
    | Return tokens => (Resolved tokens, eff)
    | Throw message => (Rejected message, eff)
    | Normal | Continue =>
      let '(o, rest) :=
        poll_loop pollInterval replies remaining' (S attempt) in
      (o, eff ++ rest)
    end
  end.

(** [pollForToken(deviceCode, interval)]; [replies n] is what the
    provider (or the network) answers to the attempt numbered [n]. *)
Definition pollForToken (interval : Z) (replies : nat → Reply)
  : Outcome Tokens * list Effect :=
  let pollInterval := (interval * 1000)%Z in
  poll_loop pollInterval replies maxAttempts 0.

Definition is_fetch (e : Effect) : bool :=
  match e with Fetch _ => true | _ => false end.

(** The number of token requests sent during a run. *)
Definition fetches (effects : list Effect) : nat :=
  length (List.filter is_fetch effects).

(** A reply after which the loop goes on to the next attempt. *)
Definition goes_on (pollInterval : Z) (attempt : nat) (reply : Reply) : bool :=
  match (iteration pollInterval attempt reply).1 with
  | Normal | Continue => true
  | _ => false
  end.

(** A body that carries only an [error] property. *)
Definition error_body (e : string) : Reply :=
  Body {| error := Some e; error_description := None;
          access_token := None; refresh_token := None;
          expires_in := None; token_type := None; scope := None |}.

(** ** [initiate] and [execute] *)

(** The JSON body of the reply to the device-authorization request: the
    properties that [initiate] reads. *)
Record DeviceAuthorization := {
  device_code : option string;
  user_code : option string;
  verification_uri : option string;
  verification_uri_complete : option string;
  device_expires_in : option Z;
  device_interval : option Z;
}.

(** The object that [initiate] returns. *)
Record DeviceAuth := {
  deviceCode : option string;
  userCode : option string;
  verificationUri : option string;
  verificationUriComplete : option string;
  auth_expiresIn : option Z;
  interval : Z;
}.

(** What becomes of the device-authorization request. *)
Inductive AuthorizationReply :=
| AuthorizationThrew (message : string)                (* fetch rejects *)
| AuthorizationRefused (status : Z) (statusText : string)   (* response.ok is false *)
| AuthorizationUnreadable (message : string)           (* response.json() rejects *)
| Authorized (data : DeviceAuthorization).

(** [initiate()], lines 26-64. *)
Definition initiate (reply : AuthorizationReply) : Outcome DeviceAuth :=
  match reply with
  | AuthorizationThrew message => Rejected message
  | AuthorizationRefused status statusText =>
    Rejected ("Device authorization failed: " +:+ pretty status +:+ " " +:+
              statusText)
  | AuthorizationUnreadable message => Rejected message
  | Authorized data =>
    Resolved
      {| deviceCode := device_code data;
         userCode := user_code data;
         verificationUri := verification_uri data;
         verificationUriComplete :=
           if truthy_opt (verification_uri_complete data)
           then verification_uri_complete data
           else verification_uri data;
         auth_expiresIn := device_expires_in data;
         interval :=
           match device_interval data with
           | Some n => if (n =? 0)%Z then 5 else n
           | None => 5
           end |}
  end.

(** What [execute] does, in program order. *)
Inductive Step :=
| Authorize                                   (* the request of [initiate] *)
| Display (url userCode : option string)      (* this.onUserCode(url, userCode) *)
| Poll (effect : Effect).                     (* an effect of [pollForToken] *)

(** [execute()], lines 138-149.  [onUserCode] is the callback of the
    options, if there is one, given by what its call settles to. *)
Definition execute
    (onUserCode : option (option string → option string → Outcome unit))
    (authorization : AuthorizationReply) (replies : nat → Reply)
  : Outcome Tokens * list Step :=
  match initiate authorization with
  | Rejected message => (Rejected message, [Authorize])
  | Resolved deviceAuth =>
    let url := verificationUriComplete deviceAuth in
    let code := userCode deviceAuth in
    let polling :=
      let '(o, eff) := pollForToken (interval deviceAuth) replies in
      (o, Poll <$> eff) in
    match onUserCode with
    | None => (polling.1, Authorize :: polling.2)
    | Some callback =>
      match callback url code with
      | Rejected message => (Rejected message, [Authorize; Display url code])
      | Resolved _ => (polling.1, Authorize :: Display url code :: polling.2)
      end
    end
  end.

Definition is_sleep (e : Effect) : bool :=
  match e with Sleep _ => true | _ => false end.

(** The number of pauses of a run. *)
Definition sleeps (effects : list Effect) : nat :=
  length (List.filter is_sleep effects).

End DeviceCodeFlow.

(* ===================================================================== *)
(** * lib/auth/credential-store.mjs: CredentialStore *)
(* ===================================================================== *)

Module CredentialStore.

(** ** Data *)

(** A stored credential: the plain object handed to [set], seen through
    the properties the code reads.  [None] is a property that is absent
    or [undefined]; [JSON.stringify] omits both, and deep equality
    ([toEqual]) does not tell them apart. *)
Record TokenRecord := {
  accessToken : option string;
  refreshToken : option string;
  tokenType : option string;
  scope : option string;
  issuedAt : option string;
  expiresAt : option string;
}.

(** The own properties of the object [allData]: service name to record. *)
Abbreviation Credentials := (gmap string TokenRecord).

(** A string that is read with [JSON.parse]: the serialisation of a
    value of the expected shape, or any other text, on which
    [JSON.parse] or the first use of its result throws.
    [JSON.parse (JSON.stringify v)] gives [v] back on the values this
    module serialises, so a serialised value is represented by the
    value.  The class only ever encrypts the object [allData], so the
    plaintext of a file that decrypts is the serialisation of an object. *)
Inductive Json (A : Type) : Type :=
| JsonOf (value : A)
| NotJson (text : string).
Arguments JsonOf {A} value.
Arguments NotJson {A} text.

Definition JSON_stringify {A : Type} (value : A) : Json A := JsonOf value.

Definition JSON_parse {A : Type} (text : Json A) : option A :=
  match text with
  | JsonOf value => Some value
  | NotJson _ => None
  end.

(** ** node:crypto, idealised

    [pbkdf2Sync] is a deterministic function of its arguments.  A
    ciphertext of AES-256-CBC decrypts under the key and the
    initialisation vector it was made with, and under no other:
    [decipher.final] throws, or what comes out is not JSON. *)
Inductive Key :=
| Pbkdf2 (password salt : string) (iterations keylen : N) (digest : string).

Inductive Ciphertext :=
| Aes256Cbc (key : Key) (iv : list Byte.byte) (plaintext : Json Credentials)
| Garbage (hex : string).

(** The object [{iv, data}] that is written to the file. *)
Record EncryptedBlob := {
  blob_iv : string;
  blob_data : Ciphertext;
}.

#[global] Instance Key_eq_dec : EqDecision Key.
Proof. solve_decision. Defined.

#[global] Instance byte_eq_dec : EqDecision Byte.byte :=
  λ x y,
    match Byte.eqb x y as b return Byte.eqb x y = b → Decision (x = y) with
    | true => λ E, left (Byte.byte_dec_bl x y E)
    | false => λ E, right (Byte.eqb_false E)
    end eq_refl.

Definition createCipheriv_update_final (key : Key) (iv : list Byte.byte)
    (plaintext : Json Credentials) : Ciphertext :=
  Aes256Cbc key iv plaintext.

Definition createDecipheriv_update_final (key : Key) (iv : list Byte.byte)
    (data : Ciphertext) : option (Json Credentials) :=
  match data with
  | Aes256Cbc key' iv' plaintext =>
    if decide (key = key' ∧ iv = iv') then Some plaintext else None
  | Garbage _ => None
  end.

(** ** Buffer and hexadecimal text

    [Buffer.from(s, 'hex')] decodes pairs of hexadecimal digits and
    stops at the first pair that is not one. *)
Definition hex_digit (n : N) : Ascii.ascii :=
  default Ascii.zero (String.get (N.to_nat n) "0123456789abcdef").

Definition hex_value (c : Ascii.ascii) : option N :=
  let n := Ascii.N_of_ascii c in
  if (48 <=? n)%N && (n <=? 57)%N then Some (n - 48)%N
  else if (97 <=? n)%N && (n <=? 102)%N then Some (n - 87)%N
  else if (65 <=? n)%N && (n <=? 70)%N then Some (n - 55)%N
  else None.

Definition byte_toString_hex (b : Byte.byte) : string :=
  let n := Byte.to_N b in
  String (hex_digit (n / 16)) (String (hex_digit (n mod 16)) "").

(** [buffer.toString('hex')] *)
Fixpoint toString_hex (bytes : list Byte.byte) : string :=
  match bytes with
  | [] => ""
  | b :: rest => byte_toString_hex b +:+ toString_hex rest
  end.

(** [Buffer.from(s, 'hex')] *)
Fixpoint Buffer_from_hex (s : string) : list Byte.byte :=
  match s with
  | String hi (String lo rest) =>
    match hex_value hi, hex_value lo with
    | Some h, Some l =>
      match Byte.of_N (16 * h + l) with
      | Some b => b :: Buffer_from_hex rest
      | None => []
      end
    | _, _ => []
    end
  | _ => []
  end.

(** ** The machine: operating system, file system, keychain *)

(** What [JSON.parse] gives for a password of the keychain, which any
    program of the user can write: an object, represented by the
    properties of a token record that it has; [null]; or another value
    that is truthy ([true], a number that is not 0, a string that is
    not empty, an array), given by its text.  The falsy values [false],
    [0] and the empty string are not represented. *)
Inductive Entry :=
| RecordValue (record : TokenRecord)
| NullValue
| OtherValue (text : string).

(** The keychain as [keytar] shows it: the password stored for each
    service under the account ["default"], and whether each of the
    three calls currently throws. *)
Record Keytar := {
  passwords : gmap string (Json Entry);
  getPassword_throws : bool;
  setPassword_throws : bool;
  deletePassword_throws : bool;
}.

(** [require_defined] is whether the function [require] exists where
    the modules run: it does not in the program as node runs it. *)
Record Machine := {
  require_defined : bool;
  hostname : string;
  homedir : string;
  files : gmap string (Json EncryptedBlob);
  keytar : Keytar;
}.

(** The message of the ReferenceError that a call of [require] throws
    where [require] is not defined. *)
Definition require_is_not_defined : string := "require is not defined".

Definition with_files (w : Machine) (fs : gmap string (Json EncryptedBlob))
  : Machine :=
  {| require_defined := require_defined w;
     hostname := hostname w; homedir := homedir w;
     files := fs; keytar := keytar w |}.

Definition with_passwords (w : Machine) (ps : gmap string (Json Entry))
  : Machine :=
  {| require_defined := require_defined w;
     hostname := hostname w; homedir := homedir w; files := files w;
     keytar := {| passwords := ps;
                  getPassword_throws := getPassword_throws (keytar w);
                  setPassword_throws := setPassword_throws (keytar w);
                  deletePassword_throws := deletePassword_throws (keytar w) |} |}.

(** ** The object [allData]

    [allData] is an ordinary object, [{}] or the result of
    [JSON.parse], so its prototype is [Object.prototype].  Reading a
    property that is not an own property finds the members of
    [Object.prototype]; assigning to ["__proto__"], when that is not an
    own property, runs the setter of [Object.prototype.__proto__], which
    replaces the prototype and creates no own property.  [JSON.parse]
    creates own properties only, and [JSON.stringify] writes own
    properties only. *)
Definition Object_prototype : list string :=
  [ "constructor"; "__defineGetter__"; "__defineSetter__"; "hasOwnProperty";
    "__lookupGetter__"; "__lookupSetter__"; "isPrototypeOf";
    "propertyIsEnumerable"; "toString"; "valueOf"; "__proto__";
    "toLocaleString" ].

(** What [get] resolves to. *)
Inductive Stored :=
| Null
| Credential (record : TokenRecord)
| Inherited (member : string)    (* the member of Object.prototype of that name *)
| Foreign (text : string).       (* another truthy value that was parsed *)

(** [allData[service] || null]; records and the members of
    [Object.prototype] are objects, hence truthy. *)
Definition property_or_null (allData : Credentials) (service : string) : Stored :=
  match allData !! service with
  | Some record => Credential record
  | None =>
    if bool_decide (service ∈ Object_prototype) then Inherited service else Null
  end.

(** [allData[service] = data] *)
Definition assign (allData : Credentials) (service : string) (data : TokenRecord)
  : Credentials :=
  if bool_decide (service = "__proto__") && bool_decide (allData !! service = None)
  then allData
  else <[service := data]> allData.

(** ** The class *)

Record CredentialStore := {
  keytarAvailable : bool;
  storageDir : string;
  storageFile : string;
}.

(** [path.join] of a directory and a name. *)
Definition join (dir name : string) : string := dir +:+ "/" +:+ name.

(** [constructor()]; [keytar_loads] is whether [require('keytar')]
    succeeds in [_checkKeytar], which it does not where [require] is
    not defined.  Directories are not modelled. *)
Definition new (keytar_loads : bool) (w : Machine) : CredentialStore :=
  let dir := join (homedir w) ".gitsuper" in
  {| keytarAvailable := keytar_loads;
     storageDir := dir;
     storageFile := join dir "credentials.enc" |}.

(** [_getEncryptionKey()]; [None] when [require('node:os')] throws. *)
Definition _getEncryptionKey (w : Machine) : option Key :=
  if require_defined w then
    let machineId := hostname w +:+ "-" +:+ homedir w in
    let salt := "git-super-credential-store-v1" in
    Some (Pbkdf2 machineId salt 100000 32 "sha256")
  else None.

(** [_encrypt(data)]; [iv] is what [randomBytes(16)] returns; [None]
    when [_getEncryptionKey] throws. *)
Definition _encrypt (w : Machine) (iv : list Byte.byte) (data : Credentials)
  : option EncryptedBlob :=
  key ← _getEncryptionKey w;
  let encrypted := createCipheriv_update_final key iv (JSON_stringify data) in
  Some {| blob_iv := toString_hex iv; blob_data := encrypted |}.

(** [_decrypt(encrypted)]; [None] when it throws. *)
Definition _decrypt (w : Machine) (encrypted : EncryptedBlob)
  : option Credentials :=
  key ← _getEncryptionKey w;
  let iv := Buffer_from_hex (blob_iv encrypted) in
  decrypted ← createDecipheriv_update_final key iv (blob_data encrypted);
  JSON_parse decrypted.

(** [this._decrypt(JSON.parse(content))] on the content of the file. *)
Definition read_all (w : Machine) (content : Json EncryptedBlob)
  : option Credentials :=
  JSON_parse content ≫= _decrypt w.

(** [_getFromFile(service)] *)
Definition _getFromFile (cs : CredentialStore) (w : Machine) (service : string)
  : Stored :=
  match files w !! storageFile cs with
  | None => Null
  | Some content =>
    match read_all w content with
    | Some allData => property_or_null allData service
    | None => Null                (* catch: console.error, return null *)
    end
  end.

(** What [_setInFile] starts from: the content of a readable file,
    the empty object otherwise. *)
Definition existing (cs : CredentialStore) (w : Machine) : Credentials :=
  match files w !! storageFile cs with
  | None => ∅
  | Some content => default ∅ (read_all w content)
  end.

(** [_setInFile(service, data)]: how it ends, [Rejected] with the
    message of what it throws, and the machine it leaves.  [_encrypt]
    is called outside the [try], lines 586-588: what it throws is not
    caught, and nothing is written. *)
Definition _setInFile_call (cs : CredentialStore) (iv : list Byte.byte)
    (w : Machine) (service : string) (data : TokenRecord)
  : Outcome unit * Machine :=
  let allData : Credentials :=
    match files w !! storageFile cs with
    | None => ∅
    | Some content =>
      match read_all w content with
      | Some parsed => parsed
      | None => ∅                 (* catch: console.warn, allData stays {} *)
      end
    end in
  let allData := assign allData service data in
  match _encrypt w iv allData with
  | None => (Rejected require_is_not_defined, w)
  | Some encrypted =>
    (Resolved (),
     with_files w (<[storageFile cs := JSON_stringify encrypted]> (files w)))
  end.

(** The machine that [_setInFile(service, data)] leaves. *)
Definition _setInFile (cs : CredentialStore) (iv : list Byte.byte) (w : Machine)
    (service : string) (data : TokenRecord) : Machine :=
  (_setInFile_call cs iv w service data).2.

(** [_deleteFromFile(service)] *)
Definition _deleteFromFile (cs : CredentialStore) (iv : list Byte.byte) (w : Machine)
    (service : string) : Machine :=
  match files w !! storageFile cs with
  | None => w
  | Some content =>
    match read_all w content with
    | Some allData =>
      let allData := delete service allData in
      match _encrypt w iv allData with
      | Some encrypted =>
        with_files w (<[storageFile cs := JSON_stringify encrypted]> (files w))
      | None => w                 (* catch: console.error *)
      end
    | None => w                   (* catch: console.error *)
    end
  end.

(** Whether the [try] block of [get], [set] or [delete] reaches the
    keychain: [keytar] was loaded by the constructor and
    [require('keytar')] does not throw. *)
Definition keytar_reached (cs : CredentialStore) (w : Machine) : bool :=
  keytarAvailable cs && require_defined w.

(** [get(service)] *)
Definition get (cs : CredentialStore) (w : Machine) (service : string) : Stored :=
  let fallback := _getFromFile cs w service in
  if keytar_reached cs w then
    if getPassword_throws (keytar w) then fallback
    else
      match passwords (keytar w) !! service with
      | None => Null                           (* data is null *)
      | Some (NotJson "") => Null              (* data is falsy *)
      | Some data =>
        match JSON_parse data with             (* return JSON.parse(data) *)
        | Some (RecordValue record) => Credential record
        | Some NullValue => Null
        | Some (OtherValue value) => Foreign value
        | None => fallback                     (* JSON.parse throws *)
        end
      end
  else fallback.

(** [set(service, data)]: how it settles and the machine it leaves. *)
Definition set_call (cs : CredentialStore) (iv : list Byte.byte) (w : Machine)
    (service : string) (data : TokenRecord) : Outcome unit * Machine :=
  if keytar_reached cs w && negb (setPassword_throws (keytar w)) then
    (Resolved (),
     with_passwords w
       (<[service := JSON_stringify (RecordValue data)]> (passwords (keytar w))))
  else _setInFile_call cs iv w service data.

(** The machine that [set(service, data)] leaves. *)
Definition set (cs : CredentialStore) (iv : list Byte.byte) (w : Machine)
    (service : string) (data : TokenRecord) : Machine :=
  (set_call cs iv w service data).2.

(** [delete(service)]; it catches whatever is thrown. *)
Definition delete_ (cs : CredentialStore) (iv : list Byte.byte) (w : Machine)
    (service : string) : Machine :=
  let w :=
    if keytar_reached cs w && negb (deletePassword_throws (keytar w)) then
      with_passwords w (delete service (passwords (keytar w)))
    else w in
  _deleteFromFile cs iv w service.

(** [getStorageMethod()] *)
Definition getStorageMethod (cs : CredentialStore) : string :=
  if keytarAvailable cs then "keytar" else "file".

(** A store that takes a write and answers the next read from the
    backend that took it: [require] is defined, and either [keytar] is
    not installed (the file is written and read) or neither
    [setPassword] nor [getPassword] throws (the keychain is). *)
Definition reads_back (cs : CredentialStore) (w : Machine) : Prop :=
  require_defined w = true ∧
  (keytarAvailable cs = true →
   setPassword_throws (keytar w) = false ∧ getPassword_throws (keytar w) = false).

End CredentialStore.

(* ===================================================================== *)
(** * lib/auth/token-manager.mjs: TokenManager *)
(* ===================================================================== *)

Module TokenManager.

Import CredentialStore.

(** ** The clock and [Date] *)

(** [Date_getTime s] is [new Date(s).getTime()], with [None] for NaN;
    [Date_toISOString ms] is [new Date(ms).toISOString()], with [None]
    when it throws a RangeError. *)
Class JSDate := {
  Date_getTime : string → option Z;
  Date_toISOString : Z → option string;
  (* new Date("") is an invalid date *)
  Date_getTime_empty : Date_getTime "" = None;
}.

(** What a step reads from outside: [Date.now()] and the bytes that
    [randomBytes(16)] returns if the step writes the file. *)
Record Env := {
  now : Z;
  iv : list Byte.byte;
}.

(** ** The object *)

Record Options := {
  opt_clientId : string;
  opt_clientSecret : option string;
  opt_scopes : option (list string);
  opt_tokenEndpoint : string;
  opt_refreshEndpoint : option string;
  opt_refreshThreshold : option Z;
}.

Record TokenManager := {
  providerId : string;
  clientId : string;
  clientSecret : option string;
  scopes : list string;
  tokenEndpoint : string;
  refreshEndpoint : string;
  credentialStore : CredentialStore;
  tokenCache : option TokenRecord;
  refreshPromise : option nat;       (* the pending promise, by number *)
  refreshThreshold : Z;
}.

Definition with_tokenCache (tm : TokenManager) (cache : option TokenRecord)
  : TokenManager :=
  {| providerId := providerId tm; clientId := clientId tm;
     clientSecret := clientSecret tm; scopes := scopes tm;
     tokenEndpoint := tokenEndpoint tm; refreshEndpoint := refreshEndpoint tm;
     credentialStore := credentialStore tm;
     tokenCache := cache;
     refreshPromise := refreshPromise tm;
     refreshThreshold := refreshThreshold tm |}.

Definition with_refreshPromise (tm : TokenManager) (p : option nat)
  : TokenManager :=
  {| providerId := providerId tm; clientId := clientId tm;
     clientSecret := clientSecret tm; scopes := scopes tm;
     tokenEndpoint := tokenEndpoint tm; refreshEndpoint := refreshEndpoint tm;
     credentialStore := credentialStore tm;
     tokenCache := tokenCache tm;
     refreshPromise := p;
     refreshThreshold := refreshThreshold tm |}.

(** [constructor(providerId, options)] *)
Definition new (providerId : string) (options : Options)
    (keytar_loads : bool) (w : Machine) : TokenManager :=
  {| providerId := providerId;
     clientId := opt_clientId options;
     clientSecret := opt_clientSecret options;
     scopes := default [] (opt_scopes options);
     tokenEndpoint := opt_tokenEndpoint options;
     refreshEndpoint :=
       or_default (opt_refreshEndpoint options) (opt_tokenEndpoint options);
     credentialStore := CredentialStore.new keytar_loads w;
     tokenCache := None;
     refreshPromise := None;
     refreshThreshold :=
       match opt_refreshThreshold options with
       | Some t => if (t =? 0)%Z then 5 * 60 * 1000 else t
       | None => 5 * 60 * 1000
       end%Z |}.

Definition _getServiceName (tm : TokenManager) : string :=
  "git-super-" +:+ providerId tm.

(** [stored?.property]: [null], the members of [Object.prototype] and
    the values that are not objects have none of the properties of a
    record. *)
Definition property (stored : Stored) (f : TokenRecord → option string)
  : option string :=
  match stored with
  | Credential record => f record
  | Null | Inherited _ | Foreign _ => None
  end.

(** [getAccessToken()] *)
Definition getAccessToken (tm : TokenManager) (w : Machine)
  : option string * TokenManager :=
  if truthy_opt (tokenCache tm ≫= accessToken) then
    (tokenCache tm ≫= accessToken, tm)
  else
    let stored := get (credentialStore tm) w (_getServiceName tm) in
    match stored with
    | Credential record =>
      if truthy_opt (accessToken record) then
        (accessToken record, with_tokenCache tm (Some record))
      else (None, tm)
    | Null | Inherited _ | Foreign _ => (None, tm)
    end.

(** [getRefreshToken()] *)
Definition getRefreshToken (tm : TokenManager) (w : Machine) : option string :=
  let stored := get (credentialStore tm) w (_getServiceName tm) in
  or_null (property stored refreshToken).

(** [a > b] and [a - b < c] on numbers, where [None] is NaN. *)
Definition number_gt (a : option Z) (b : Z) : bool :=
  match a with
  | Some a => (b <? a)%Z
  | None => false
  end.

Definition difference_lt (a : option Z) (b c : Z) : bool :=
  match a with
  | Some a => (a - b <? c)%Z
  | None => false
  end.

(** [hasValidToken()] *)
Definition hasValidToken `{JSDate} (env : Env) (tm : TokenManager) (w : Machine)
  : bool * TokenManager :=
  let '(token, tm) := getAccessToken tm w in
  if negb (truthy_opt token) then (false, tm)
  else
    let stored := get (credentialStore tm) w (_getServiceName tm) in
    match or_null (property stored expiresAt) with
    | None => (true, tm)
    | Some e =>
      let expiresAt := Date_getTime e in
      (number_gt expiresAt (now env), tm)
    end.

(** [needsRefresh()] *)
Definition needsRefresh `{JSDate} (env : Env) (tm : TokenManager) (w : Machine)
  : bool :=
  let stored := get (credentialStore tm) w (_getServiceName tm) in
  match or_null (property stored expiresAt) with
  | None => false
  | Some e =>
    let expiresAt := Date_getTime e in
    difference_lt expiresAt (now env) (refreshThreshold tm)
  end.

(** [scopes.join(' ')] *)
Definition join_scopes (scopes : list string) : string :=
  String.concat " " scopes.

(** The object [data] that [storeTokens(tokens)] builds, lines 117-129;
    [None] when [toISOString] throws. *)
Definition token_data `{JSDate} (env : Env) (tm : TokenManager)
    (tokens : DeviceCodeFlow.Tokens) : option TokenRecord :=
  issued ← Date_toISOString (now env);
  expires ←
    match DeviceCodeFlow.expiresIn tokens with
    | Some n =>
      if (n =? 0)%Z then Some None
      else Some <$> Date_toISOString (now env + n * 1000)%Z
    | None => Some None
    end;
  Some {| accessToken := DeviceCodeFlow.accessToken tokens;
          refreshToken := DeviceCodeFlow.refreshToken tokens;
          tokenType := Some (or_default (DeviceCodeFlow.tokenType tokens) "Bearer");
          scope := Some (or_default (DeviceCodeFlow.tokens_scope tokens)
                                    (join_scopes (scopes tm)));
          issuedAt := Some issued;
          expiresAt := expires |}.

(** [storeTokens(tokens)], run to its end.  When
    [this.credentialStore.set] rejects, [storeTokens] rejects with the
    same error and the cache is not touched. *)
Definition storeTokens `{JSDate} (env : Env) (tm : TokenManager) (w : Machine)
    (tokens : DeviceCodeFlow.Tokens) : Outcome unit * TokenManager * Machine :=
  match token_data env tm tokens with
  | None => (Rejected "Invalid time value", tm, w)
  | Some data =>
    match set_call (credentialStore tm) (iv env) w (_getServiceName tm) data with
    | (Resolved _, w) => (Resolved (), with_tokenCache tm (Some data), w)
    | (Rejected message, w) => (Rejected message, tm, w)
    end
  end.

(** ** [revokeToken] *)

(** What [fetch] does with the revocation request. *)
Inductive FetchReply :=
| FetchThrew (message : string)
| Response (ok : bool) (status : Z) (statusText : string).

Inductive Effect :=
| Request (endpoint : string) (token : string)   (* fetch(endpoint, {method: 'POST', ...}) *)
| Log (text : string).                           (* console.error / console.warn *)

(** [await fetch(revokeEndpoint, ...)]: the response is not looked at. *)
Definition await_fetch (reply : FetchReply) : Outcome unit :=
  match reply with
  | FetchThrew message => Rejected message
  | Response _ _ _ => Resolved ()
  end.

(** [revokeToken(revokeEndpoint)]; [reply] is the fate of the request,
    if one is sent. *)
Definition revokeToken (env : Env) (tm : TokenManager) (w : Machine)
    (revokeEndpoint : option string) (reply : FetchReply)
  : Outcome unit * TokenManager * Machine * list Effect :=
  let '(accessToken, tm) := getAccessToken tm w in
  let effects :=
    if truthy_opt revokeEndpoint && truthy_opt accessToken then
      Request (default "" revokeEndpoint) (default "" accessToken) ::
      match await_fetch reply with               (* try *)
      | Resolved _ => []
      | Rejected message =>                      (* catch *)
        [Log ("Failed to revoke token on server: " +:+ message)]
      end
    else [] in
  let w := delete_ (credentialStore tm) (iv env) w (_getServiceName tm) in
  (Resolved (), with_tokenCache tm None, w, effects).

(** ** [refreshToken] and [_doRefresh] as coroutines

    An [async] function runs until its first [await] when it is called
    and one stretch further each time it is resumed.  The calls to the
    credential store act when they are issued; their [await] is a
    resumption with no data ([Tick]). *)

(** What [response.json()] does: it rejects, or gives the parsed body,
    seen through the properties that [storeTokens] reads from it
    ([accessToken], [refreshToken], [expiresIn], [tokenType], [scope]). *)
Inductive JsonReply :=
| JsonThrew (message : string)
| JsonBody (tokens : DeviceCodeFlow.Tokens).

(** What resumes a suspended [_doRefresh]. *)
Inductive Event :=
| Tick
| FetchSettled (reply : FetchReply)
| JsonSettled (reply : JsonReply).

(** Where [_doRefresh] is suspended. *)
Inductive Phase :=
| AwaitGetRefreshToken (refreshToken : option string)   (* line 162 *)
| AwaitFetch (refreshToken : string)                    (* line 169 *)
| AwaitJson                                             (* line 187 *)
| AwaitStoreTokens (data : TokenRecord) (stored : Outcome unit).
    (* line 188, inside [storeTokens] at line 132; [stored] is what
       [credentialStore.set] settles to *)

(** How a stretch of the body ends, before [catch] is applied. *)
Inductive Progress :=
| Suspends (phase : Phase)
| Returns (value : bool)
| Throws (message : string).

(** [_doRefresh()] up to its first [await]. *)
Definition doRefresh_start (tm : TokenManager) (w : Machine) : Phase :=
  AwaitGetRefreshToken (getRefreshToken tm w).

(** One stretch of the body of [_doRefresh], from a resumption to the
    next [await], [return] or exception. *)
Definition doRefresh_body `{JSDate} (env : Env) (tm : TokenManager) (w : Machine)
    (phase : Phase) (event : Event)
  : option (Progress * TokenManager * Machine * list Effect) :=
  match phase, event with
  | AwaitGetRefreshToken refreshToken, Tick =>
    if negb (truthy_opt refreshToken) then Some (Returns false, tm, w, [])
    else
      let rt := default "" refreshToken in
      Some (Suspends (AwaitFetch rt), tm, w, [Request (refreshEndpoint tm) rt])
  | AwaitFetch _, FetchSettled (FetchThrew message) =>
    Some (Throws message, tm, w, [])
  | AwaitFetch _, FetchSettled (Response ok status statusText) =>
    if negb ok then
      Some (Returns false, tm, w,
            [Log ("Token refresh failed: " +:+ pretty status +:+ " " +:+
                  statusText)])
    else Some (Suspends AwaitJson, tm, w, [])
  | AwaitJson, JsonSettled (JsonThrew message) =>
    Some (Throws message, tm, w, [])
  | AwaitJson, JsonSettled (JsonBody tokens) =>
    match token_data env tm tokens with
    | None => Some (Throws "Invalid time value", tm, w, [])
    | Some data =>
      let '(stored, w) :=
        set_call (credentialStore tm) (iv env) w (_getServiceName tm) data in
      Some (Suspends (AwaitStoreTokens data stored), tm, w, [])
    end
  | AwaitStoreTokens data (Resolved _), Tick =>
    Some (Returns true, with_tokenCache tm (Some data), w, [])
  | AwaitStoreTokens data (Rejected message), Tick =>
    Some (Throws message, tm, w, [])
  | _, _ => None
  end.

(** Whether the suspension point lies inside [try { ... }], lines 168-194. *)
Definition in_try (phase : Phase) : bool :=
  match phase with
  | AwaitGetRefreshToken _ => false
  | _ => true
  end.

Inductive Resumption :=
| Suspend (phase : Phase)
| Settle (result : Outcome bool).

(** One stretch of [_doRefresh], with its [catch] clause. *)
Definition doRefresh_resume `{JSDate} (env : Env) (tm : TokenManager)
    (w : Machine) (phase : Phase) (event : Event)
  : option (Resumption * TokenManager * Machine * list Effect) :=
  match doRefresh_body env tm w phase event with
  | None => None
  | Some (Suspends phase', tm, w, eff) => Some (Suspend phase', tm, w, eff)
  | Some (Returns value, tm, w, eff) => Some (Settle (Resolved value), tm, w, eff)
  | Some (Throws message, tm, w, eff) =>
    if in_try phase then
      Some (Settle (Resolved false), tm, w,
            eff ++ [Log ("Error refreshing token: " +:+ message)])
    else Some (Settle (Rejected message), tm, w, eff)
  end.

(** A call of [refreshToken()] that has not returned to its caller yet. *)
Inductive Caller :=
| Owner (p : nat)          (* suspended at [await this.refreshPromise], line 151 *)
| Follower (p : nat)       (* did [return this.refreshPromise], line 145 *)
| Finished (p : nat) (result : Outcome bool).

(** One TokenManager with everything that is pending on it. *)
Record System := {
  manager : TokenManager;
  machine : Machine;
  promises : list (option (Outcome bool));   (* [None] while pending *)
  coroutines : gmap nat Phase;               (* suspended [_doRefresh], by promise *)
  callers : gmap nat Caller;
  effects : list Effect;
}.

Inductive Label :=
| Call (c : nat)                              (* caller [c] calls refreshToken() *)
| Resume (p : nat) (env : Env) (event : Event)  (* [_doRefresh] of promise [p] goes on *)
| Wake (c : nat).                             (* caller [c] goes on after its await *)

(** [refreshToken()] up to its first suspension, lines 142-151. *)
Definition refreshToken_call (c : nat) (s : System) : option System :=
  match callers s !! c with
  | Some _ => None
  | None =>
    match refreshPromise (manager s) with
    | Some p =>
      Some {| manager := manager s; machine := machine s;
              promises := promises s; coroutines := coroutines s;
              callers := <[c := Follower p]> (callers s);
              effects := effects s |}
    | None =>
      let p := length (promises s) in
      let phase := doRefresh_start (manager s) (machine s) in
      Some {| manager := with_refreshPromise (manager s) (Some p);
              machine := machine s;
              promises := promises s ++ [None];
              coroutines := <[p := phase]> (coroutines s);
              callers := <[c := Owner p]> (callers s);
              effects := effects s |}
    end
  end.

(** A suspended [_doRefresh] is resumed. *)
Definition doRefresh_step `{JSDate} (p : nat) (env : Env) (event : Event)
    (s : System) : option System :=
  phase ← coroutines s !! p;
  r ← doRefresh_resume env (manager s) (machine s) phase event;
  match r with
  | (Suspend phase', tm, w, eff) =>
    Some {| manager := tm; machine := w; promises := promises s;
            coroutines := <[p := phase']> (coroutines s);
            callers := callers s; effects := effects s ++ eff |}
  | (Settle result, tm, w, eff) =>
    Some {| manager := tm; machine := w;
            promises := <[p := Some result]> (promises s);
            coroutines := delete p (coroutines s);
            callers := callers s; effects := effects s ++ eff |}
  end.

(** The rest of [refreshToken()] once the awaited promise has settled:
    [finally { this.refreshPromise = null }] for the call that started
    the refresh, nothing for one that returned the pending promise. *)
Definition refreshToken_wake (c : nat) (s : System) : option System :=
  match callers s !! c with
  | Some (Owner p) =>
    match promises s !! p with
    | Some (Some result) =>
      Some {| manager := with_refreshPromise (manager s) None;
              machine := machine s; promises := promises s;
              coroutines := coroutines s;
              callers := <[c := Finished p result]> (callers s);
              effects := effects s |}
    | _ => None
    end
  | Some (Follower p) =>
    match promises s !! p with
    | Some (Some result) =>
      Some {| manager := manager s;
              machine := machine s; promises := promises s;
              coroutines := coroutines s;
              callers := <[c := Finished p result]> (callers s);
              effects := effects s |}
    | _ => None
    end
  | _ => None
  end.

Definition exec `{JSDate} (l : Label) (s : System) : option System :=
  match l with
  | Call c => refreshToken_call c s
  | Resume p env event => doRefresh_step p env event s
  | Wake c => refreshToken_wake c s
  end.

(** A manager on which nothing is pending. *)
Definition idle (tm : TokenManager) (w : Machine) : System :=
  {| manager := with_refreshPromise tm None; machine := w; promises := [];
     coroutines := ∅; callers := ∅; effects := [] |}.


(** Running a schedule. *)
Fixpoint run `{JSDate} (schedule : list Label) (s : System) : option System :=
  match schedule with
  | [] => Some s
  | l :: rest => exec l s ≫= run rest
  end.

Definition is_request (e : Effect) : bool :=
  match e with Request _ _ => true | Log _ => false end.

(** The number of refresh requests sent so far. *)
Definition requests (s : System) : nat :=
  length (List.filter is_request (effects s)).





(** The outcome of caller [c], once it has one. *)
Definition outcome (s : System) (c : nat) : option (Outcome bool) :=
  match callers s !! c with
  | Some (Finished _ result) => Some result
  | _ => None
  end.

(** A single call of [refreshToken()] on an idle manager, run to its
    end: the events are delivered in order. *)
Definition refreshToken `{JSDate} (env : Env) (tm : TokenManager) (w : Machine)
    (events : list Event) : option (Outcome bool) :=
  s ← run (Call 0 :: map (Resume 0 env) events ++ [Wake 0]) (idle tm w);
  outcome s 0.

(** ** [getTokenInfo] *)

(** The object that [getTokenInfo()] returns. *)
Record TokenInfo := {
  hasToken : bool;
  info_expiresAt : option string;
  info_scope : option string;
  info_issuedAt : option string;
  info_isValid : bool;
}.

(** [getTokenInfo()], lines 231-245.  A member of [Object.prototype]
    and a value that is not an object are truthy and have none of the
    properties that are read. *)
Definition getTokenInfo `{JSDate} (env : Env) (tm : TokenManager) (w : Machine)
  : option TokenInfo * TokenManager :=
  let stored := get (credentialStore tm) w (_getServiceName tm) in
  match stored with
  | Null => (None, tm)
  | Credential _ | Inherited _ | Foreign _ =>
    let '(valid, tm') := hasValidToken env tm w in
    (Some {| hasToken := truthy_opt (property stored accessToken);
             info_expiresAt := property stored expiresAt;
             info_scope := property stored scope;
             info_issuedAt := property stored issuedAt;
             info_isValid := valid |}, tm')
  end.

(** ** The body of a token response, as [storeTokens] reads it *)

(** The value of a member of a parsed JSON body. *)
Inductive JsonValue :=
| JsonString (s : string)
| JsonNumber (n : Z).

(** [data[name]] for the object that [response.json()] gives for a token
    response as the token endpoint sends it: its members are [error],
    [error_description], [access_token], [refresh_token], [expires_in],
    [token_type] and [scope], each one there when the response has it;
    [Object.prototype] has no member of a name that is read. *)
Definition token_response_member (data : DeviceCodeFlow.TokenResponse)
    (name : string) : option JsonValue :=
  if String.eqb name "error" then JsonString <$> DeviceCodeFlow.error data
  else if String.eqb name "error_description" then
    JsonString <$> DeviceCodeFlow.error_description data
  else if String.eqb name "access_token" then
    JsonString <$> DeviceCodeFlow.access_token data
  else if String.eqb name "refresh_token" then
    JsonString <$> DeviceCodeFlow.refresh_token data
  else if String.eqb name "expires_in" then
    JsonNumber <$> DeviceCodeFlow.expires_in data
  else if String.eqb name "token_type" then
    JsonString <$> DeviceCodeFlow.token_type data
  else if String.eqb name "scope" then JsonString <$> DeviceCodeFlow.scope data
  else None.

Definition as_string (value : option JsonValue) : option string :=
  match value with
  | Some (JsonString s) => Some s
  | _ => None
  end.

Definition as_number (value : option JsonValue) : option Z :=
  match value with
  | Some (JsonNumber n) => Some n
  | _ => None
  end.

(** [await response.json()] at line 187 for such a response, seen
    through the five properties that [storeTokens] reads from it, lines
    118-121 and 126. *)
Definition token_response_body (data : DeviceCodeFlow.TokenResponse)
  : JsonReply :=
  let tokens := token_response_member data in
  JsonBody {| DeviceCodeFlow.accessToken := as_string (tokens "accessToken");
              DeviceCodeFlow.refreshToken := as_string (tokens "refreshToken");
              DeviceCodeFlow.expiresIn := as_number (tokens "expiresIn");
              DeviceCodeFlow.tokenType := as_string (tokens "tokenType");
              DeviceCodeFlow.tokens_scope := as_string (tokens "scope") |}.

End TokenManager.

(* ===================================================================== *)
(** * lib/auth/auth-strategy.mjs: OAuthAuthStrategy *)
(* ===================================================================== *)

Module AuthStrategy.

(** The methods of [this.tokenManager] that the strategy calls. *)
Inductive Method :=
| HasValidToken
| RefreshToken
| GetAccessToken.

(** An [async] method of the strategy: a tree of awaited calls on the
    token manager, each continued with what the call resolves to. *)
Inductive Prog (A : Type) : Type :=
| Ret (value : A)
| Fail (message : string)                         (* throw new Error(message) *)
| AwaitHasValidToken (k : bool → Prog A)
| AwaitRefreshToken (k : bool → Prog A)
| AwaitGetAccessToken (k : option string → Prog A).
Arguments Ret {A} value.
Arguments Fail {A} message.
Arguments AwaitHasValidToken {A} k.
Arguments AwaitRefreshToken {A} k.
Arguments AwaitGetAccessToken {A} k.

Fixpoint bind {A B : Type} (p : Prog A) (f : A → Prog B) : Prog B :=
  match p with
  | Ret value => f value
  | Fail message => Fail message
  | AwaitHasValidToken k => AwaitHasValidToken (λ b, bind (k b) f)
  | AwaitRefreshToken k => AwaitRefreshToken (λ b, bind (k b) f)
  | AwaitGetAccessToken k => AwaitGetAccessToken (λ t, bind (k t) f)
  end.

Abbreviation Headers := (gmap string string).

(** [ensureAuthenticated()] *)
Definition ensureAuthenticated : Prog unit :=
  AwaitHasValidToken (λ valid,
    if negb valid then
      AwaitRefreshToken (λ refreshed,
        if negb refreshed then
          Fail ("OAuth token expired and could not be refreshed. " +:+
                "Please re-authenticate with: git super auth login")
        else Ret ())
    else Ret ()).

(** [getAuthHeaders()] *)
Definition getAuthHeaders : Prog Headers :=
  bind ensureAuthenticated (λ _,
    AwaitGetAccessToken (λ token,
      if negb (truthy_opt token) then
        Fail ("No valid OAuth token available. " +:+
              "Please authenticate with: git super auth login")
      else
        Ret ({[ "Authorization" := "Bearer " +:+ default "" token ]} : Headers))).

(** [isValid()] *)
Definition isValid : Prog bool :=
  AwaitHasValidToken (λ valid, Ret valid).

(** A token manager as the strategy sees it: what each method resolves
    or rejects with when it is called, and its state after the call. *)
Record TokenManagerLike (S : Type) := {
  hasValidToken : S → Outcome bool * S;
  refreshToken : S → Outcome bool * S;
  getAccessToken : S → Outcome (option string) * S;
}.
Arguments hasValidToken {S} _ _.
Arguments refreshToken {S} _ _.
Arguments getAccessToken {S} _ _.

(** Running a method of the strategy against a token manager; the list
    is the calls made on the manager, in order. *)
Fixpoint exec {S A : Type} (tm : TokenManagerLike S) (p : Prog A) (s : S)
  : Outcome A * S * list Method :=
  match p with
  | Ret value => (Resolved value, s, [])
  | Fail message => (Rejected message, s, [])
  | AwaitHasValidToken k =>
    match hasValidToken tm s with
    | (Resolved b, s') =>
      let '(r, s'', calls) := exec tm (k b) s' in (r, s'', HasValidToken :: calls)
    | (Rejected message, s') => (Rejected message, s', [HasValidToken])
    end
  | AwaitRefreshToken k =>
    match refreshToken tm s with
    | (Resolved b, s') =>
      let '(r, s'', calls) := exec tm (k b) s' in (r, s'', RefreshToken :: calls)
    | (Rejected message, s') => (Rejected message, s', [RefreshToken])
    end
  | AwaitGetAccessToken k =>
    match getAccessToken tm s with
    | (Resolved t, s') =>
      let '(r, s'', calls) := exec tm (k t) s' in (r, s'', GetAccessToken :: calls)
    | (Rejected message, s') => (Rejected message, s', [GetAccessToken])
    end
  end.

(** The state in which the token is fetched: after a validity check
    that said yes, or after one that said no and a refresh that
    succeeded. *)
Definition confirmed {S : Type} (tm : TokenManagerLike S) (s s2 : S) : Prop :=
  ∃ valid s1,
    hasValidToken tm s = (Resolved valid, s1) ∧
    (valid = true ∧ s2 = s1 ∨
     valid = false ∧ refreshToken tm s1 = (Resolved true, s2)).

(** The token manager of the tests: each method resolves to a fixed value. *)
Definition mock (valid refreshed : bool) (token : option string)
  : TokenManagerLike unit :=
  {| hasValidToken := λ s, (Resolved valid, s);
     refreshToken := λ s, (Resolved refreshed, s);
     getAccessToken := λ s, (Resolved token, s) |}.

End AuthStrategy.


(* ===================================================================== *)
(** * lib/cli/auth-commands.mjs: logout *)
(* ===================================================================== *)

Module AuthCommands.

Import CredentialStore TokenManager.

(** [handleAuthLogout] with [--all], lines 141-150: every provider of
    the registry that has a token manager has [revokeToken()] called on
    it, without an endpoint, in the order of registration.  Each call
    has its own clock and random bytes; [reply] is what would become of
    a revocation request.  The result is the managers and the machine
    afterwards, and everything the calls did. *)
Fixpoint logout_all (providers : list (Env * TokenManager)) (w : Machine)
    (reply : FetchReply) : list TokenManager * Machine * list Effect :=
  match providers with
  | [] => ([], w, [])
  | (env, tm) :: rest =>
    let '(_, tm', w', eff) := revokeToken env tm w None reply in
    let '(tms, w'', effs) := logout_all rest w' reply in
    (tm' :: tms, w'', eff ++ effs)
  end.

End AuthCommands.

(* ===================================================================== *)
(** * lib/auth/auth-strategy.mjs: ApiKeyAuthStrategy, NoAuthStrategy *)
(* ===================================================================== *)

Module ApiKeyAuthStrategy.

Import AuthStrategy.

(** ** [String.prototype.replace] with a string pattern

    [s.replace(pattern, replacement)] replaces the first occurrence of
    [pattern]; in [replacement] the sequences [$$], [$&], [$`] and [$']
    stand for a dollar sign, the matched text, the text before it and
    the text after it.  With a string pattern there are no captures, so
    every other [$] stands for itself. *)

Fixpoint skip (n : nat) (s : string) : string :=
  match n, s with
  | O, _ => s
  | S n', String _ rest => skip n' rest
  | S _, EmptyString => EmptyString
  end.

(** The text before and after the first occurrence of [pattern]. *)
Fixpoint split_at (s pattern : string) : option (string * string) :=
  if String.prefix pattern s then Some (EmptyString, skip (String.length pattern) s)
  else
    match s with
    | EmptyString => None
    | String c rest =>
      match split_at rest pattern with
      | Some (before, after) => Some (String c before, after)
      | None => None
      end
    end.

Definition is_char (c : Ascii.ascii) (s : string) : bool :=
  String.eqb (String c EmptyString) s.

(** GetSubstitution, without captures. *)
Fixpoint substitute (replacement matched before after : string) : string :=
  match replacement with
  | EmptyString => EmptyString
  | String c rest =>
    if is_char c "$" then
      match rest with
      | EmptyString => "$"
      | String d rest' =>
        if is_char d "$" then "$" +:+ substitute rest' matched before after
        else if is_char d "&" then matched +:+ substitute rest' matched before after
        else if is_char d "`" then before +:+ substitute rest' matched before after
        else if is_char d "'" then after +:+ substitute rest' matched before after
        else "$" +:+ substitute rest matched before after
      end
    else String c (substitute rest matched before after)
  end.

Definition replace (s pattern replacement : string) : string :=
  match split_at s pattern with
  | None => s
  | Some (before, after) =>
    before +:+ substitute replacement pattern before after +:+ after
  end.

(** ** The strategy *)

(** The object [config], seen through its own properties that hold
    strings; an absent property, [null] and [undefined] are [None]. *)
Abbreviation Config := (gmap string string).

Record ApiKeyAuthStrategy := {
  config : Config;
  keyName : string;
  headerName : string;
  headerFormat : option string;
}.

(** [this.config[this.keyName]].  [config] is an ordinary object: for a
    key name that is the name of a member of [Object.prototype] and not
    an own property the value is that member, which is outside this
    model ([None]). *)
Definition apiKey (s : ApiKeyAuthStrategy) : option (option string) :=
  match config s !! keyName s with
  | Some value => Some (Some value)
  | None =>
    if bool_decide (keyName s ∈ CredentialStore.Object_prototype) then None
    else Some None
  end.

(** [getAuthHeaders()], lines 317-331. *)
Definition getAuthHeaders (s : ApiKeyAuthStrategy) : option (Outcome Headers) :=
  apiKey ← apiKey s;
  Some
    (if negb (truthy_opt apiKey) then
       Rejected (keyName s +:+ " is not configured. Please set it via " +:+
                 "environment variable or config file.")
     else
       let key := default "" apiKey in
       let value :=
         if truthy_opt (headerFormat s)
         then replace (default "" (headerFormat s)) "{key}" key
         else key in
       Resolved ({[ headerName s := value ]} : Headers)).

(** [isValid()], lines 333-335. *)
Definition isValid (s : ApiKeyAuthStrategy) : option bool :=
  truthy_opt <$> apiKey s.

(** [new OpenAIProvider(config).authStrategy] and
    [new AnthropicProvider(config).authStrategy]. *)
Definition OpenAIProvider (config : Config) : ApiKeyAuthStrategy :=
  {| config := config; keyName := "openaiKey"; headerName := "Authorization";
     headerFormat := Some "Bearer {key}" |}.

Definition AnthropicProvider (config : Config) : ApiKeyAuthStrategy :=
  {| config := config; keyName := "anthropicKey"; headerName := "x-api-key";
     headerFormat := Some "{key}" |}.

(** The headers of the request that [OpenAIProvider.generate] and
    [AnthropicProvider.generate] send; they send none when
    [getAuthHeaders] rejects. *)
Definition OpenAI_request_headers (config : Config) : option (Outcome Headers) :=
  r ← getAuthHeaders (OpenAIProvider config);
  Some match r with
       | Rejected message => Rejected message
       | Resolved authHeaders =>
         Resolved (authHeaders ∪ {[ "Content-Type" := "application/json" ]})
       end.

Definition Anthropic_request_headers (config : Config)
  : option (Outcome Headers) :=
  r ← getAuthHeaders (AnthropicProvider config);
  Some match r with
       | Rejected message => Rejected message
       | Resolved authHeaders =>
         Resolved ({[ "anthropic-version" := "2023-06-01" ]} ∪ authHeaders ∪
                   {[ "Content-Type" := "application/json" ]})
       end.

End ApiKeyAuthStrategy.

Module NoAuthStrategy.

(** [getAuthHeaders()] and [isValid()], lines 391-397. *)
Definition getAuthHeaders : Outcome AuthStrategy.Headers := Resolved ∅.
Definition isValid : bool := true.

End NoAuthStrategy.

(* ===================================================================== *)
(** * lib/providers: the providers that use OAuth *)
(* ===================================================================== *)

Module OAuthProvider.

Import CredentialStore TokenManager.

(** [BaseOAuthProvider.isAuthenticated()] *)
Definition isAuthenticated : AuthStrategy.Prog bool := AuthStrategy.isValid.

(** [BaseOAuthProvider.authenticatedFetch(url, options)] up to the
    request: the headers it sends. *)
Definition authenticatedFetch (headers : option AuthStrategy.Headers)
  : AuthStrategy.Prog AuthStrategy.Headers :=
  AuthStrategy.bind AuthStrategy.getAuthHeaders (λ authHeaders,
    AuthStrategy.Ret
      (default ∅ headers ∪ authHeaders ∪
       ({[ "Content-Type" := "application/json" ]} : AuthStrategy.Headers))).

(** [generate(prompt)] of [AzureOpenAIProvider] (lines 147-168) and of
    [GenericOIDCProvider] (lines 276-296) up to the request:
    [loginMessage] is the text with which the provider asks for a
    login. *)
Definition generate_request (loginMessage : string)
  : AuthStrategy.Prog AuthStrategy.Headers :=
  AuthStrategy.bind isAuthenticated (λ authenticated,
    if negb authenticated then AuthStrategy.Fail loginMessage
    else authenticatedFetch None).

Definition AzureOpenAI_login : string :=
  "Azure AD authentication required. " +:+
  "Please authenticate with: git super auth login --provider azure-openai".

Definition GenericOIDC_login : string :=
  "OIDC authentication required. " +:+
  "Please authenticate with: git super auth login --provider generic-oidc".

(** [completeAuth(deviceCode, interval)] of [GitHubCopilotProvider]
    (lines 152-162) and of [GenericOIDCProvider] (lines 261-271). *)
Definition store_polled `{JSDate} (env : Env) (tm : TokenManager) (w : Machine)
    (polled : Outcome DeviceCodeFlow.Tokens * list DeviceCodeFlow.Effect)
  : Outcome unit * TokenManager * Machine * list DeviceCodeFlow.Effect :=
  match polled with
  | (Rejected message, eff) => (Rejected message, tm, w, eff)
  | (Resolved tokens, eff) =>
    let '(o, tm', w') := storeTokens env tm w tokens in (o, tm', w', eff)
  end.

Definition completeAuth `{JSDate} (env : Env) (tm : TokenManager) (w : Machine)
    (interval : Z) (replies : nat → DeviceCodeFlow.Reply)
  : Outcome unit * TokenManager * Machine * list DeviceCodeFlow.Effect :=
  store_polled env tm w (DeviceCodeFlow.pollForToken interval replies).

(** The token manager of a provider as its strategy sees it, at one
    moment; what [refreshToken()] does is left open. *)
Definition tokenManager `{JSDate} (env : Env)
    (refresh : TokenManager * Machine → Outcome bool * (TokenManager * Machine))
  : AuthStrategy.TokenManagerLike (TokenManager * Machine) :=
  {| AuthStrategy.hasValidToken := λ s,
       let '(valid, tm') := hasValidToken env s.1 s.2 in (Resolved valid, (tm', s.2));
     AuthStrategy.refreshToken := refresh;
     AuthStrategy.getAccessToken := λ s,
       let '(token, tm') := getAccessToken s.1 s.2 in (Resolved token, (tm', s.2)) |}.

End OAuthProvider.
(* ===================================================================== *)
(** * Concrete inputs *)
(* ===================================================================== *)

Module Examples.

Import CredentialStore.

(** A machine with no credentials file and an empty, working keychain,
    on which the modules run where [require] is defined. *)
Definition laptop : Machine :=
  {| require_defined := true;
     hostname := "laptop"; homedir := "/home/dev"; files := ∅;
     keytar := {| passwords := ∅; getPassword_throws := false;
                  setPassword_throws := false;
                  deletePassword_throws := false |} |}.

(** The same machine while the keychain refuses to be written. *)
Definition locked_laptop : Machine :=
  {| require_defined := true;
     hostname := "laptop"; homedir := "/home/dev"; files := ∅;
     keytar := {| passwords := ∅; getPassword_throws := false;
                  setPassword_throws := true;
                  deletePassword_throws := false |} |}.

(** The same machine with the program as node runs it: [require] is
    not defined in the modules. *)
Definition node_laptop : Machine :=
  {| require_defined := false;
     hostname := "laptop"; homedir := "/home/dev"; files := ∅;
     keytar := {| passwords := ∅; getPassword_throws := false;
                  setPassword_throws := false;
                  deletePassword_throws := false |} |}.

(** [new CredentialStore()] under node: [require('keytar')] throws in
    [_checkKeytar], whether or not [keytar] is installed. *)
Definition node_store : CredentialStore := CredentialStore.new false node_laptop.

(** The store when [keytar] is not installed, and when it is. *)
Definition file_store : CredentialStore := CredentialStore.new false laptop.
Definition keytar_store : CredentialStore := CredentialStore.new true laptop.

(** Sixteen bytes, as [randomBytes(16)] gives. *)
Definition iv16 : list Byte.byte :=
  [ Byte.x3a; Byte.x91; Byte.x00; Byte.xff; Byte.x10; Byte.x27; Byte.xc4;
    Byte.x5e; Byte.x6b; Byte.x08; Byte.xd2; Byte.x7f; Byte.xa0; Byte.x13;
    Byte.xee; Byte.x42 ].

(** [{accessToken: 'tok1', refreshToken: 'ref1', expiresAt: ...}] *)
Definition record1 : TokenRecord :=
  {| accessToken := Some "tok1"; refreshToken := Some "ref1";
     tokenType := Some "Bearer"; scope := Some "read write";
     issuedAt := Some "2026-01-01T00:00:00.000Z";
     expiresAt := Some "2026-12-31T00:00:00.000Z" |}.

Definition record2 : TokenRecord :=
  {| accessToken := Some "tok2"; refreshToken := None;
     tokenType := Some "Bearer"; scope := Some "read";
     issuedAt := Some "2026-01-01T00:00:00.000Z";
     expiresAt := None |}.

(** A credentials file that is not JSON. *)
Definition corrupt_laptop : Machine :=
  with_files laptop (<[storageFile file_store := NotJson "invalid-encrypted-data"]> ∅).

(** A [Date] that knows the two timestamps used here. *)
#[local] Instance test_date : TokenManager.JSDate :=
  {| TokenManager.Date_getTime s :=
       if String.eqb s "2026-01-01T00:00:00.000Z" then Some 1767225600000%Z
       else if String.eqb s "2026-12-31T00:00:00.000Z" then Some 1798675200000%Z
       else None;
     TokenManager.Date_toISOString ms :=
       if (ms =? 1767225600000)%Z then Some "2026-01-01T00:00:00.000Z"
       else if (ms =? 1798675200000)%Z then Some "2026-12-31T00:00:00.000Z"
       else None;
     TokenManager.Date_getTime_empty := eq_refl |}.

Definition options : TokenManager.Options :=
  {| TokenManager.opt_clientId := "test-client-id";
     TokenManager.opt_clientSecret := None;
     TokenManager.opt_scopes := Some ["read"; "write"];
     TokenManager.opt_tokenEndpoint := "https://auth.example.com/token";
     TokenManager.opt_refreshEndpoint := None;
     TokenManager.opt_refreshThreshold := None |}.

(** [new TokenManager('acme', options)] with file storage. *)
Definition acme : TokenManager.TokenManager :=
  TokenManager.new "acme" options false laptop.

(** The laptop with [record1] stored for the provider [acme]. *)
Definition laptop1 : Machine :=
  set file_store iv16 laptop (TokenManager._getServiceName acme) record1.

(** One pending reply, then a denial. *)
Definition pending_then_denied (attempt : nat) : DeviceCodeFlow.Reply :=
  match attempt with
  | O => DeviceCodeFlow.error_body "authorization_pending"
  | S _ => DeviceCodeFlow.error_body "access_denied"
  end.

(** The body of a successful token reply. *)
Definition success_body : DeviceCodeFlow.Reply :=
  DeviceCodeFlow.Body
    {| DeviceCodeFlow.error := None;
       DeviceCodeFlow.error_description := None;
       DeviceCodeFlow.access_token := Some "test-access-token";
       DeviceCodeFlow.refresh_token := Some "test-refresh-token";
       DeviceCodeFlow.expires_in := Some 3600%Z;
       DeviceCodeFlow.token_type := Some "Bearer";
       DeviceCodeFlow.scope := Some "read write" |}.

(** One reply with the given error code, then success. *)
Definition error_then_success (e : string) (attempt : nat) : DeviceCodeFlow.Reply :=
  match attempt with
  | O => DeviceCodeFlow.error_body e
  | S _ => success_body
  end.

(** The laptop under another host name, with the same files. *)
Definition other_host : Machine :=
  {| require_defined := true;
     hostname := "desktop"; homedir := homedir laptop1;
     files := files laptop1; keytar := keytar laptop1 |}.

(** The TLS layer refuses the provider's certificate on every attempt. *)
Definition certificate_expired (attempt : nat) : DeviceCodeFlow.Reply :=
  DeviceCodeFlow.Threw "certificate has expired".

(** The double quote, character 34. *)
Definition quote : string :=
  String (Ascii.Ascii false true false false false true false false) "".

(** A gateway in front of the provider answers with the plain text
    [Access denied]; [response.json()] rejects with the SyntaxError of
    [JSON.parse], whose message quotes the text. *)
Definition not_valid_json : string :=
  "Unexpected token 'A', " +:+ quote +:+ "Access denied" +:+ quote +:+
  " is not valid JSON".

Definition gateway_page (attempt : nat) : DeviceCodeFlow.Reply :=
  DeviceCodeFlow.Threw not_valid_json.

(** New Year 2026, and a moment in 2027. *)
Definition new_year : TokenManager.Env :=
  {| TokenManager.now := 1767225600000; TokenManager.iv := iv16 |}.

Definition in_2027 : TokenManager.Env :=
  {| TokenManager.now := 1800000000000; TokenManager.iv := iv16 |}.

(** [{access_token: 'tok2', expires_in: 3600}] as [storeTokens] reads
    it: none of the properties it looks for is there. *)
Definition snake_case_body : DeviceCodeFlow.Tokens :=
  {| DeviceCodeFlow.accessToken := None; DeviceCodeFlow.refreshToken := None;
     DeviceCodeFlow.expiresIn := None; DeviceCodeFlow.tokenType := None;
     DeviceCodeFlow.tokens_scope := None |}.

(** Two calls of [refreshToken()] before anything else happens. *)
Definition two_calls : list TokenManager.Label :=
  [TokenManager.Call 0; TokenManager.Call 1].

(** The two calls, then the refresh runs to its end, then both callers
    go on. *)
Definition two_calls_served : list TokenManager.Label :=
  two_calls ++
  [ TokenManager.Resume 0 new_year TokenManager.Tick;
    TokenManager.Resume 0 new_year
      (TokenManager.FetchSettled (TokenManager.Response true 200 "OK"));
    TokenManager.Resume 0 new_year
      (TokenManager.JsonSettled (TokenManager.JsonBody snake_case_body));
    TokenManager.Resume 0 new_year TokenManager.Tick;
    TokenManager.Wake 0;
    TokenManager.Wake 1 ].

(** Every attempt is answered with [authorization_pending]. *)
Definition always_pending (attempt : nat) : DeviceCodeFlow.Reply :=
  DeviceCodeFlow.error_body "authorization_pending".

(** A device-authorization reply without [verification_uri_complete]
    and without [interval]. *)
Definition device_authorization : DeviceCodeFlow.DeviceAuthorization :=
  {| DeviceCodeFlow.device_code := Some "device-123";
     DeviceCodeFlow.user_code := Some "ABCD-EFGH";
     DeviceCodeFlow.verification_uri := Some "https://github.com/login/device";
     DeviceCodeFlow.verification_uri_complete := None;
     DeviceCodeFlow.device_expires_in := Some 900%Z;
     DeviceCodeFlow.device_interval := None |}.

(** An [onUserCode] callback that fails. *)
Definition broken_display (url code : option string) : Outcome unit :=
  Rejected "cannot open display".

(** Tokens that, stored at New Year 2026, expire on 31 December 2026. *)
Definition year_tokens : DeviceCodeFlow.Tokens :=
  {| DeviceCodeFlow.accessToken := Some "tok1";
     DeviceCodeFlow.refreshToken := Some "ref1";
     DeviceCodeFlow.expiresIn := Some 31449600%Z;
     DeviceCodeFlow.tokenType := None;
     DeviceCodeFlow.tokens_scope := None |}.

(** The laptop with [record2], which has no expiry, stored for [acme]. *)
Definition laptop2 : Machine :=
  set file_store iv16 laptop (TokenManager._getServiceName acme) record2.

(** A token response as the endpoint sends it. *)
Definition token_response : DeviceCodeFlow.TokenResponse :=
  {| DeviceCodeFlow.error := None;
     DeviceCodeFlow.error_description := None;
     DeviceCodeFlow.access_token := Some "tok2";
     DeviceCodeFlow.refresh_token := Some "ref2";
     DeviceCodeFlow.expires_in := Some 3600%Z;
     DeviceCodeFlow.token_type := Some "Bearer";
     DeviceCodeFlow.scope := Some "read" |}.

(** The machine of [laptop1], credentials file included, with the
    program as node runs it. *)
Definition node_laptop1 : Machine :=
  {| require_defined := false;
     hostname := hostname laptop1; homedir := homedir laptop1;
     files := files laptop1; keytar := keytar laptop1 |}.

(** A record without access token and without expiry, as [storeTokens]
    writes it for tokens that have neither. *)
Definition record3 : TokenRecord :=
  {| accessToken := None; refreshToken := None;
     tokenType := Some "Bearer"; scope := Some "read write";
     issuedAt := Some "2026-01-01T00:00:00.000Z";
     expiresAt := None |}.

Definition laptop3 : Machine :=
  set file_store iv16 laptop (TokenManager._getServiceName acme) record3.



End Examples.
(* ===================================================================== *)
(** * Properties *)
(* ===================================================================== *)

(** ** Strings *)

Lemma prefix_append (p s : string) : String.prefix p (p +:+ s) = true.
Proof.
  induction p as [|c p IH]; simpl.
  - by destruct s.
  - destruct (Ascii.ascii_dec c c); [exact IH | congruence].
Qed.

Lemma includes_append_l (p s : string) : includes (p +:+ s) p = true.
Proof.
  pose proof (prefix_append p s) as Hp.
  destruct (p +:+ s); cbn [includes]; by rewrite Hp.
Qed.

Lemma or_null_truthy (o : option string) (s : string) :
  or_null o = Some s → o = Some s ∧ truthy s = true.
Proof.
  destruct o as [t|]; simpl; [|discriminate].
  destruct (truthy t) eqn:E; [|discriminate].
  intros [= <-]. done.
Qed.

(** ** DeviceCodeFlow.pollForToken *)

Section Polling.

Import DeviceCodeFlow.

Variable pollInterval : Z.
Variable replies : nat → Reply.

Lemma fetches_app (a b : list Effect) :
  fetches (a ++ b) = (fetches a + fetches b)%nat.
Proof. unfold fetches. by rewrite List.filter_app, length_app. Qed.

(** Every iteration sends exactly one request. *)
Lemma iteration_fetches (attempt : nat) (reply : Reply) :
  fetches (iteration pollInterval attempt reply).2 = 1%nat.
Proof.
  unfold iteration, try_block, catch_clause.
  destruct reply as [message|data].
  - destruct (rethrown message); reflexivity.
  - repeat case_match; simplify_eq; reflexivity.
Qed.

(** Every iteration begins by sleeping and sending its request. *)
Lemma iteration_begins (attempt : nat) (reply : Reply) :
  ∃ tail, (iteration pollInterval attempt reply).2 =
          Sleep pollInterval :: Fetch attempt :: tail.
Proof.
  unfold iteration.
  destruct (try_block pollInterval reply) as [[| |tokens|message] eff];
    [eauto..|].
  destruct (catch_clause attempt message); eauto.
Qed.

(** The loop never sends more requests than it has iterations left. *)
Lemma poll_loop_fetches (remaining attempt : nat) :
  (fetches (poll_loop pollInterval replies remaining attempt).2 ≤ remaining)%nat.
Proof.
  revert attempt. induction remaining as [|n IH]; intros attempt; simpl.
  - done.
  - pose proof (iteration_fetches attempt (replies attempt)) as Hone.
    destruct (iteration pollInterval attempt (replies attempt)) as [c eff].
    simpl in Hone.
    specialize (IH (S attempt)).
    destruct (poll_loop pollInterval replies n (S attempt)) as [o rest].
    destruct c; simpl in *; rewrite ?fetches_app; lia.
Qed.

(** While the replies let the loop go on, it goes on: after [k] such
    attempts, [k] requests have been sent and the loop is at attempt
    [attempt + k]. *)
Lemma poll_loop_goes_on (k remaining attempt : nat) :
  (∀ j, (j < k)%nat →
        goes_on pollInterval (attempt + j) (replies (attempt + j)) = true) →
  ∃ pre,
    fetches pre = k ∧
    poll_loop pollInterval replies (k + remaining) attempt =
      ((poll_loop pollInterval replies remaining (attempt + k)).1,
       pre ++ (poll_loop pollInterval replies remaining (attempt + k)).2).
Proof.
  revert attempt. induction k as [|k IH]; intros attempt Hgo.
  - exists []. split; [done|]. rewrite Nat.add_0_r. simpl.
    by destruct (poll_loop _ _ _ _).
  - destruct (IH (S attempt)) as (pre & Hpre & Heq).
    { intros j Hj. replace (S attempt + j)%nat with (attempt + S j)%nat by lia.
      apply Hgo. lia. }
    pose proof (Hgo 0%nat ltac:(lia)) as H0. rewrite Nat.add_0_r in H0.
    pose proof (iteration_fetches attempt (replies attempt)) as Hone.
    unfold goes_on in H0.
    change (S k + remaining)%nat with (S (k + remaining)). cbn [poll_loop].
    destruct (iteration pollInterval attempt (replies attempt)) as [c eff].
    simpl in H0, Hone.
    exists (eff ++ pre). split; [rewrite fetches_app; lia|].
    rewrite Heq. replace (S attempt + k)%nat with (attempt + S k)%nat by lia.
    destruct c; try discriminate; simpl; by rewrite app_assoc.
Qed.

(** The run up to attempt [k], when every earlier reply lets the loop
    go on: [k] requests, then the iteration of attempt [k], then the
    rest of the loop. *)
Lemma poll_loop_reaches (k : nat) :
  (k < maxAttempts)%nat →
  (∀ j, (j < k)%nat → goes_on pollInterval j (replies j) = true) →
  ∃ pre,
    fetches pre = k ∧
    poll_loop pollInterval replies maxAttempts 0 =
      let '(c, eff) := iteration pollInterval k (replies k) in
      match c with
      | Return tokens => (Resolved tokens, pre ++ eff)
      | Throw message => (Rejected message, pre ++ eff)
      | Normal | Continue =>
        ((poll_loop pollInterval replies (maxAttempts - S k) (S k)).1,
         pre ++ eff ++
         (poll_loop pollInterval replies (maxAttempts - S k) (S k)).2)
      end.
Proof.
  intros Hk Hgo.
  destruct (poll_loop_goes_on k (maxAttempts - k) 0 Hgo) as (pre & Hpre & Heq).
  exists pre. split; [done|].
  replace (k + (maxAttempts - k))%nat with maxAttempts in Heq by lia.
  rewrite Heq. simpl (0 + k)%nat.
  replace (maxAttempts - k)%nat with (S (maxAttempts - S k)) by lia.
  cbn [poll_loop].
  destruct (iteration pollInterval k (replies k)) as [c eff].
  destruct (poll_loop pollInterval replies (maxAttempts - S k) (S k)) as [o rest].
  by destruct c.
Qed.

(** An exception is swallowed exactly when its message carries none of
    the three markers. *)
Lemma exception_goes_on (attempt : nat) (message : string) :
  goes_on pollInterval attempt (Threw message) = negb (rethrown message).
Proof.
  unfold goes_on, iteration, try_block, catch_clause.
  by destruct (rethrown message).
Qed.

End Polling.

(** At most [maxAttempts] requests are sent, whatever the replies. *)
Lemma pollForToken_bounded (interval : Z) (replies : nat → DeviceCodeFlow.Reply) :
  (DeviceCodeFlow.fetches (DeviceCodeFlow.pollForToken interval replies).2
   ≤ DeviceCodeFlow.maxAttempts)%nat.
Proof. apply poll_loop_fetches. Qed.

(** If no attempt ends the loop, [maxAttempts] requests are sent and the
    run fails with the timeout error. *)
Lemma pollForToken_timeout (interval : Z) (replies : nat → DeviceCodeFlow.Reply) :
  (∀ j, (j < DeviceCodeFlow.maxAttempts)%nat →
        DeviceCodeFlow.goes_on (interval * 1000) j (replies j) = true) →
  (DeviceCodeFlow.pollForToken interval replies).1 =
    Rejected "Authorization timeout. Please try again." ∧
  DeviceCodeFlow.fetches (DeviceCodeFlow.pollForToken interval replies).2 =
    DeviceCodeFlow.maxAttempts.
Proof.
  intros Hgo.
  destruct (poll_loop_goes_on (interval * 1000) replies
              DeviceCodeFlow.maxAttempts 0 0 Hgo) as (pre & Hpre & Heq).
  rewrite Nat.add_0_r in Heq.
  unfold DeviceCodeFlow.pollForToken. rewrite Heq.
  cbn [DeviceCodeFlow.poll_loop fst snd]. by rewrite app_nil_r.
Qed.

(** The iteration of an attempt, for the three error codes. *)
Lemma iteration_access_denied (pollInterval : Z) (k : nat)
    (data : DeviceCodeFlow.TokenResponse) :
  DeviceCodeFlow.error data = Some "access_denied" →
  DeviceCodeFlow.iteration pollInterval k (DeviceCodeFlow.Body data) =
    (DeviceCodeFlow.Throw "User denied authorization.",
     [DeviceCodeFlow.Sleep pollInterval; DeviceCodeFlow.Fetch k]).
Proof.
  intros H. unfold DeviceCodeFlow.iteration, DeviceCodeFlow.try_block.
  rewrite H. reflexivity.
Qed.

Lemma iteration_expired_token (pollInterval : Z) (k : nat)
    (data : DeviceCodeFlow.TokenResponse) :
  DeviceCodeFlow.error data = Some "expired_token" →
  DeviceCodeFlow.iteration pollInterval k (DeviceCodeFlow.Body data) =
    (DeviceCodeFlow.Throw "Device code expired. Please try again.",
     [DeviceCodeFlow.Sleep pollInterval; DeviceCodeFlow.Fetch k]).
Proof.
  intros H. unfold DeviceCodeFlow.iteration, DeviceCodeFlow.try_block.
  rewrite H. reflexivity.
Qed.

Lemma iteration_authorization_pending (pollInterval : Z) (k : nat)
    (data : DeviceCodeFlow.TokenResponse) :
  DeviceCodeFlow.error data = Some "authorization_pending" →
  DeviceCodeFlow.iteration pollInterval k (DeviceCodeFlow.Body data) =
    (DeviceCodeFlow.Continue,
     [DeviceCodeFlow.Sleep pollInterval; DeviceCodeFlow.Fetch k]).
Proof.
  intros H. unfold DeviceCodeFlow.iteration, DeviceCodeFlow.try_block.
  rewrite H. reflexivity.
Qed.

(** Any other error code ends the run with a generic error that names it. *)
Lemma iteration_other_error (pollInterval : Z) (k : nat)
    (data : DeviceCodeFlow.TokenResponse) (e : string) :
  DeviceCodeFlow.error data = Some e →
  truthy e = true →
  e ≠ "authorization_pending" → e ≠ "slow_down" →
  e ≠ "expired_token" → e ≠ "access_denied" →
  DeviceCodeFlow.iteration pollInterval k (DeviceCodeFlow.Body data) =
    (DeviceCodeFlow.Throw
       ("Authorization error: " +:+ e +:+ " - " +:+
        or_default (DeviceCodeFlow.error_description data) ""),
     [DeviceCodeFlow.Sleep pollInterval; DeviceCodeFlow.Fetch k]).
Proof.
  intros He Ht H1 H2 H3 H4.
  unfold DeviceCodeFlow.iteration, DeviceCodeFlow.try_block.
  rewrite He. cbn [truthy_opt default id]. rewrite Ht.
  apply String.eqb_neq in H1, H2, H3, H4. rewrite H1, H2, H3, H4.
  unfold DeviceCodeFlow.catch_clause, DeviceCodeFlow.rethrown.
  pose proof (includes_append_l "Authorization error"
                (": " +:+ e +:+ " - " +:+
                 or_default (DeviceCodeFlow.error_description data) "")) as Hinc.
  change ("Authorization error: " +:+ e +:+ " - " +:+
          or_default (DeviceCodeFlow.error_description data) "")
    with ("Authorization error" +:+ ": " +:+ e +:+ " - " +:+
          or_default (DeviceCodeFlow.error_description data) "").
  by rewrite Hinc.
Qed.

(** C4. Every reply before attempt [k] letting the loop go on: if the
    body of reply [k] has [error] equal to [access_denied], the run
    fails with "User denied authorization.", a message that contains
    "denied", and the request of attempt [k] is the last effect, after
    the [k] earlier requests; if it is [expired_token], the run fails
    in the same way with "Device code expired. Please try again."; if
    it is [authorization_pending], the loop goes on, and while attempts
    are left the next request is sent. *)
Theorem pollForToken_error_codes
    (interval : Z) (replies : nat → DeviceCodeFlow.Reply) (k : nat)
    (data : DeviceCodeFlow.TokenResponse) :
  (k < DeviceCodeFlow.maxAttempts)%nat →
  (∀ j, (j < k)%nat →
        DeviceCodeFlow.goes_on (interval * 1000) j (replies j) = true) →
  replies k = DeviceCodeFlow.Body data →
  let run := DeviceCodeFlow.pollForToken interval replies in
  (DeviceCodeFlow.error data = Some "access_denied" →
     run.1 = Rejected "User denied authorization." ∧
     includes "User denied authorization." "denied" = true ∧
     ∃ pre, DeviceCodeFlow.fetches pre = k ∧
            run.2 = pre ++ [DeviceCodeFlow.Sleep (interval * 1000);
                            DeviceCodeFlow.Fetch k]) ∧
  (DeviceCodeFlow.error data = Some "expired_token" →
     run.1 = Rejected "Device code expired. Please try again." ∧
     ∃ pre, DeviceCodeFlow.fetches pre = k ∧
            run.2 = pre ++ [DeviceCodeFlow.Sleep (interval * 1000);
                            DeviceCodeFlow.Fetch k]) ∧
  (DeviceCodeFlow.error data = Some "authorization_pending" →
     DeviceCodeFlow.goes_on (interval * 1000) k (replies k) = true ∧
     ((S k < DeviceCodeFlow.maxAttempts)%nat →
      (k + 2 ≤ DeviceCodeFlow.fetches run.2)%nat ∧
      In (DeviceCodeFlow.Fetch (S k)) run.2)).
Proof.
  intros Hk Hgo Hreply run.
  destruct (poll_loop_reaches (interval * 1000) replies k Hk Hgo)
    as (pre & Hpre & Heq).
  subst run. unfold DeviceCodeFlow.pollForToken. rewrite Heq, Hreply.
  split; [|split].
  - intros He. rewrite (iteration_access_denied _ _ _ He).
    split; [reflexivity|]. split; [reflexivity|]. eauto.
  - intros He. rewrite (iteration_expired_token _ _ _ He).
    split; [reflexivity|]. eauto.
  - intros He. unfold DeviceCodeFlow.goes_on.
    rewrite (iteration_authorization_pending _ _ _ He).
    split; [reflexivity|]. intros Hnext.
    replace (DeviceCodeFlow.maxAttempts - S k)%nat
      with (S (DeviceCodeFlow.maxAttempts - S (S k))) by lia.
    cbn [DeviceCodeFlow.poll_loop].
    destruct (iteration_begins (interval * 1000) (S k) (replies (S k)))
      as (tail & Htail).
    destruct (DeviceCodeFlow.iteration _ (S k) _) as [c eff].
    destruct (DeviceCodeFlow.poll_loop _ _ _ (S (S k))) as [o rest].
    simpl in Htail. subst eff.
    assert (∀ l, k + 2 ≤ DeviceCodeFlow.fetches
                   (pre ++ [DeviceCodeFlow.Sleep (interval * 1000);
                            DeviceCodeFlow.Fetch k] ++
                    (DeviceCodeFlow.Sleep (interval * 1000) ::
                     DeviceCodeFlow.Fetch (S k) :: l)))%nat as Hcount.
    { intros l. rewrite !fetches_app, Hpre.
      unfold DeviceCodeFlow.fetches. simpl. lia. }
    destruct c; simpl; (split; [apply Hcount|]);
      rewrite !in_app_iff; simpl; tauto.
Qed.

(** ** CredentialStore *)

Section Store.

Import CredentialStore.

Lemma Buffer_from_hex_byte (b : Byte.byte) (rest : string) :
  Buffer_from_hex (byte_toString_hex b +:+ rest) = b :: Buffer_from_hex rest.
Proof. destruct b; reflexivity. Qed.

(** Hexadecimal text decodes to the bytes it was made from. *)
Lemma Buffer_from_hex_toString_hex (bytes : list Byte.byte) :
  Buffer_from_hex (toString_hex bytes) = bytes.
Proof.
  induction bytes as [|b bytes IH]; [reflexivity|].
  cbn [toString_hex]. by rewrite Buffer_from_hex_byte, IH.
Qed.

(** Where [require] is not defined, nothing is encrypted or decrypted. *)
Lemma _encrypt_undefined (w : Machine) (iv : list Byte.byte) (data : Credentials) :
  require_defined w = false → _encrypt w iv data = None.
Proof. intros Hr. unfold _encrypt, _getEncryptionKey. by rewrite Hr. Qed.

Lemma _decrypt_undefined (w : Machine) (encrypted : EncryptedBlob) :
  require_defined w = false → _decrypt w encrypted = None.
Proof. intros Hr. unfold _decrypt, _getEncryptionKey. by rewrite Hr. Qed.

Lemma read_all_undefined (w : Machine) (content : Json EncryptedBlob) :
  require_defined w = false → read_all w content = None.
Proof.
  intros Hr. unfold read_all.
  destruct (JSON_parse content) as [encrypted|]; [|done].
  by apply _decrypt_undefined.
Qed.


(** Where [require] is defined, [_encrypt] returns. *)
Lemma _encrypt_defined (w : Machine) (iv : list Byte.byte) (data : Credentials) :
  require_defined w = true → ∃ encrypted, _encrypt w iv data = Some encrypted.
Proof. intros Hr. unfold _encrypt, _getEncryptionKey. rewrite Hr. by eexists. Qed.

(** On one machine, [_decrypt] undoes [_encrypt]. *)
Lemma decrypt_encrypt (w : Machine) (iv : list Byte.byte) (data : Credentials)
    (encrypted : EncryptedBlob) :
  _encrypt w iv data = Some encrypted → _decrypt w encrypted = Some data.
Proof.
  unfold _decrypt, _encrypt, _getEncryptionKey, createCipheriv_update_final.
  destruct (require_defined w); [|done]. cbn. intros [= <-]. cbn.
  rewrite Buffer_from_hex_toString_hex.
  by rewrite decide_True.
Qed.

Lemma read_all_written (w : Machine) (iv : list Byte.byte) (data : Credentials)
    (encrypted : EncryptedBlob) :
  _encrypt w iv data = Some encrypted →
  read_all w (JSON_stringify encrypted) = Some data.
Proof. intros He. unfold read_all. cbn. by apply (decrypt_encrypt w iv). Qed.

(** Writing files changes neither the key nor the keychain. *)
Lemma read_all_with_files (w : Machine) fs (content : Json EncryptedBlob) :
  read_all (with_files w fs) content = read_all w content.
Proof. reflexivity. Qed.

(** What [_setInFile] assigns to is what [existing] reads. *)
Lemma _setInFile_call_existing (cs : CredentialStore) (iv : list Byte.byte)
    (w : Machine) (service : string) (data : TokenRecord) :
  _setInFile_call cs iv w service data =
    match _encrypt w iv (assign (existing cs w) service data) with
    | None => (Rejected require_is_not_defined, w)
    | Some encrypted =>
      (Resolved (),
       with_files w (<[storageFile cs := JSON_stringify encrypted]> (files w)))
    end.
Proof.
  unfold _setInFile_call, existing.
  destruct (files w !! storageFile cs) as [content|]; [|done].
  by destruct (read_all w content).
Qed.

(** Where [require] is not defined, [_setInFile] rejects with the
    ReferenceError and writes nothing, whatever the file holds. *)
Lemma _setInFile_call_undefined (cs : CredentialStore) (iv : list Byte.byte)
    (w : Machine) (service : string) (data : TokenRecord) :
  require_defined w = false →
  _setInFile_call cs iv w service data = (Rejected require_is_not_defined, w).
Proof.
  intros Hr. rewrite _setInFile_call_existing.
  by rewrite _encrypt_undefined.
Qed.

(** Where [require] is defined, [_setInFile] resolves; after it the
    file holds the old content with the assignment made, whoever reads
    it on this machine. *)
Lemma _setInFile_content (cs : CredentialStore) (iv : list Byte.byte)
    (w : Machine) (service : string) (data : TokenRecord) :
  require_defined w = true →
  (_setInFile_call cs iv w service data).1 = Resolved () ∧
  ∃ content,
    files (_setInFile cs iv w service data) !! storageFile cs = Some content ∧
    read_all (_setInFile cs iv w service data) content =
      Some (assign (existing cs w) service data).
Proof.
  intros Hr. unfold _setInFile. rewrite _setInFile_call_existing.
  destruct (_encrypt_defined w iv (assign (existing cs w) service data) Hr)
    as [encrypted He].
  rewrite He. cbn. split; [done|].
  eexists. split; [apply lookup_insert_eq|].
  rewrite read_all_with_files. by apply (read_all_written w iv).
Qed.

Lemma assign_lookup_same (allData : Credentials) (service : string)
    (data : TokenRecord) :
  service ≠ "__proto__" → assign allData service data !! service = Some data.
Proof.
  intros Hs. unfold assign.
  rewrite (bool_decide_eq_false_2 _ Hs). cbn. apply lookup_insert_eq.
Qed.

Lemma assign_lookup_other (allData : Credentials) (service other : string)
    (data : TokenRecord) :
  other ≠ service → assign allData service data !! other = allData !! other.
Proof.
  intros Hs. unfold assign.
  destruct (_ && _); [done|]. by rewrite lookup_insert_ne.
Qed.

(** [_getFromFile] in terms of the content that is read. *)
Lemma _getFromFile_readable (cs : CredentialStore) (w : Machine)
    (content : Json EncryptedBlob) (allData : Credentials) (service : string) :
  files w !! storageFile cs = Some content →
  read_all w content = Some allData →
  _getFromFile cs w service = property_or_null allData service.
Proof. intros Hf Hr. unfold _getFromFile. by rewrite Hf, Hr. Qed.

(** Round trip through the file where [require] is defined, for every
    service name but ["__proto__"]: whatever the file held, and
    whichever store object at the same path reads it back. *)
Lemma file_round_trip (cs cs' : CredentialStore) (iv : list Byte.byte)
    (w : Machine) (service : string) (data : TokenRecord) :
  require_defined w = true →
  storageFile cs' = storageFile cs →
  service ≠ "__proto__" →
  _getFromFile cs' (_setInFile cs iv w service data) service = Credential data.
Proof.
  intros Hreq Hpath Hs.
  destruct (_setInFile_content cs iv w service data Hreq)
    as (_ & content & Hf & Hr).
  rewrite <- Hpath in Hf.
  rewrite (_getFromFile_readable _ _ _ _ _ Hf Hr).
  unfold property_or_null. by rewrite assign_lookup_same.
Qed.



End Store.

Section StoreCalls.

Import CredentialStore.

Lemma keytar_reached_undefined (cs : CredentialStore) (w : Machine) :
  require_defined w = false → keytar_reached cs w = false.
Proof. intros Hr. unfold keytar_reached. rewrite Hr. apply andb_false_r. Qed.

Lemma keytar_reached_defined (cs : CredentialStore) (w : Machine) :
  require_defined w = true → keytar_reached cs w = keytarAvailable cs.
Proof. intros Hr. unfold keytar_reached. rewrite Hr. apply andb_true_r. Qed.

(** Where [require] is not defined, [get] resolves to null for every
    service, whatever the file and the keychain hold: the keychain is
    not reached and no file is decrypted. *)
Lemma get_undefined (cs : CredentialStore) (w : Machine) (service : string) :
  require_defined w = false → get cs w service = Null.
Proof.
  intros Hr. unfold get. rewrite (keytar_reached_undefined cs w Hr).
  unfold _getFromFile.
  destruct (files w !! storageFile cs) as [content|]; [|done].
  by rewrite (read_all_undefined w content Hr).
Qed.

(** Where [require] is not defined, [set] rejects with the
    ReferenceError and leaves the machine as it was. *)
Lemma set_call_undefined (cs : CredentialStore) (iv : list Byte.byte)
    (w : Machine) (service : string) (data : TokenRecord) :
  require_defined w = false →
  set_call cs iv w service data = (Rejected require_is_not_defined, w).
Proof.
  intros Hr. unfold set_call. rewrite (keytar_reached_undefined cs w Hr). cbn.
  by apply _setInFile_call_undefined.
Qed.

(** Where [require] is not defined, [delete] deletes nothing. *)
Lemma delete_undefined (cs : CredentialStore) (iv : list Byte.byte)
    (w : Machine) (service : string) :
  require_defined w = false → delete_ cs iv w service = w.
Proof.
  intros Hr. unfold delete_. rewrite (keytar_reached_undefined cs w Hr). cbn.
  unfold _deleteFromFile.
  destruct (files w !! storageFile cs) as [content|]; [|done].
  by rewrite (read_all_undefined w content Hr).
Qed.

(** Where [require] is defined, [set] resolves. *)
Lemma set_call_defined (cs : CredentialStore) (iv : list Byte.byte)
    (w : Machine) (service : string) (data : TokenRecord) :
  require_defined w = true →
  set_call cs iv w service data = (Resolved (), set cs iv w service data).
Proof.
  intros Hr. unfold set, set_call.
  destruct (keytar_reached cs w && _); [done|].
  destruct (_setInFile_content cs iv w service data Hr) as [Hres _].
  destruct (_setInFile_call cs iv w service data) as [o w']. cbn in *.
  by rewrite Hres.
Qed.

(** [set] when the keychain is not reached or refuses the write. *)
Lemma set_file_mode (cs : CredentialStore) (iv : list Byte.byte)
    (w : Machine) (service : string) (data : TokenRecord) :
  keytar_reached cs w && negb (setPassword_throws (keytar w)) = false →
  set cs iv w service data = _setInFile cs iv w service data.
Proof. intros Hk. unfold set, set_call. by rewrite Hk. Qed.

(** [set] when the keychain takes the write. *)
Lemma set_keytar_mode (cs : CredentialStore) (iv : list Byte.byte)
    (w : Machine) (service : string) (data : TokenRecord) :
  keytar_reached cs w && negb (setPassword_throws (keytar w)) = true →
  set cs iv w service data =
    with_passwords w
      (<[service := JSON_stringify (RecordValue data)]> (passwords (keytar w))).
Proof. intros Hk. unfold set, set_call. by rewrite Hk. Qed.

(** No call of the store changes whether [require] is defined. *)
Lemma require_defined_setInFile (cs : CredentialStore) (iv : list Byte.byte)
    (w : Machine) (service : string) (data : TokenRecord) :
  require_defined (_setInFile cs iv w service data) = require_defined w.
Proof.
  unfold _setInFile. rewrite _setInFile_call_existing.
  by destruct (_encrypt _ _ _).
Qed.

Lemma require_defined_set (cs : CredentialStore) (iv : list Byte.byte)
    (w : Machine) (service : string) (data : TokenRecord) :
  require_defined (set cs iv w service data) = require_defined w.
Proof.
  unfold set, set_call.
  destruct (keytar_reached cs w && _); [done|].
  apply require_defined_setInFile.
Qed.

Lemma require_defined_deleteFromFile (cs : CredentialStore)
    (iv : list Byte.byte) (w : Machine) (service : string) :
  require_defined (_deleteFromFile cs iv w service) = require_defined w.
Proof.
  unfold _deleteFromFile.
  destruct (files w !! storageFile cs) as [content|]; [|done].
  destruct (read_all w content); [|done].
  by destruct (_encrypt _ _ _).
Qed.

Lemma require_defined_delete (cs : CredentialStore) (iv : list Byte.byte)
    (w : Machine) (service : string) :
  require_defined (delete_ cs iv w service) = require_defined w.
Proof.
  unfold delete_. rewrite require_defined_deleteFromFile.
  by destruct (keytar_reached cs w && _).
Qed.

End StoreCalls.

(** Round trip through [set] and [get] where [require] is defined and
    [keytar] is not installed, for every service name but
    ["__proto__"]; [cs'] may be a store object made later for the same
    file. *)
Lemma set_get_file_mode (cs cs' : CredentialStore.CredentialStore)
    (iv : list Byte.byte) (w : CredentialStore.Machine) (service : string)
    (data : CredentialStore.TokenRecord) :
  CredentialStore.require_defined w = true →
  CredentialStore.keytarAvailable cs = false →
  CredentialStore.keytarAvailable cs' = false →
  CredentialStore.storageFile cs' = CredentialStore.storageFile cs →
  service ≠ "__proto__" →
  CredentialStore.get cs' (CredentialStore.set cs iv w service data) service =
    CredentialStore.Credential data.
Proof.
  intros Hr Hk Hk' Hpath Hs.
  rewrite set_file_mode
    by (unfold CredentialStore.keytar_reached; by rewrite Hk).
  unfold CredentialStore.get, CredentialStore.keytar_reached.
  rewrite Hk'. cbn. by apply file_round_trip.
Qed.

(** Round trip through the keychain, where [require] is defined and
    the calls of [keytar] do not throw. *)
Lemma set_get_keytar_mode (cs cs' : CredentialStore.CredentialStore)
    (iv : list Byte.byte) (w : CredentialStore.Machine) (service : string)
    (data : CredentialStore.TokenRecord) :
  CredentialStore.require_defined w = true →
  CredentialStore.keytarAvailable cs = true →
  CredentialStore.keytarAvailable cs' = true →
  CredentialStore.setPassword_throws (CredentialStore.keytar w) = false →
  CredentialStore.getPassword_throws (CredentialStore.keytar w) = false →
  CredentialStore.get cs' (CredentialStore.set cs iv w service data) service =
    CredentialStore.Credential data.
Proof.
  intros Hr Hk Hk' Hset Hget.
  rewrite set_keytar_mode
    by (unfold CredentialStore.keytar_reached; by rewrite Hk, Hr, Hset).
  unfold CredentialStore.get, CredentialStore.keytar_reached.
  rewrite Hk'. cbn. rewrite Hr. cbn. rewrite Hget, lookup_insert_eq. reflexivity.
Qed.

(** Where [require] is defined and the keychain is in use, a write that
    [keytar] refuses goes to the file, and the read that follows asks
    the keychain, which has no entry and does not throw: the record is
    not found. *)
Lemma set_get_keytar_write_refused :
  let w := CredentialStore.set Examples.keytar_store Examples.iv16
             Examples.locked_laptop "git-super-acme" Examples.record1 in
  CredentialStore.get Examples.keytar_store w "git-super-acme" =
    CredentialStore.Null ∧
  CredentialStore._getFromFile Examples.keytar_store w "git-super-acme" =
    CredentialStore.Credential Examples.record1.
Proof. vm_compute. repeat split. Qed.

(** Where [require] is defined, the service name ["__proto__"] does not
    make the round trip through the file: the assignment replaces the
    prototype of [allData] and creates no property, the file holds the
    empty object, and the read finds [Object.prototype]. *)
Lemma set_get_proto_lost :
  let w := CredentialStore.set Examples.file_store Examples.iv16 Examples.laptop
             "__proto__" Examples.record1 in
  CredentialStore.get Examples.file_store w "__proto__" =
    CredentialStore.Inherited "__proto__" ∧
  CredentialStore.get (CredentialStore.new false w) w "__proto__" =
    CredentialStore.Inherited "__proto__" ∧
  CredentialStore.existing Examples.file_store w = ∅.
Proof. vm_compute. repeat split. Qed.

(** C6, in the program as node runs it.  The module calls [require],
    which is not defined in an ES module: for every store object,
    service name and record, [set(s, r)] rejects with the
    ReferenceError [require is not defined] and leaves the file and the
    keychain as they were, and [get(s)] after it, by the same store
    object or by any other, resolves to null: not to a record deep-equal
    to [r]. *)
Theorem set_get_under_node (cs cs' : CredentialStore.CredentialStore)
    (iv : list Byte.byte) (w : CredentialStore.Machine) (s : string)
    (r : CredentialStore.TokenRecord) :
  CredentialStore.require_defined w = false →
  CredentialStore.set_call cs iv w s r =
    (Rejected "require is not defined", w) ∧
  CredentialStore.get cs' (CredentialStore.set cs iv w s r) s =
    CredentialStore.Null ∧
  CredentialStore.get cs' (CredentialStore.set cs iv w s r) s ≠
    CredentialStore.Credential r.
Proof.
  intros Hr.
  assert (CredentialStore.get cs' (CredentialStore.set cs iv w s r) s =
          CredentialStore.Null) as Hnull.
  { apply get_undefined. by rewrite require_defined_set. }
  split; [by apply set_call_undefined|]. split; [done|].
  by rewrite Hnull.
Qed.

(** C9, in the program as node runs it.  File storage, the credentials
    file exists: it does not decrypt, because [_decrypt] calls
    [require]; [set(s, r)] rejects with the ReferenceError that
    [_encrypt] throws outside the [try], and the file is not rewritten:
    it holds what it held. *)
Theorem set_file_under_node (cs : CredentialStore.CredentialStore)
    (iv : list Byte.byte) (w : CredentialStore.Machine) (s : string)
    (r : CredentialStore.TokenRecord)
    (content : CredentialStore.Json CredentialStore.EncryptedBlob) :
  CredentialStore.require_defined w = false →
  CredentialStore.files w !! CredentialStore.storageFile cs = Some content →
  CredentialStore.read_all w content = None ∧
  CredentialStore.set_call cs iv w s r =
    (Rejected "require is not defined", w) ∧
  CredentialStore.files (CredentialStore.set cs iv w s r)
    !! CredentialStore.storageFile cs = Some content.
Proof.
  intros Hr Hf.
  split; [by apply read_all_undefined|].
  split; [by apply set_call_undefined|].
  unfold CredentialStore.set. by rewrite set_call_undefined.
Qed.

(** The frame of a write to the file where [require] is defined, file
    storage, the credentials file exists.  [set(s, r)] resolves.  If
    the file decrypts to [allData], after [set(s, r)] it decrypts to
    [allData] with the assignment made, in which every other service
    has the entry it had, and [get] gives for every other service what
    it gave before.  If it does not decrypt or parse, after [set(s, r)]
    it decrypts to the empty object with the assignment made: a map
    with no key but [s], in which no other service has an entry; it is
    the one-entry map from [s] to [r] for every [s] but ["__proto__"],
    for which the assignment creates no property. *)
Lemma set_file_frame (cs : CredentialStore.CredentialStore)
    (iv : list Byte.byte) (w : CredentialStore.Machine) (s : string)
    (r : CredentialStore.TokenRecord)
    (content : CredentialStore.Json CredentialStore.EncryptedBlob) :
  CredentialStore.require_defined w = true →
  CredentialStore.keytarAvailable cs = false →
  CredentialStore.files w !! CredentialStore.storageFile cs = Some content →
  let w' := CredentialStore.set cs iv w s r in
  CredentialStore.set_call cs iv w s r = (Resolved (), w') ∧
  ∃ content' allData',
    CredentialStore.files w' !! CredentialStore.storageFile cs = Some content' ∧
    CredentialStore.read_all w' content' = Some allData' ∧
    (∀ allData, CredentialStore.read_all w content = Some allData →
       allData' = CredentialStore.assign allData s r ∧
       ∀ other, other ≠ s →
         allData' !! other = allData !! other ∧
         CredentialStore.get cs w' other = CredentialStore.get cs w other) ∧
    (CredentialStore.read_all w content = None →
       allData' = CredentialStore.assign ∅ s r ∧
       dom allData' ⊆ {[ s ]} ∧
       (∀ other, other ≠ s → allData' !! other = None) ∧
       (s ≠ "__proto__" → allData' = {[ s := r ]})).
Proof.
  intros Hreq Hk Hf w'.
  split; [by apply set_call_defined|].
  destruct (_setInFile_content cs iv w s r Hreq) as (_ & content' & Hf' & Hr').
  assert (w' = CredentialStore._setInFile cs iv w s r) as Hw'.
  { subst w'. apply set_file_mode.
    unfold CredentialStore.keytar_reached. by rewrite Hk. }
  rewrite <- Hw' in Hf', Hr'.
  exists content', (CredentialStore.assign (CredentialStore.existing cs w) s r).
  split; [done|]. split; [done|].
  unfold CredentialStore.existing. rewrite Hf.
  split.
  - intros allData Hr. rewrite Hr. cbn. split; [done|].
    intros other Hne. split; [by apply assign_lookup_other|].
    unfold CredentialStore.get, CredentialStore.keytar_reached. rewrite Hk.
    cbn.
    rewrite (_getFromFile_readable _ _ _ _ _ Hf' Hr').
    rewrite (_getFromFile_readable _ _ _ _ _ Hf Hr).
    unfold CredentialStore.existing. rewrite Hf, Hr. cbn.
    unfold CredentialStore.property_or_null.
    by rewrite assign_lookup_other.
  - intros Hr. rewrite Hr. cbn. split; [done|]. split_and!.
    + unfold CredentialStore.assign. destruct (_ && _).
      * rewrite dom_empty_L. apply empty_subseteq.
      * by rewrite dom_insert_L, dom_empty_L, (right_id_L ∅ (∪)).
    + intros other Hne. by rewrite assign_lookup_other.
    + intros Hs. unfold CredentialStore.assign.
      by rewrite (bool_decide_eq_false_2 _ Hs).
Qed.

(** C10, as the claim has it: the string for the keychain backend is
    not ["keychain"]. *)
Theorem getStorageMethod_not_keychain :
  ¬ (∀ cs, CredentialStore.getStorageMethod cs =
           if CredentialStore.keytarAvailable cs then "keychain" else "file").
Proof. intros H. specialize (H Examples.keytar_store). discriminate H. Qed.

(** C10, amended. [getStorageMethod()] returns ["keytar"] when the
    keychain backend is in use, which is when [require('keytar')]
    succeeded in the constructor, and ["file"] otherwise. *)
Theorem getStorageMethod_keytar_or_file :
  (∀ cs, CredentialStore.getStorageMethod cs =
         if CredentialStore.keytarAvailable cs then "keytar" else "file") ∧
  (∀ keytar_loads w,
     CredentialStore.getStorageMethod (CredentialStore.new keytar_loads w) =
     if keytar_loads then "keytar" else "file").
Proof. split; reflexivity. Qed.

(** ** TokenManager: validity, revocation *)

Section Manager.

Import CredentialStore TokenManager.

Context `{JSDate}.

Lemma keytar_deleteFromFile (cs : CredentialStore) (iv : list Byte.byte)
    (w : Machine) (service : string) :
  keytar (_deleteFromFile cs iv w service) = keytar w.
Proof.
  unfold _deleteFromFile.
  destruct (files w !! storageFile cs) as [content|]; [|done].
  destruct (read_all w content); [|done].
  by destruct (_encrypt _ _ _).
Qed.




Lemma getAccessToken_store (tm : TokenManager) (w : Machine) :
  credentialStore (getAccessToken tm w).2 = credentialStore tm ∧
  _getServiceName (getAccessToken tm w).2 = _getServiceName tm.
Proof.
  unfold getAccessToken.
  destruct (truthy_opt (tokenCache tm ≫= accessToken)); [done|].
  destruct (get _ _ _) as [|record| |]; [done| |done|done].
  by destruct (truthy_opt (accessToken record)).
Qed.

(** A token is there when the cache or the stored record has one. *)
Lemma getAccessToken_stored (tm : TokenManager) (w : Machine) (r : TokenRecord) :
  get (credentialStore tm) w (_getServiceName tm) = Credential r →
  truthy_opt (accessToken r) = true →
  truthy_opt (getAccessToken tm w).1 = true.
Proof.
  intros Hget Htok. unfold getAccessToken.
  destruct (truthy_opt (tokenCache tm ≫= accessToken)) eqn:Hc; [done|].
  by rewrite Hget, Htok.
Qed.

Lemma hasValidToken_unfold (env : Env) (tm : TokenManager) (w : Machine) :
  (hasValidToken env tm w).1 =
    if negb (truthy_opt (getAccessToken tm w).1) then false
    else
      match or_null (property (get (credentialStore tm) w (_getServiceName tm))
                              expiresAt) with
      | None => true
      | Some e => number_gt (Date_getTime e) (now env)
      end.
Proof.
  unfold hasValidToken.
  destruct (getAccessToken_store tm w) as [Hcs Hname].
  destruct (getAccessToken tm w) as [token tm']. cbn in *.
  destruct (negb (truthy_opt token)); [done|].
  rewrite Hcs, Hname. by destruct (or_null _).
Qed.

(** A time that [Date] can read is written as a non-empty string. *)
Lemma or_null_date (e : string) (t : Z) :
  Date_getTime e = Some t → or_null (Some e) = Some e.
Proof.
  intros Ht. destruct e; [|done].
  rewrite Date_getTime_empty in Ht. discriminate.
Qed.

(** C5, amended. [stored] being what the credential store holds for the
    provider: if it is a record whose [expiresAt] is a time before now,
    [hasValidToken()] is false; if it is a record with an access token
    and no [expiresAt], [hasValidToken()] is true; if it is a record
    whose [expiresAt] lies more than the refresh threshold after now,
    [needsRefresh()] is false; if neither the cache nor the store holds
    an access token, [hasValidToken()] is false.  A manager made
    without a threshold option has the threshold of five minutes. *)
Theorem token_validity (env : Env) (tm : TokenManager) (w : Machine) :
  let stored := get (credentialStore tm) w (_getServiceName tm) in
  (∀ r e t, stored = Credential r → expiresAt r = Some e →
            Date_getTime e = Some t → (t < now env)%Z →
            (hasValidToken env tm w).1 = false) ∧
  (∀ r, stored = Credential r → truthy_opt (accessToken r) = true →
        expiresAt r = None →
        (hasValidToken env tm w).1 = true) ∧
  (∀ r e t, stored = Credential r → expiresAt r = Some e →
            Date_getTime e = Some t →
            (now env + refreshThreshold tm < t)%Z →
            needsRefresh env tm w = false) ∧
  (truthy_opt (tokenCache tm ≫= accessToken) = false →
   truthy_opt (property stored accessToken) = false →
   (hasValidToken env tm w).1 = false) ∧
  (∀ providerId options keytar_loads m,
     opt_refreshThreshold options = None →
     refreshThreshold (TokenManager.new providerId options keytar_loads m) =
       (5 * 60 * 1000)%Z).
Proof.
  intros stored. subst stored. repeat split.
  - intros r e t Hget He Ht Hpast.
    rewrite hasValidToken_unfold, Hget. cbn. rewrite He.
    destruct (negb _); [done|].
    rewrite (or_null_date e t Ht), Ht. cbn. lia.
  - intros r Hget Htok He.
    rewrite hasValidToken_unfold.
    rewrite (getAccessToken_stored tm w r Hget Htok), Hget.
    cbn. by rewrite He.
  - intros r e t Hget He Ht Hfar.
    unfold needsRefresh. rewrite Hget. cbn. rewrite He.
    rewrite (or_null_date e t Ht), Ht. cbn. lia.
  - intros Hcache Hstored.
    rewrite hasValidToken_unfold. unfold getAccessToken. rewrite Hcache.
    destruct (get _ _ _) as [|record| |]; [done| |done|done].
    cbn in Hstored. by rewrite Hstored.
  - intros providerId options keytar_loads m Hopt. cbn. by rewrite Hopt.
Qed.



End Manager.

(** ** TokenManager.refreshToken *)

Section Refresh.

Import CredentialStore TokenManager.

Context `{JSDate}.

(** A stretch of [_doRefresh] touches the cache only, never the handle. *)
Lemma doRefresh_resume_handle (env : Env) (tm tm' : TokenManager)
    (w w' : Machine) (phase : Phase) (event : Event) (r : Resumption)
    (eff : list Effect) :
  doRefresh_resume env tm w phase event = Some (r, tm', w', eff) →
  refreshPromise tm' = refreshPromise tm.
Proof.
  unfold doRefresh_resume, doRefresh_body.
  intros Hr. repeat case_match; simplify_eq; reflexivity.
Qed.

(** [_doRefresh] never rejects: what is thrown after the first [await]
    is caught, and the stretch before it throws nothing. *)
Lemma doRefresh_resume_resolves (env : Env) (tm tm' : TokenManager)
    (w w' : Machine) (phase : Phase) (event : Event) (o : Outcome bool)
    (eff : list Effect) :
  doRefresh_resume env tm w phase event = Some (Settle o, tm', w', eff) →
  ∃ b, o = Resolved b.
Proof.
  unfold doRefresh_resume, doRefresh_body.
  intros Hr. repeat case_match; simplify_eq; eauto.
Qed.

(** What holds of every state the manager can be in. *)
Record Inv (s : System) : Prop := {
  inv_coroutine : ∀ p phase, coroutines s !! p = Some phase →
    refreshPromise (manager s) = Some p ∧ promises s !! p = Some None;
  inv_pending : ∀ p, promises s !! p = Some None → is_Some (coroutines s !! p);
  inv_owner : ∀ c p, callers s !! c = Some (Owner p) →
    refreshPromise (manager s) = Some p;
  inv_owner_unique : ∀ c c' p p', callers s !! c = Some (Owner p) →
    callers s !! c' = Some (Owner p') → c = c';
  inv_handle : ∀ p, refreshPromise (manager s) = Some p →
    is_Some (promises s !! p) ∧ ∃ c, callers s !! c = Some (Owner p);
  inv_finished : ∀ c p o, callers s !! c = Some (Finished p o) →
    promises s !! p = Some (Some o);
  inv_follower : ∀ c p, callers s !! c = Some (Follower p) →
    is_Some (promises s !! p);
  inv_resolved : ∀ p o, promises s !! p = Some (Some o) → ∃ b, o = Resolved b;
}.

Lemma Inv_idle (tm : TokenManager) (w : Machine) : Inv (idle tm w).
Proof. split; cbn; intros; simplify_map_eq; done. Qed.

Lemma Inv_call (c : nat) (s s' : System) :
  Inv s → refreshToken_call c s = Some s' → Inv s'.
Proof.
  intros [I1 I2 I3 I4 I5 I6 I7 I8] Hcall. unfold refreshToken_call in Hcall.
  destruct (callers s !! c) eqn:Hc; [discriminate|].
  destruct (refreshPromise (manager s)) as [p|] eqn:Hp;
    injection Hcall as <-.
  - (* a refresh is pending: the call returns its promise *)
    split; cbn; rewrite ?Hp.
    + intros q phase Hq. exact (I1 q phase Hq).
    + done.
    + intros c' p' Hc'. destruct (decide (c' = c)) as [->|]; simplify_map_eq.
      eauto.
    + intros c1 c2 p1 p2 H1 H2.
      destruct (decide (c1 = c)) as [->|], (decide (c2 = c)) as [->|];
        simplify_map_eq; eauto.
    + intros p' Hp'.
      destruct (I5 p' Hp') as (Hsome & c0 & Hc0).
      split; [done|]. exists c0. rewrite lookup_insert_ne; [done|congruence].
    + intros c' p' o Hc'. destruct (decide (c' = c)) as [->|]; simplify_map_eq. eauto.
    + intros c' p' Hc'. destruct (decide (c' = c)) as [->|]; simplify_map_eq.
      * by apply I5.
      * eauto.
    + done.
  - (* no refresh is pending: the call starts one *)
    assert (∀ q, coroutines s !! q = None) as Hnone.
    { intros q. destruct (coroutines s !! q) eqn:Hq; [|done].
      destruct (I1 _ _ Hq). congruence. }
    assert (∀ c' p', callers s !! c' ≠ Some (Owner p')) as Hnoowner.
    { intros c' p' Hc'. specialize (I3 _ _ Hc'). congruence. }
    split; cbn.
    + intros q phase Hq. destruct (decide (q = length (promises s))) as [->|].
      * split; [done|]. by rewrite lookup_app_r, Nat.sub_diag.
      * rewrite lookup_insert_ne in Hq by done. by rewrite Hnone in Hq.
    + intros q Hq. destruct (decide (q = length (promises s))) as [->|].
      * rewrite lookup_insert_eq. eauto.
      * rewrite lookup_insert_ne by done. apply I2.
        rewrite lookup_app_l in Hq; [done|].
        apply lookup_lt_Some in Hq. rewrite length_app in Hq. cbn in Hq. lia.
    + intros c' p' Hc'. destruct (decide (c' = c)) as [->|]; simplify_map_eq; [done|].
      by destruct (Hnoowner c' p').
    + intros c1 c2 p1 p2 H1 H2.
      destruct (decide (c1 = c)) as [->|], (decide (c2 = c)) as [->|];
        simplify_map_eq; try done.
      * by destruct (Hnoowner c2 p2).
      * by destruct (Hnoowner c1 p1).
      * by destruct (Hnoowner c1 p1).
    + intros p' [= <-]. split.
      * rewrite lookup_app_r, Nat.sub_diag by done. eauto.
      * exists c. by rewrite lookup_insert_eq.
    + intros c' p' o Hc'. destruct (decide (c' = c)) as [->|]; simplify_map_eq.
      rewrite lookup_app_l; [eauto|]. eapply lookup_lt_Some. eauto.
    + intros c' p' Hc'. destruct (decide (c' = c)) as [->|]; simplify_map_eq.
      destruct (I7 _ _ Hc') as [x Hx].
      rewrite lookup_app_l; [eauto|]. eapply lookup_lt_Some. eauto.
    + intros p' o Hp'. destruct (decide (p' < length (promises s))%nat).
      * rewrite lookup_app_l in Hp' by done. eauto.
      * rewrite lookup_app_r in Hp' by lia.
        destruct (p' - length (promises s))%nat; cbn in Hp'; simplify_eq.
Qed.

Lemma Inv_resume (p : nat) (env : Env) (event : Event) (s s' : System) :
  Inv s → doRefresh_step p env event s = Some s' → Inv s'.
Proof.
  intros [I1 I2 I3 I4 I5 I6 I7 I8] Hstep. unfold doRefresh_step in Hstep.
  destruct (coroutines s !! p) as [phase|] eqn:Hphase; [|discriminate].
  cbn in Hstep.
  destruct (doRefresh_resume env (manager s) (machine s) phase event)
    as [[[[r tm'] w'] eff]|] eqn:Hr; [|discriminate].
  cbn in Hstep.
  pose proof (doRefresh_resume_handle _ _ _ _ _ _ _ _ _ Hr) as Hhandle.
  destruct (I1 _ _ Hphase) as [Hp Hpending].
  assert (∀ q phase', coroutines s !! q = Some phase' → q = p) as Honly.
  { intros q phase' Hq. destruct (I1 _ _ Hq). congruence. }
  destruct r as [phase'|o]; injection Hstep as <-.
  - (* suspended again *)
    split; cbn; rewrite ?Hhandle; try done.
    + intros q ph Hq. destruct (decide (q = p)) as [->|]; [done|].
      rewrite lookup_insert_ne in Hq by done. eauto.
    + intros q Hq. destruct (decide (q = p)) as [->|].
      * rewrite lookup_insert_eq. eauto.
      * rewrite lookup_insert_ne by done. eauto.
  - (* settled *)
    destruct (doRefresh_resume_resolves _ _ _ _ _ _ _ _ _ Hr) as [b ->].
    assert (p < length (promises s))%nat as Hlt by (by eapply lookup_lt_Some).
    split; cbn; rewrite ?Hhandle.
    + intros q ph Hq. destruct (decide (q = p)) as [->|].
      * by rewrite lookup_delete_eq in Hq.
      * rewrite lookup_delete_ne in Hq by done. by destruct (n (Honly _ _ Hq)).
    + intros q Hq. destruct (decide (q = p)) as [->|].
      * rewrite list_lookup_insert_eq in Hq by done. discriminate.
      * rewrite list_lookup_insert_ne in Hq by done.
        destruct (I2 _ Hq) as [ph Hph]. by destruct (n (Honly _ _ Hph)).
    + done.
    + done.
    + intros q Hq. destruct (I5 q Hq) as [[x Hx] Hown]. split; [|done].
      destruct (decide (q = p)) as [->|].
      * rewrite list_lookup_insert_eq by done. eauto.
      * rewrite list_lookup_insert_ne by done. eauto.
    + intros c q o Hc. specialize (I6 _ _ _ Hc).
      rewrite list_lookup_insert_ne; [done|]. congruence.
    + intros c q Hc. destruct (I7 _ _ Hc) as [x Hx].
      destruct (decide (q = p)) as [->|].
      * rewrite list_lookup_insert_eq by done. eauto.
      * rewrite list_lookup_insert_ne by done. eauto.
    + intros q o Hq. destruct (decide (q = p)) as [->|].
      * rewrite list_lookup_insert_eq in Hq by done. injection Hq as <-. eauto.
      * rewrite list_lookup_insert_ne in Hq by done. eauto.
Qed.

Lemma Inv_wake (c : nat) (s s' : System) :
  Inv s → refreshToken_wake c s = Some s' → Inv s'.
Proof.
  intros [I1 I2 I3 I4 I5 I6 I7 I8] Hwake. unfold refreshToken_wake in Hwake.
  destruct (callers s !! c) as [[p|p|p o]|] eqn:Hc; try discriminate.
  - (* the call that started the refresh: finally clears the handle *)
    destruct (promises s !! p) as [[o|]|] eqn:Hp; try discriminate.
    injection Hwake as <-.
    pose proof (I3 _ _ Hc) as Hhandle.
    assert (∀ q, coroutines s !! q = None) as Hnone.
    { intros q. destruct (coroutines s !! q) eqn:Hq; [|done].
      destruct (I1 _ _ Hq) as [Hq1 Hq2]. congruence. }
    split; cbn.
    + intros q ph Hq. by rewrite Hnone in Hq.
    + intros q Hq. destruct (I2 _ Hq) as [ph Hph]. by rewrite Hnone in Hph.
    + intros c' p' Hc'. destruct (decide (c' = c)) as [->|]; simplify_map_eq.
      by destruct (n (I4 _ _ _ _ Hc' Hc)).
    + intros c1 c2 p1 p2 H1 H2.
      destruct (decide (c1 = c)) as [->|], (decide (c2 = c)) as [->|];
        simplify_map_eq; eauto.
    + done.
    + intros c' p' o' Hc'. destruct (decide (c' = c)) as [->|]; simplify_map_eq; eauto.
    + intros c' p' Hc'. destruct (decide (c' = c)) as [->|]; simplify_map_eq; eauto.
    + done.
  - (* a call that returned the pending promise *)
    destruct (promises s !! p) as [[o|]|] eqn:Hp; try discriminate.
    injection Hwake as <-.
    split; cbn; try done.
    + intros c' p' Hc'. destruct (decide (c' = c)) as [->|]; simplify_map_eq; eauto.
    + intros c1 c2 p1 p2 H1 H2.
      destruct (decide (c1 = c)) as [->|], (decide (c2 = c)) as [->|];
        simplify_map_eq; eauto.
    + intros q Hq. destruct (I5 q Hq) as (Hsome & c0 & Hc0).
      split; [done|]. exists c0. rewrite lookup_insert_ne; [done|congruence].
    + intros c' p' o' Hc'. destruct (decide (c' = c)) as [->|]; simplify_map_eq; eauto.
    + intros c' p' Hc'. destruct (decide (c' = c)) as [->|]; simplify_map_eq; eauto.
Qed.

Lemma Inv_exec (l : Label) (s s' : System) :
  Inv s → exec l s = Some s' → Inv s'.
Proof.
  destruct l; cbn; eauto using Inv_call, Inv_resume, Inv_wake.
Qed.


Lemma Inv_run (schedule : list Label) (s s' : System) :
  Inv s → run schedule s = Some s' → Inv s'.
Proof.
  revert s. induction schedule as [|l schedule IH]; intros s Hinv; cbn.
  - by intros [= <-].
  - destruct (exec l s) as [s1|] eqn:Hexec; [|done]. cbn.
    eauto using Inv_exec.
Qed.





(** Evaluating lookups in the small maps of a schedule that is run. *)
Ltac run_maps :=
  repeat (progress (cbn;
    rewrite ?lookup_insert_eq, ?lookup_singleton_eq, ?lookup_empty,
            ?insert_insert_eq, ?delete_insert_eq, ?delete_singleton_eq,
            ?delete_empty)).

(** The call and the first resumption of a single [refreshToken()]. *)
Lemma refreshToken_first_stretch (env : Env) (tm : TokenManager) (w : Machine)
    (rest : list Label) :
  run (Call 0 :: Resume 0 env Tick :: rest) (idle tm w) =
    match doRefresh_resume env (with_refreshPromise tm (Some 0%nat)) w
            (AwaitGetRefreshToken (getRefreshToken tm w)) Tick with
    | Some (Suspend phase, tm', w', eff) =>
      run rest
        {| manager := tm'; machine := w'; promises := [None];
           coroutines := {[ 0%nat := phase ]};
           callers := {[ 0%nat := Owner 0 ]}; effects := eff |}
    | Some (Settle o, tm', w', eff) =>
      run rest
        {| manager := tm'; machine := w'; promises := [Some o];
           coroutines := ∅;
           callers := {[ 0%nat := Owner 0 ]}; effects := eff |}
    | None => None
    end.
Proof.
  cbn [run exec]. unfold refreshToken_call, idle. cbn.
  rewrite lookup_empty. cbn.
  unfold doRefresh_step. cbn. rewrite lookup_insert_eq. cbn.
  unfold doRefresh_start, getRefreshToken. cbn.
  destruct (doRefresh_resume _ _ _ _ _) as [[[[[phase|o] tm'] w'] eff]|];
    cbn; [| |done].
  - by rewrite insert_insert_eq.
  - by rewrite delete_insert_eq, delete_empty.
Qed.

(** Without a refresh token, a single [refreshToken()] resolves to
    [false]; it sends no request and leaves the machine as it was. *)
Lemma refreshToken_without_token (env : Env) (tm : TokenManager) (w : Machine) :
  getRefreshToken tm w = None →
  ∃ s, run (Call 0 :: map (Resume 0 env) [Tick] ++ [Wake 0]) (idle tm w) =
         Some s ∧
       outcome s 0 = Some (Resolved false) ∧
       requests s = 0%nat ∧
       machine s = w ∧
       tokenCache (manager s) = tokenCache tm.
Proof.
  intros Hrt. cbn [map app].
  rewrite refreshToken_first_stretch.
  unfold doRefresh_resume, doRefresh_body. rewrite Hrt. cbn.
  unfold refreshToken_wake, outcome. run_maps.
  eexists. split; [reflexivity|]. by run_maps.
Qed.

(** C2. A single [refreshToken()] on a manager with nothing pending
    resolves to [false] when no refresh token is stored for the
    provider, when the token endpoint answers with a status that is not
    2xx, and when [fetch] throws; and however it is resumed,
    [refreshToken()] never rejects. *)
Theorem refreshToken_failure_is_false (env : Env) (tm : TokenManager)
    (w : Machine) :
  (getRefreshToken tm w = None →
   refreshToken env tm w [Tick] = Some (Resolved false)) ∧
  (∀ status statusText, getRefreshToken tm w ≠ None →
   refreshToken env tm w
     [Tick; FetchSettled (Response false status statusText)] =
     Some (Resolved false)) ∧
  (∀ message, getRefreshToken tm w ≠ None →
   refreshToken env tm w [Tick; FetchSettled (FetchThrew message)] =
     Some (Resolved false)) ∧
  (∀ events o, refreshToken env tm w events = Some o → ∃ b, o = Resolved b).
Proof.
  split_and!.
  - intros Hrt. unfold refreshToken. cbn [map app].
    rewrite refreshToken_first_stretch.
    unfold doRefresh_resume, doRefresh_body. rewrite Hrt. cbn.
    unfold refreshToken_wake, outcome. by run_maps.
  - intros status statusText Hrt. unfold refreshToken. cbn [map app].
    rewrite refreshToken_first_stretch.
    destruct (getRefreshToken tm w) as [rt|] eqn:Ert; [|done].
    apply or_null_truthy in Ert as [Ert Htruthy].
    unfold doRefresh_resume, doRefresh_body. cbn. rewrite Htruthy. cbn.
    unfold doRefresh_step, refreshToken_wake, outcome. by run_maps.
  - intros message Hrt. unfold refreshToken. cbn [map app].
    rewrite refreshToken_first_stretch.
    destruct (getRefreshToken tm w) as [rt|] eqn:Ert; [|done].
    apply or_null_truthy in Ert as [Ert Htruthy].
    unfold doRefresh_resume, doRefresh_body. cbn. rewrite Htruthy. cbn.
    unfold doRefresh_step, refreshToken_wake, outcome. by run_maps.
  - intros events o. unfold refreshToken.
    destruct (run _ _) as [s|] eqn:Hrun; [|done]. cbn.
    pose proof (Inv_run _ _ _ (Inv_idle tm w) Hrun) as HInv.
    unfold outcome.
    destruct (callers s !! 0%nat) as [[p|p|p o']|] eqn:Hc; try done.
    intros [= ->].
    eapply inv_resolved; [done|]. eapply inv_finished; eauto.
Qed.

End Refresh.

(** ** OAuthAuthStrategy *)

Section Strategy.

Import AuthStrategy.

Context {S : Type} (tm : TokenManagerLike S).

(** C8. Against any token manager, [getAuthHeaders()] first calls
    [hasValidToken()].  If that resolves to false it calls
    [refreshToken()] next, and if that resolves to false too it rejects
    with the error that asks to re-authenticate, without fetching a
    token.  It resolves only when validity was confirmed, by the check
    or by a successful refresh, and [getAccessToken()] then gave a
    non-empty string; the headers are then
    [{Authorization: "Bearer " + token}].  If validity was confirmed
    and [getAccessToken()] gives no token, it rejects with the no-token
    error. *)
Theorem getAuthHeaders_confirms_token (s : S) :
  let run := exec tm getAuthHeaders s in
  (∃ rest, run.2 = HasValidToken :: rest) ∧
  (∀ s1, hasValidToken tm s = (Resolved false, s1) →
     (∃ rest, run.2 = HasValidToken :: RefreshToken :: rest) ∧
     (∀ s2, refreshToken tm s1 = (Resolved false, s2) →
        run = (Rejected ("OAuth token expired and could not be refreshed. " +:+
                         "Please re-authenticate with: git super auth login"),
               s2, [HasValidToken; RefreshToken]))) ∧
  (∀ headers, run.1.1 = Resolved headers →
     ∃ s2 token s3,
       confirmed tm s s2 ∧
       getAccessToken tm s2 = (Resolved (Some token), s3) ∧
       truthy token = true ∧
       headers = {[ "Authorization" := "Bearer " +:+ token ]}) ∧
  (∀ s2 token s3, confirmed tm s s2 →
     getAccessToken tm s2 = (Resolved token, s3) →
     if truthy_opt token then
       run.1.1 = Resolved {[ "Authorization" := "Bearer " +:+ default "" token ]}
     else
       run.1.1 = Rejected ("No valid OAuth token available. " +:+
                           "Please authenticate with: git super auth login")).
Proof.
  intros run. subst run. unfold confirmed.
  unfold getAuthHeaders, ensureAuthenticated. cbn.
  destruct (hasValidToken tm s) as [[[|]|message] s1] eqn:Hvalid; cbn.
  - (* valid *)
    destruct (getAccessToken tm s1) as [[[token|]|message] s3] eqn:Htoken; cbn;
      [destruct (truthy token) eqn:Htruthy; cbn| |].
    all: split_and!; eauto; try (intros; discriminate).
    + intros headers [= <-]. exists s1, token, s3. split_and!; eauto 6.
    + intros s2 token' s3' (valid & s1' & [= <- <-] & [[_ ->]|[? _]]);
        [|discriminate].
      rewrite Htoken. intros [= <- <-]. cbn. by rewrite Htruthy.
    + intros s2 token' s3' (valid & s1' & [= <- <-] & [[_ ->]|[? _]]);
        [|discriminate].
      rewrite Htoken. intros [= <- <-]. cbn. by rewrite Htruthy.
    + intros s2 token' s3' (valid & s1' & [= <- <-] & [[_ ->]|[? _]]);
        [|discriminate].
      rewrite Htoken. by intros [= <- <-].
    + intros s2 token' s3' (valid & s1' & [= <- <-] & [[_ ->]|[? _]]);
        [|discriminate].
      rewrite Htoken. intros; discriminate.
  - (* not valid: refresh *)
    destruct (refreshToken tm s1) as [[[|]|message] s2] eqn:Hrefresh; cbn.
    + destruct (getAccessToken tm s2) as [[[token|]|message] s3] eqn:Htoken; cbn;
        [destruct (truthy token) eqn:Htruthy; cbn| |].
      all: split_and!; eauto; try (intros; discriminate).
      all: try (intros s1' [= <-]; split; [eauto|]; rewrite Hrefresh;
                intros; discriminate).
      * intros headers [= <-]. exists s2, token, s3. split_and!; eauto 8.
      * intros s2' token' s3' (valid & s1' & [= <- <-] & [[? _]|[_ Hr]]);
          [discriminate|].
        rewrite Hrefresh in Hr. injection Hr as <-.
        rewrite Htoken. intros [= <- <-]. cbn. by rewrite Htruthy.
      * intros s2' token' s3' (valid & s1' & [= <- <-] & [[? _]|[_ Hr]]);
          [discriminate|].
        rewrite Hrefresh in Hr. injection Hr as <-.
        rewrite Htoken. intros [= <- <-]. cbn. by rewrite Htruthy.
      * intros s2' token' s3' (valid & s1' & [= <- <-] & [[? _]|[_ Hr]]);
          [discriminate|].
        rewrite Hrefresh in Hr. injection Hr as <-.
        rewrite Htoken. by intros [= <- <-].
      * intros s2' token' s3' (valid & s1' & [= <- <-] & [[? _]|[_ Hr]]);
          [discriminate|].
        rewrite Hrefresh in Hr. injection Hr as <-.
        rewrite Htoken. intros; discriminate.
    + split_and!; eauto; try (intros; discriminate).
      * intros s1' [= <-]. split; [eauto|]. rewrite Hrefresh.
        by intros s2' [= <-].
      * intros s2' token' s3' (valid & s1' & [= <- <-] & [[? _]|[_ Hr]]);
          [discriminate|].
        rewrite Hrefresh in Hr. discriminate.
    + split_and!; eauto; try (intros; discriminate).
      * intros s1' [= <-]. split; [eauto|]. rewrite Hrefresh.
        intros; discriminate.
      * intros s2' token' s3' (valid & s1' & [= <- <-] & [[? _]|[_ Hr]]);
          [discriminate|].
        rewrite Hrefresh in Hr. discriminate.
  - (* the validity check itself rejects *)
    split_and!; eauto; try (intros; discriminate).
    intros s2 token s3 (valid & s1' & [=] & _).
Qed.

End Strategy.

(** ** The properties at concrete inputs *)

(** C3, at two failures that are not answers of the provider.  The
    first request fails in the TLS layer with the message "certificate
    has expired"; or a gateway answers with a page that is not JSON,
    and [response.json()] rejects with a message that quotes the text
    [Access denied].  [pollForToken] rejects with that error after this
    one attempt, where it should have logged it and gone on to the next
    of its 180 attempts: the [catch] clause takes the error for one of
    its own because the message contains "expired", or "denied".  An
    error with the message "fetch failed" is logged and the loop goes
    on. *)
Theorem pollForToken_network_error_aborts :
  DeviceCodeFlow.pollForToken 5 Examples.certificate_expired =
    (Rejected "certificate has expired",
     [DeviceCodeFlow.Sleep 5000; DeviceCodeFlow.Fetch 0]) ∧
  DeviceCodeFlow.pollForToken 5 Examples.gateway_page =
    (Rejected Examples.not_valid_json,
     [DeviceCodeFlow.Sleep 5000; DeviceCodeFlow.Fetch 0]) ∧
  DeviceCodeFlow.goes_on 5000 0 (DeviceCodeFlow.Threw "fetch failed") = true.
Proof. vm_compute. repeat split. Qed.

Lemma pollForToken_error_codes_witness :
  (DeviceCodeFlow.pollForToken 5 Examples.pending_then_denied).1 =
    Rejected "User denied authorization." ∧
  ∃ pre, DeviceCodeFlow.fetches pre = 1%nat ∧
         (DeviceCodeFlow.pollForToken 5 Examples.pending_then_denied).2 =
           pre ++ [DeviceCodeFlow.Sleep (5 * 1000); DeviceCodeFlow.Fetch 1].
Proof.
  assert (1 < DeviceCodeFlow.maxAttempts)%nat as Hk
    by (unfold DeviceCodeFlow.maxAttempts; lia).
  assert (∀ j, (j < 1)%nat →
            DeviceCodeFlow.goes_on (5 * 1000) j (Examples.pending_then_denied j)
            = true) as Hgo
    by (intros [|j] Hj; [reflexivity | lia]).
  destruct (pollForToken_error_codes 5 Examples.pending_then_denied 1 _
              Hk Hgo eq_refl) as [Hdenied _].
  destruct (Hdenied eq_refl) as (Hresult & _ & Heffects).
  exact (conj Hresult Heffects).
Defined.

Lemma set_get_under_node_witness :
  CredentialStore.set_call Examples.node_store Examples.iv16
    Examples.node_laptop "git-super-acme" Examples.record1 =
    (Rejected "require is not defined", Examples.node_laptop) ∧
  CredentialStore.get (CredentialStore.new false Examples.node_laptop)
    (CredentialStore.set Examples.node_store Examples.iv16
       Examples.node_laptop "git-super-acme" Examples.record1)
    "git-super-acme" = CredentialStore.Null.
Proof.
  destruct (set_get_under_node Examples.node_store
              (CredentialStore.new false Examples.node_laptop) Examples.iv16
              Examples.node_laptop "git-super-acme" Examples.record1 eq_refl)
    as (Hset & Hget & _).
  exact (conj Hset Hget).
Defined.

Lemma set_file_under_node_witness :
  ∃ content,
    CredentialStore.files Examples.node_laptop1
      !! CredentialStore.storageFile Examples.node_store = Some content ∧
    CredentialStore.set_call Examples.node_store Examples.iv16
      Examples.node_laptop1 "git-super-other" Examples.record2 =
      (Rejected "require is not defined", Examples.node_laptop1) ∧
    CredentialStore.files
      (CredentialStore.set Examples.node_store Examples.iv16
         Examples.node_laptop1 "git-super-other" Examples.record2)
      !! CredentialStore.storageFile Examples.node_store = Some content.
Proof.
  destruct (_setInFile_content Examples.file_store Examples.iv16
              Examples.laptop "git-super-acme" Examples.record1 eq_refl)
    as (_ & content & Hf & _).
  exists content.
  assert (CredentialStore.files Examples.node_laptop1
            !! CredentialStore.storageFile Examples.node_store = Some content)
    as Hfile by exact Hf.
  destruct (set_file_under_node Examples.node_store Examples.iv16
              Examples.node_laptop1 "git-super-other" Examples.record2 content
              eq_refl Hfile) as (_ & Hset & Hkept).
  exact (conj Hfile (conj Hset Hkept)).
Defined.

(** Where [require] is defined: a second service is written to the
    file, and the first is read as before. *)
Example set_file_frame_laptop :
  CredentialStore.get Examples.file_store
    (CredentialStore.set Examples.file_store Examples.iv16 Examples.laptop1
       "git-super-other" Examples.record2)
    "git-super-acme" =
  CredentialStore.Credential Examples.record1.
Proof.
  assert (CredentialStore.keytarAvailable Examples.file_store = false) as Hk
    by reflexivity.
  destruct (_setInFile_content Examples.file_store Examples.iv16
              Examples.laptop "git-super-acme" Examples.record1 eq_refl)
    as (_ & content & Hf & Hr).
  change (CredentialStore._setInFile _ _ _ _ _) with Examples.laptop1 in Hf, Hr.
  destruct (set_file_frame Examples.file_store Examples.iv16 Examples.laptop1
              "git-super-other" Examples.record2 content eq_refl Hk Hf)
    as (_ & content' & allData' & _ & _ & Hframe & _).
  destruct (Hframe _ Hr) as [_ Hother].
  destruct (Hother "git-super-acme" ltac:(discriminate)) as [_ Hget].
  rewrite Hget.
  apply (set_get_file_mode Examples.file_store Examples.file_store);
    [reflexivity | reflexivity | reflexivity | reflexivity | discriminate].
Qed.

(** C5, as the claim has it, fails at two inputs.  With no stored
    token, [hasValidToken()] is true when the cache holds one: the
    manager has read [record1], the credential is then deleted from the
    store, and in 2027, after the time at which [record1] expired, the
    token still counts as valid.  With [expiresAt] absent,
    [hasValidToken()] is false when the stored record has no access
    token. *)
Theorem hasValidToken_counterexample :
  (let tm := (TokenManager.getAccessToken Examples.acme Examples.laptop1).2 in
   let w := CredentialStore.delete_ Examples.file_store Examples.iv16
              Examples.laptop1 "git-super-acme" in
   CredentialStore.get (TokenManager.credentialStore tm) w
     (TokenManager._getServiceName tm) = CredentialStore.Null ∧
   (TokenManager.hasValidToken (H := Examples.test_date) Examples.in_2027
      tm w).1 = true) ∧
  (CredentialStore.get (TokenManager.credentialStore Examples.acme)
     Examples.laptop3 (TokenManager._getServiceName Examples.acme) =
     CredentialStore.Credential Examples.record3 ∧
   CredentialStore.expiresAt Examples.record3 = None ∧
   (TokenManager.hasValidToken (H := Examples.test_date) Examples.new_year
      Examples.acme Examples.laptop3).1 = false).
Proof. vm_compute. repeat split. Qed.


(** The spec's scenario: two simultaneous [refreshToken()] calls, the
    provider answering 200; one request is sent and both calls resolve
    to [true]. *)
Example two_simultaneous_refresh_calls :
  let final := TokenManager.run (H := Examples.test_date)
                 Examples.two_calls_served
                 (TokenManager.idle Examples.acme Examples.laptop1) in
  TokenManager.requests <$> final = Some 1%nat ∧
  (final ≫= λ s, TokenManager.outcome s 0) = Some (Resolved true) ∧
  (final ≫= λ s, TokenManager.outcome s 1) = Some (Resolved true) ∧
  (TokenManager.refreshPromise ∘ TokenManager.manager) <$> final = Some None.
Proof. vm_compute. repeat split. Qed.

(** A first call on an idle manager starts the refresh. *)
Lemma call_idle `{TokenManager.JSDate} (tm : TokenManager.TokenManager)
    (w : CredentialStore.Machine) (c : nat) :
  TokenManager.exec (TokenManager.Call c) (TokenManager.idle tm w) =
    Some {| TokenManager.manager :=
              TokenManager.with_refreshPromise tm (Some 0%nat);
            TokenManager.machine := w;
            TokenManager.promises := [None];
            TokenManager.coroutines :=
              {[ 0%nat := TokenManager.doRefresh_start tm w ]};
            TokenManager.callers := {[ c := TokenManager.Owner 0 ]};
            TokenManager.effects := [] |}.
Proof.
  cbn. unfold TokenManager.refreshToken_call. cbn. by rewrite lookup_empty.
Qed.


Lemma refreshToken_failure_is_false_witness :
  TokenManager.refreshToken (H := Examples.test_date) Examples.new_year
    Examples.acme Examples.laptop [TokenManager.Tick] = Some (Resolved false) ∧
  TokenManager.refreshToken (H := Examples.test_date) Examples.new_year
    Examples.acme Examples.laptop1
    [TokenManager.Tick;
     TokenManager.FetchSettled (TokenManager.FetchThrew "Network error")] =
    Some (Resolved false).
Proof.
  split.
  - apply (refreshToken_failure_is_false (H := Examples.test_date)).
    reflexivity.
  - apply (refreshToken_failure_is_false (H := Examples.test_date)).
    unfold TokenManager.getRefreshToken.
    change (TokenManager.credentialStore Examples.acme) with Examples.file_store.
    unfold Examples.laptop1.
    rewrite set_get_file_mode; [discriminate|reflexivity..|discriminate].
Defined.

Lemma token_validity_witness :
  (TokenManager.hasValidToken (H := Examples.test_date) Examples.in_2027
     Examples.acme Examples.laptop1).1 = false.
Proof.
  destruct (token_validity (H := Examples.test_date) Examples.in_2027
              Examples.acme Examples.laptop1) as (Hexpired & _).
  apply (Hexpired Examples.record1 "2026-12-31T00:00:00.000Z" 1798675200000%Z).
  - change (TokenManager.credentialStore Examples.acme) with Examples.file_store.
    unfold Examples.laptop1.
    apply set_get_file_mode; [reflexivity..|discriminate].
  - reflexivity.
  - reflexivity.
  - reflexivity.
Defined.


Lemma getAuthHeaders_confirms_token_witness :
  AuthStrategy.exec (AuthStrategy.mock false false None)
    AuthStrategy.getAuthHeaders () =
  (Rejected ("OAuth token expired and could not be refreshed. " +:+
             "Please re-authenticate with: git super auth login"),
   (), [AuthStrategy.HasValidToken; AuthStrategy.RefreshToken]).
Proof.
  destruct (getAuthHeaders_confirms_token (AuthStrategy.mock false false None) ())
    as (_ & Hrefresh & _).
  destruct (Hrefresh () eq_refl) as [_ Hfail].
  exact (Hfail () eq_refl).
Defined.

(** ** The tests of the repository, run on the model *)

(** "should poll and return tokens when authorized": two requests. *)
Example poll_pending_then_success :
  let run := DeviceCodeFlow.pollForToken 5
               (Examples.error_then_success "authorization_pending") in
  run.1 = Resolved {| DeviceCodeFlow.accessToken := Some "test-access-token";
                      DeviceCodeFlow.refreshToken := Some "test-refresh-token";
                      DeviceCodeFlow.expiresIn := Some 3600%Z;
                      DeviceCodeFlow.tokenType := Some "Bearer";
                      DeviceCodeFlow.tokens_scope := Some "read write" |} ∧
  DeviceCodeFlow.fetches run.2 = 2%nat.
Proof. vm_compute. repeat split. Qed.

(** "should handle slow_down error": an extra sleep, then the second
    request succeeds. *)
Example poll_slow_down_then_success :
  (DeviceCodeFlow.pollForToken 5 (Examples.error_then_success "slow_down")).2 =
    [ DeviceCodeFlow.Sleep 5000; DeviceCodeFlow.Fetch 0;
      DeviceCodeFlow.Sleep 5000;
      DeviceCodeFlow.Sleep 5000; DeviceCodeFlow.Fetch 1 ].
Proof. vm_compute. repeat split. Qed.

(** "should handle encryption/decryption errors gracefully" *)
Example get_from_corrupt_file :
  CredentialStore.get Examples.file_store Examples.corrupt_laptop
    "test-service" = CredentialStore.Null.
Proof. vm_compute. repeat split. Qed.

(** A write over a file that cannot be read leaves the new entry only. *)
Example set_over_corrupt_file :
  CredentialStore.existing Examples.file_store
    (CredentialStore.set Examples.file_store Examples.iv16
       Examples.corrupt_laptop "test-service" Examples.record1) =
  {[ "test-service" := Examples.record1 ]}.
Proof. vm_compute. repeat split. Qed.

(** "should delete credentials", and deleting twice. *)
Example delete_twice :
  let w1 := CredentialStore.delete_ Examples.file_store Examples.iv16
              Examples.laptop1 "git-super-acme" in
  let w2 := CredentialStore.delete_ Examples.file_store Examples.iv16
              w1 "git-super-acme" in
  CredentialStore.get Examples.file_store w1 "git-super-acme" =
    CredentialStore.Null ∧
  CredentialStore.get Examples.file_store w2 "git-super-acme" =
    CredentialStore.Null.
Proof. vm_compute. repeat split. Qed.

(** "should return true if token not expired", "should return false if
    expires later". *)
Example valid_at_new_year :
  (TokenManager.hasValidToken (H := Examples.test_date) Examples.new_year
     Examples.acme Examples.laptop1).1 = true ∧
  TokenManager.needsRefresh (H := Examples.test_date) Examples.new_year
    Examples.acme Examples.laptop1 = false.
Proof. vm_compute. repeat split. Qed.

(** The key is bound to the machine: under another key nothing that
    [_encrypt] made decrypts. *)
Lemma decrypt_on_other_machine (w w' : CredentialStore.Machine)
    (iv : list Byte.byte) (data : gmap string CredentialStore.TokenRecord)
    (encrypted : CredentialStore.EncryptedBlob) :
  CredentialStore._encrypt w iv data = Some encrypted →
  CredentialStore._getEncryptionKey w' ≠ CredentialStore._getEncryptionKey w →
  CredentialStore._decrypt w' encrypted = None.
Proof.
  unfold CredentialStore._decrypt, CredentialStore._encrypt,
    CredentialStore.createCipheriv_update_final.
  destruct (CredentialStore._getEncryptionKey w) as [key|]; [|done].
  cbn. intros [= <-] Hkey.
  destruct (CredentialStore._getEncryptionKey w') as [key'|]; [|done].
  cbn. rewrite decide_False; [done|]. intros [Heq _]. by subst.
Qed.

(** The credentials file copied to a machine with another host name. *)
Example get_on_other_host :
  CredentialStore.get Examples.file_store Examples.other_host "git-super-acme" =
    CredentialStore.Null.
Proof. vm_compute. repeat split. Qed.

(* ===================================================================== *)
(** * Further properties *)
(* ===================================================================== *)

(** ** DeviceCodeFlow: pauses, [initiate], [execute] *)

Section Pauses.

Import DeviceCodeFlow.

Variable pollInterval : Z.
Variable replies : nat → Reply.

Lemma sleeps_app (a b : list Effect) :
  sleeps (a ++ b) = (sleeps a + sleeps b)%nat.
Proof. unfold sleeps. by rewrite List.filter_app, length_app. Qed.

(** One iteration pauses once, or twice after [slow_down], each time
    for [pollInterval]. *)
Lemma iteration_sleeps (attempt : nat) (reply : Reply) :
  (1 ≤ sleeps (iteration pollInterval attempt reply).2 ≤ 2)%nat ∧
  ∀ ms, Sleep ms ∈ (iteration pollInterval attempt reply).2 → ms = pollInterval.
Proof.
  unfold iteration, try_block, catch_clause.
  destruct reply as [message|data].
  - destruct (rethrown message); cbn; (split; [lia|]);
      intros ms Hin; repeat (apply elem_of_cons in Hin as [Hin|Hin]; simplify_eq);
      try done; by apply elem_of_nil in Hin.
  - repeat case_match; simplify_eq; cbn; (split; [lia|]);
      intros ms Hin; repeat (apply elem_of_cons in Hin as [Hin|Hin]; simplify_eq);
      try done; by apply elem_of_nil in Hin.
Qed.

Lemma poll_loop_sleeps (remaining attempt : nat) :
  let effects := (poll_loop pollInterval replies remaining attempt).2 in
  (fetches effects ≤ sleeps effects ≤ 2 * fetches effects)%nat ∧
  ∀ ms, Sleep ms ∈ effects → ms = pollInterval.
Proof.
  revert attempt. induction remaining as [|n IH]; intros attempt; simpl.
  - split; [done|]. intros ms Hin. by apply elem_of_nil in Hin.
  - pose proof (iteration_fetches pollInterval attempt (replies attempt)) as Hone.
    pose proof (iteration_sleeps attempt (replies attempt)) as [Hs Hms].
    destruct (iteration pollInterval attempt (replies attempt)) as [c eff].
    simpl in Hone, Hs, Hms.
    specialize (IH (S attempt)). simpl in IH.
    destruct (poll_loop pollInterval replies n (S attempt)) as [o rest].
    simpl in IH. destruct IH as [IHs IHms].
    destruct c; simpl; rewrite ?fetches_app, ?sleeps_app;
      (split; [lia|]); intros ms Hin;
      [apply elem_of_app in Hin as [Hin|Hin]; eauto ..| eauto | eauto].
Qed.

End Pauses.

(** X1. Whatever the provider and the network answer, [pollForToken]
    sends at most 180 token requests. *)
Theorem pollForToken_at_most_180_requests (interval : Z)
    (replies : nat → DeviceCodeFlow.Reply) :
  (DeviceCodeFlow.fetches (DeviceCodeFlow.pollForToken interval replies).2
   ≤ 180)%nat.
Proof. apply (poll_loop_fetches (interval * 1000) replies 180 0). Qed.

(** X2. If every one of the 180 attempts is answered in a way that lets
    the loop go on ([authorization_pending], [slow_down], or an
    exception whose message the [catch] clause does not rethrow),
    [pollForToken] rejects with the timeout error after exactly 180
    requests. *)
Theorem pollForToken_times_out (interval : Z)
    (replies : nat → DeviceCodeFlow.Reply) :
  (∀ j, (j < DeviceCodeFlow.maxAttempts)%nat →
        DeviceCodeFlow.goes_on (interval * 1000) j (replies j) = true) →
  (DeviceCodeFlow.pollForToken interval replies).1 =
    Rejected "Authorization timeout. Please try again." ∧
  DeviceCodeFlow.fetches (DeviceCodeFlow.pollForToken interval replies).2 =
    DeviceCodeFlow.maxAttempts.
Proof. apply pollForToken_timeout. Qed.

(** Every pause of [pollForToken] lasts [interval * 1000] milliseconds. *)
Lemma pollForToken_sleep (interval : Z) (replies : nat → DeviceCodeFlow.Reply)
    (ms : Z) :
  DeviceCodeFlow.Sleep ms ∈ (DeviceCodeFlow.pollForToken interval replies).2 →
  ms = (interval * 1000)%Z.
Proof.
  apply (poll_loop_sleeps (interval * 1000) replies DeviceCodeFlow.maxAttempts 0).
Qed.

(** X3. Every pause of [pollForToken] lasts [interval * 1000]
    milliseconds, also after [slow_down]: the interval is never
    lengthened.  There is one pause before each request and at most one
    more after it, so a run pauses at most twice as often as it sends a
    request. *)
Theorem pollForToken_pauses (interval : Z)
    (replies : nat → DeviceCodeFlow.Reply) :
  let effects := (DeviceCodeFlow.pollForToken interval replies).2 in
  (∀ ms, DeviceCodeFlow.Sleep ms ∈ effects → ms = (interval * 1000)%Z) ∧
  (DeviceCodeFlow.fetches effects ≤ DeviceCodeFlow.sleeps effects
   ≤ 2 * DeviceCodeFlow.fetches effects)%nat.
Proof.
  intros effects.
  destruct (poll_loop_sleeps (interval * 1000) replies
              DeviceCodeFlow.maxAttempts 0) as [Hs Hms].
  split; [exact Hms | exact Hs].
Qed.

(** Membership in a short list whose head cannot be the element. *)
Ltac absurd_member Hin :=
  repeat (apply elem_of_cons in Hin as [Hin|Hin]; [discriminate Hin|]);
  try (by apply elem_of_nil in Hin).

Section Execute.

Import DeviceCodeFlow.

(** X4. [initiate] never returns the interval 0: an absent or zero
    [interval] of the reply becomes 5 seconds; and the complete
    verification URI falls back to the plain one when the reply has
    none.  A reply that is not ok makes [initiate] reject with the
    status in the message. *)
Theorem initiate_defaults (reply : AuthorizationReply) :
  (∀ d, initiate reply = Resolved d →
     interval d ≠ 0%Z ∧
     ∃ data, reply = Authorized data ∧
       (device_interval data = None ∨ device_interval data = Some 0%Z →
        interval d = 5%Z) ∧
       (∀ n, device_interval data = Some n → n ≠ 0%Z → interval d = n) ∧
       (truthy_opt (verification_uri_complete data) = false →
        verificationUriComplete d = verification_uri data) ∧
       (truthy_opt (verification_uri_complete data) = true →
        verificationUriComplete d = verification_uri_complete data)) ∧
  (∀ status statusText, reply = AuthorizationRefused status statusText →
     initiate reply =
       Rejected ("Device authorization failed: " +:+ pretty status +:+ " " +:+
                 statusText)).
Proof.
  split.
  - intros d Hd. destruct reply as [m|status statusText|m|data]; try discriminate.
    injection Hd as <-. cbn. split.
    + destruct (device_interval data) as [n|]; [|done].
      destruct (n =? 0)%Z eqn:Hn; [done|]. by apply Z.eqb_neq.
    + exists data. split; [done|]. split_and!.
      * intros [->| ->]; reflexivity.
      * intros n -> Hn. by rewrite (proj2 (Z.eqb_neq n 0) Hn).
      * by intros ->.
      * by intros ->.
  - by intros status statusText ->.
Qed.

(** X5. [execute] sends the authorization request first and once.  If
    [initiate] rejects, [execute] rejects with the same error and does
    nothing else.  If the [onUserCode] callback rejects, [execute]
    rejects with that error and no token request is sent.  With a
    callback, every step of the polling comes after the callback has
    been given the verification URI and the user code and has resolved.
    The polling pauses for the interval that [initiate] returned. *)
Theorem execute_order
    (onUserCode : option (option string → option string → Outcome unit))
    (authorization : AuthorizationReply) (replies : nat → Reply) :
  let result := (execute onUserCode authorization replies).1 in
  let steps := (execute onUserCode authorization replies).2 in
  (∃ rest, steps = Authorize :: rest ∧ Authorize ∉ rest) ∧
  (∀ m, initiate authorization = Rejected m →
     result = Rejected m ∧ steps = [Authorize]) ∧
  (∀ callback d m,
     onUserCode = Some callback → initiate authorization = Resolved d →
     callback (verificationUriComplete d) (userCode d) = Rejected m →
     result = Rejected m ∧ ∀ e, Poll e ∉ steps) ∧
  (∀ callback e,
     onUserCode = Some callback → Poll e ∈ steps →
     ∃ d rest,
       initiate authorization = Resolved d ∧
       steps = Authorize :: Display (verificationUriComplete d) (userCode d)
                 :: rest ∧
       callback (verificationUriComplete d) (userCode d) = Resolved ()) ∧
  (∀ d ms, initiate authorization = Resolved d →
     Poll (Sleep ms) ∈ steps → ms = (interval d * 1000)%Z).
Proof.
  intros result steps. subst result steps. unfold execute.
  destruct (initiate authorization) as [d|m0] eqn:Hinit.
  - pose proof (pollForToken_sleep (interval d) replies) as Hms.
    destruct (pollForToken (interval d) replies) as [o eff] eqn:Hpoll.
    cbn [fst snd] in *.
    assert (Authorize ∉ Poll <$> eff) as Hno.
    { intros Hin. apply list_elem_of_fmap in Hin as (e & He & _). discriminate. }
    assert (∀ ms, Poll (Sleep ms) ∈ Poll <$> eff → ms = (interval d * 1000)%Z)
      as Hsleep.
    { intros ms Hin. apply list_elem_of_fmap in Hin as (e & [= <-] & Hin).
      by apply Hms. }
    destruct onUserCode as [callback|].
    + destruct (callback _ _) as [[]|m1] eqn:Hcb; cbn [fst snd].
      * split_and!.
        -- eexists. split; [done|].
           rewrite not_elem_of_cons. split; [done|exact Hno].
        -- intros m [=].
        -- intros callback' d' m [= <-] [= <-] Hcb'. congruence.
        -- intros callback' e [= <-] Hin. exists d. eexists. done.
        -- intros d' ms [= <-] Hin. absurd_member Hin. by apply Hsleep.
      * split_and!.
        -- eexists. split; [done|]. intros Hin. absurd_member Hin.
        -- intros m [=].
        -- intros callback' d' m [= <-] [= <-] Hcb'.
           rewrite Hcb in Hcb'. injection Hcb' as <-. split; [done|].
           intros e Hin. absurd_member Hin.
        -- intros callback' e [= <-] Hin. absurd_member Hin.
        -- intros d' ms [= <-] Hin. absurd_member Hin.
    + cbn [fst snd]. split_and!.
      * eexists. split; [done|exact Hno].
      * intros m [=].
      * intros callback' d' m [=].
      * intros callback' e [=].
      * intros d' ms [= <-] Hin. absurd_member Hin. by apply Hsleep.
  - cbn [fst snd]. split_and!.
    + exists []. split; [done|]. apply not_elem_of_nil.
    + by intros m [= <-].
    + intros callback d m _ [=].
    + intros callback e _ Hin. absurd_member Hin.
    + intros d ms [=].
Qed.

End Execute.

(** ** CredentialStore: what [delete] and [set] leave alone *)

Section StoreFrames.

Import CredentialStore.

Lemma _getFromFile_delete_other (cs cs' : CredentialStore) (iv : list Byte.byte)
    (w : Machine) (service other : string) :
  other ≠ service →
  _getFromFile cs' (_deleteFromFile cs iv w service) other =
    _getFromFile cs' w other.
Proof.
  intros Hne. unfold _deleteFromFile.
  destruct (files w !! storageFile cs) as [content|] eqn:Hf; [|done].
  destruct (read_all w content) as [allData|] eqn:Hr; [|done].
  destruct (_encrypt w iv (delete service allData)) as [encrypted|] eqn:He;
    [|done].
  unfold _getFromFile. cbn.
  destruct (decide (storageFile cs' = storageFile cs)) as [Hp|Hp].
  - rewrite Hp, lookup_insert_eq, Hf, read_all_with_files.
    rewrite (read_all_written w iv _ _ He), Hr.
    unfold property_or_null. by rewrite lookup_delete_ne.
  - rewrite lookup_insert_ne by done.
    destruct (files w !! storageFile cs'); [|done].
    by rewrite read_all_with_files.
Qed.

Lemma keytar_with_files (w : Machine) fs : keytar (with_files w fs) = keytar w.
Proof. reflexivity. Qed.

Lemma get_delete_other (cs cs' : CredentialStore) (iv : list Byte.byte)
    (w : Machine) (s other : string) :
  other ≠ s →
  get cs' (delete_ cs iv w s) other = get cs' w other.
Proof.
  intros Hne. unfold get, delete_.
  rewrite _getFromFile_delete_other by done.
  unfold keytar_reached at 1.
  rewrite require_defined_deleteFromFile, keytar_deleteFromFile.
  destruct (keytar_reached cs w && negb (deletePassword_throws (keytar w))); cbn.
  - rewrite lookup_delete_ne by done. done.
  - done.
Qed.

(** X6. [delete(s)] changes what [get] gives for no other service:
    not in the keychain, not in the file, whether or not the file can
    be read, and whichever store object reads. *)
Theorem delete_frame (cs cs' : CredentialStore) (iv : list Byte.byte)
    (w : Machine) (s other : string) :
  other ≠ s →
  get cs' (delete_ cs iv w s) other = get cs' w other.
Proof. apply get_delete_other. Qed.


End StoreFrames.

Section StoreBackends.

Import CredentialStore.

(** A store that reads back does so: [get] after [set], for every
    service name but ["__proto__"]. *)
Lemma set_get_reads_back (cs : CredentialStore) (iv : list Byte.byte)
    (w : Machine) (service : string) (data : TokenRecord) :
  reads_back cs w → service ≠ "__proto__" →
  get cs (set cs iv w service data) service = Credential data.
Proof.
  intros [Hreq Hrb] Hs. destruct (keytarAvailable cs) eqn:Hk.
  - destruct (Hrb eq_refl) as [Hset Hget]. by apply set_get_keytar_mode.
  - by apply set_get_file_mode.
Qed.

(** X8. A write goes to one backend and leaves the other as it was:
    with the keychain in use and accepting the write, the credentials
    file is untouched and [get] gives for every other service what it
    gave before, whoever reads; otherwise the keychain is untouched. *)
Theorem set_one_backend (cs : CredentialStore) (iv : list Byte.byte)
    (w : Machine) (s : string) (r : TokenRecord) :
  (keytarAvailable cs = true → setPassword_throws (keytar w) = false →
   files (set cs iv w s r) = files w ∧
   ∀ cs' other, other ≠ s → get cs' (set cs iv w s r) other = get cs' w other) ∧
  (keytarAvailable cs = false ∨ setPassword_throws (keytar w) = true →
   keytar (set cs iv w s r) = keytar w).
Proof.
  split.
  - intros Hk Hset. destruct (require_defined w) eqn:Hr.
    + rewrite set_keytar_mode
        by (unfold keytar_reached; by rewrite Hk, Hr, Hset).
      cbn. split; [done|].
      intros cs' other Hne. unfold get. cbn.
      by rewrite lookup_insert_ne.
    + assert (set cs iv w s r = w) as ->; [|done].
      unfold set. by rewrite set_call_undefined.
  - intros Hmode. rewrite set_file_mode.
    + unfold _setInFile. rewrite _setInFile_call_existing.
      by destruct (_encrypt _ _ _).
    + unfold keytar_reached.
      destruct Hmode as [->| ->]; [done|]. by rewrite andb_false_r.
Qed.

(** X9. A write that [keytar] refuses.  Where [require] is defined and
    [keytar] was loaded, a [set] whose [setPassword] throws resolves,
    leaves the keychain as it was and goes to the file, which then
    holds the record for every service name but ["__proto__"]; the
    read that follows asks the keychain, which does not throw, and
    answers from it: null when the keychain has no entry for the
    service, the older record when it has one.  The record just written
    is not returned.  Where [require] is not defined the write is
    rejected and the read that follows gives null. *)
Theorem refused_write_is_not_read (cs : CredentialStore) (iv : list Byte.byte)
    (w : Machine) (s : string) (r : TokenRecord) :
  keytarAvailable cs = true →
  setPassword_throws (keytar w) = true →
  getPassword_throws (keytar w) = false →
  let w' := set cs iv w s r in
  (require_defined w = true →
   set_call cs iv w s r = (Resolved (), w') ∧
   keytar w' = keytar w ∧
   (s ≠ "__proto__" → _getFromFile cs w' s = Credential r) ∧
   (passwords (keytar w) !! s = None → get cs w' s = Null) ∧
   (∀ old, passwords (keytar w) !! s =
             Some (JSON_stringify (RecordValue old)) →
           get cs w' s = Credential old)) ∧
  (require_defined w = false →
   set_call cs iv w s r = (Rejected require_is_not_defined, w) ∧
   get cs w' s = Null).
Proof.
  intros Hk Hset Hget w'. split.
  - intros Hreq.
    assert (w' = _setInFile cs iv w s r) as Hw'.
    { subst w'. apply set_file_mode. by rewrite Hset, andb_false_r. }
    assert (keytar w' = keytar w) as Hkeytar.
    { rewrite Hw'. unfold _setInFile. rewrite _setInFile_call_existing.
      by destruct (_encrypt _ _ _). }
    split; [by apply set_call_defined|]. split; [done|].
    split; [intros Hs; rewrite Hw'; by apply file_round_trip|].
    unfold get, keytar_reached. subst w'.
    rewrite require_defined_set, Hk, Hreq, Hkeytar. cbn. rewrite Hget.
    split.
    + by intros ->.
    + by intros old ->.
  - intros Hreq. split; [by apply set_call_undefined|].
    apply get_undefined. subst w'. by rewrite require_defined_set.
Qed.

(** X10. The store in the program as node runs it, where [require] is
    not defined: whatever the credentials file and the keychain hold,
    [get] resolves to null for every service, [delete] changes nothing
    and [set] changes nothing; a credentials file that is there is
    neither read nor rewritten. *)
Theorem store_under_node (cs : CredentialStore) (iv : list Byte.byte)
    (w : Machine) (s : string) :
  require_defined w = false →
  get cs w s = Null ∧
  delete_ cs iv w s = w ∧
  (∀ r, set cs iv w s r = w) ∧
  (∀ content, read_all w content = None).
Proof.
  intros Hreq. split_and!.
  - by apply get_undefined.
  - by apply delete_undefined.
  - intros r. unfold set. by rewrite set_call_undefined.
  - intros content. by apply read_all_undefined.
Qed.

End StoreBackends.

(** ** TokenManager: storing, validity, revocation, status *)

Section ManagerMore.

Import CredentialStore TokenManager.

Context `{JSDate}.

Lemma service_name_not_proto (tm : TokenManager) : _getServiceName tm ≠ "__proto__".
Proof. unfold _getServiceName. cbn. discriminate. Qed.

(** What [getAccessToken] answers, by cases. *)
Lemma getAccessToken_cases (tm : TokenManager) (w : Machine) :
  (truthy_opt (tokenCache tm ≫= accessToken) = true ∧
   getAccessToken tm w = (tokenCache tm ≫= accessToken, tm)) ∨
  (truthy_opt (tokenCache tm ≫= accessToken) = false ∧
   ((∃ r, get (credentialStore tm) w (_getServiceName tm) = Credential r ∧
          truthy_opt (accessToken r) = true ∧
          getAccessToken tm w = (accessToken r, with_tokenCache tm (Some r))) ∨
    (truthy_opt (property (get (credentialStore tm) w (_getServiceName tm))
                          accessToken) = false ∧
     getAccessToken tm w = (None, tm)))).
Proof.
  unfold getAccessToken.
  destruct (truthy_opt (tokenCache tm ≫= accessToken)) eqn:Hc; [by left|].
  right. split; [done|].
  destruct (get _ _ _) as [|r|m|v] eqn:Hget; [by right| |by right|by right].
  destruct (truthy_opt (accessToken r)) eqn:Hr; [|by right].
  left. by exists r.
Qed.

Lemma or_null_spec (o : option string) :
  or_null o = if truthy_opt o then o else None.
Proof. destruct o as [s|]; [|done]. cbn. by destruct (truthy s). Qed.

(** [storeTokens] where [require] is defined: it resolves when the
    time stamps can be written. *)
Lemma storeTokens_defined (env : Env) (tm : TokenManager) (w : Machine)
    (tokens : DeviceCodeFlow.Tokens) (data : TokenRecord) :
  require_defined w = true →
  token_data env tm tokens = Some data →
  storeTokens env tm w tokens =
    (Resolved (), with_tokenCache tm (Some data),
     set (credentialStore tm) (iv env) w (_getServiceName tm) data).
Proof.
  intros Hreq Hdata. unfold storeTokens.
  by rewrite Hdata, set_call_defined.
Qed.

(** [storeTokens] where [require] is not defined: it rejects, and
    leaves the cache and the machine as they were. *)
Lemma storeTokens_undefined (env : Env) (tm : TokenManager) (w : Machine)
    (tokens : DeviceCodeFlow.Tokens) :
  require_defined w = false →
  ∃ message, storeTokens env tm w tokens = (Rejected message, tm, w).
Proof.
  intros Hreq. unfold storeTokens.
  destruct (token_data env tm tokens) as [data|]; [|by eexists].
  rewrite set_call_undefined by done. by eexists.
Qed.

(** What [storeTokens] leaves on a store that reads back. *)
Lemma storeTokens_stored (env : Env) (tm tm' : TokenManager)
    (w w' : Machine) (tokens : DeviceCodeFlow.Tokens) :
  storeTokens env tm w tokens = (Resolved (), tm', w') →
  reads_back (credentialStore tm) w →
  ∃ data,
    token_data env tm tokens = Some data ∧
    tm' = with_tokenCache tm (Some data) ∧
    tokenCache tm' = Some data ∧
    get (credentialStore tm') w' (_getServiceName tm') = Credential data ∧
    (getAccessToken tm' w').1 = or_null (DeviceCodeFlow.accessToken tokens) ∧
    getRefreshToken tm' w' = or_null (DeviceCodeFlow.refreshToken tokens).
Proof.
  intros Hstore Hrb.
  destruct (token_data env tm tokens) as [data|] eqn:Hdata;
    [|unfold storeTokens in Hstore; by rewrite Hdata in Hstore].
  rewrite (storeTokens_defined env tm w tokens data (proj1 Hrb) Hdata) in Hstore.
  injection Hstore as <- <-.
  exists data. split; [done|]. split; [done|]. split; [done|].
  assert (get (credentialStore tm)
            (set (credentialStore tm) (iv env) w (_getServiceName tm) data)
            (_getServiceName tm) = Credential data) as Hget.
  { apply set_get_reads_back; [done|apply service_name_not_proto]. }
  assert (accessToken data = DeviceCodeFlow.accessToken tokens ∧
          CredentialStore.refreshToken data = DeviceCodeFlow.refreshToken tokens)
    as [Ha Hr].
  { unfold token_data in Hdata.
    destruct (Date_toISOString (now env)) as [issued|]; [|discriminate].
    cbn in Hdata. destruct (_ : option (option string)) as [e|]; [|discriminate].
    by injection Hdata as <-. }
  split; [exact Hget|]. split.
  - unfold getAccessToken. cbn. rewrite Ha, or_null_spec.
    destruct (truthy_opt (DeviceCodeFlow.accessToken tokens)) eqn:Ht; [done|].
    change (get _ _ _) with
      (get (credentialStore tm)
         (set (credentialStore tm) (iv env) w (_getServiceName tm) data)
         (_getServiceName tm)).
    rewrite Hget, Ha, Ht. done.
  - unfold getRefreshToken.
    change (get _ _ _) with
      (get (credentialStore tm)
         (set (credentialStore tm) (iv env) w (_getServiceName tm) data)
         (_getServiceName tm)).
    rewrite Hget. cbn. by rewrite Hr.
Qed.

(** X11. [storeTokens], in both settings.  Where [require] is not
    defined it rejects, and the cache and the machine are as they were:
    nothing is stored.  Where [require] is defined it resolves whenever
    the time stamps can be written, and it replaces the record of the
    provider wholesale: on a store that reads back, the cache and the
    store then hold the same new record; [getAccessToken] gives the
    access token of [tokens], and [getRefreshToken] the refresh token
    of [tokens], or null if [tokens] has none: a refresh token stored
    before is not kept. *)
Theorem storeTokens_read_back (env : Env) (tm : TokenManager)
    (w : Machine) (tokens : DeviceCodeFlow.Tokens) :
  (require_defined w = false →
   (∃ message, storeTokens env tm w tokens = (Rejected message, tm, w)) ∧
   (∀ data, token_data env tm tokens = Some data →
      storeTokens env tm w tokens = (Rejected require_is_not_defined, tm, w))) ∧
  (require_defined w = true →
   ∀ data, token_data env tm tokens = Some data →
     ∃ w', storeTokens env tm w tokens =
             (Resolved (), with_tokenCache tm (Some data), w')) ∧
  (∀ tm' w',
     storeTokens env tm w tokens = (Resolved (), tm', w') →
     reads_back (credentialStore tm) w →
     ∃ data,
       token_data env tm tokens = Some data ∧
       tokenCache tm' = Some data ∧
       get (credentialStore tm') w' (_getServiceName tm') = Credential data ∧
       (getAccessToken tm' w').1 = or_null (DeviceCodeFlow.accessToken tokens) ∧
       getRefreshToken tm' w' = or_null (DeviceCodeFlow.refreshToken tokens)).
Proof.
  split_and!.
  - intros Hreq. split; [by apply storeTokens_undefined|].
    intros data Hdata. unfold storeTokens.
    by rewrite Hdata, set_call_undefined.
  - intros Hreq data Hdata. eexists. by apply storeTokens_defined.
  - intros tm' w' Hstore Hrb.
    destruct (storeTokens_stored _ _ _ _ _ _ Hstore Hrb)
      as (data & Hdata & _ & Hrest).
    by exists data.
Qed.

(** X12. The lifetime of what [storeTokens] stored, which it does only
    where [require] is defined, on a store that reads back, when [Date]
    reads back the time stamps that [toISOString] writes and the access
    token is not empty.  At any later moment [hasValidToken] holds exactly
    while the clock is before the time of storing plus [expiresIn]
    seconds, and [needsRefresh] holds exactly when that time is less
    than the threshold away.  An [expiresIn] that is absent or 0 gives
    a token that is valid for ever and never due for refresh; a
    negative one, a token that never was valid. *)
Theorem storeTokens_lifetime (env env' : Env) (tm tm' : TokenManager)
    (w w' : Machine) (tokens : DeviceCodeFlow.Tokens) :
  (∀ ms s, Date_toISOString ms = Some s → Date_getTime s = Some ms) →
  storeTokens env tm w tokens = (Resolved (), tm', w') →
  reads_back (credentialStore tm) w →
  truthy_opt (DeviceCodeFlow.accessToken tokens) = true →
  (hasValidToken env' tm' w').1 =
    match DeviceCodeFlow.expiresIn tokens with
    | Some n => if (n =? 0)%Z then true
                else (now env' <? now env + n * 1000)%Z
    | None => true
    end ∧
  needsRefresh env' tm' w' =
    match DeviceCodeFlow.expiresIn tokens with
    | Some n => if (n =? 0)%Z then false
                else (now env + n * 1000 - now env' <? refreshThreshold tm)%Z
    | None => false
    end.
Proof.
  intros Hdate Hstore Hrb Htoken.
  destruct (storeTokens_stored _ _ _ _ _ _ Hstore Hrb)
    as (data & Hdata & Htm' & Hcache & Hget & Haccess & _).
  assert (refreshThreshold tm' = refreshThreshold tm) as Hthreshold
    by (by rewrite Htm').
  assert (expiresAt data =
            match DeviceCodeFlow.expiresIn tokens with
            | Some n => if (n =? 0)%Z then None
                        else Date_toISOString (now env + n * 1000)%Z
            | None => None
            end ∧
          (∀ n, DeviceCodeFlow.expiresIn tokens = Some n → n ≠ 0%Z →
                ∃ e, Date_toISOString (now env + n * 1000)%Z = Some e))
    as [Hexp Hsome].
  { unfold token_data in Hdata.
    destruct (Date_toISOString (now env)) as [issued|]; [|discriminate].
    cbn in Hdata.
    destruct (DeviceCodeFlow.expiresIn tokens) as [n|]; cbn in Hdata.
    - destruct (n =? 0)%Z eqn:Hn; cbn in Hdata.
      + injection Hdata as <-. split; [done|].
        intros n' [= <-] Hn'. by apply Z.eqb_eq in Hn.
      + destruct (Date_toISOString (now env + n * 1000)) as [e|] eqn:He;
          [|discriminate].
        cbn in Hdata. injection Hdata as <-. split; [done|].
        intros n' [= <-] _. by exists e.
    - injection Hdata as <-. split; [done|]. intros n' [=]. }
  rewrite hasValidToken_unfold. unfold needsRefresh.
  rewrite Haccess, or_null_spec, Htoken, Hget, Hthreshold. cbn.
  rewrite Htoken, Hexp. cbn.
  destruct (DeviceCodeFlow.expiresIn tokens) as [n|]; [|done].
  destruct (n =? 0)%Z eqn:Hn; [done|].
  destruct (Hsome n eq_refl) as [e He]; [by apply Z.eqb_neq|].
  rewrite He. pose proof (Hdate _ _ He) as Ht.
  rewrite (or_null_date e _ Ht), Ht. done.
Qed.

(** X13. With a positive threshold, a token that is not due for refresh
    is valid: if the store holds a record with an access token whose
    expiry [Date] can read, [needsRefresh() = false] implies
    [hasValidToken() = true].  An expiry that [Date] cannot read makes
    the token invalid and never due for refresh. *)
Theorem needsRefresh_false_is_valid (env : Env) (tm : TokenManager)
    (w : Machine) (r : TokenRecord) :
  get (credentialStore tm) w (_getServiceName tm) = Credential r →
  truthy_opt (accessToken r) = true →
  (0 < refreshThreshold tm)%Z →
  (∀ e t, expiresAt r = Some e → Date_getTime e = Some t →
     needsRefresh env tm w = false → (hasValidToken env tm w).1 = true) ∧
  (expiresAt r = None →
     needsRefresh env tm w = false ∧ (hasValidToken env tm w).1 = true) ∧
  (∀ e, expiresAt r = Some e → truthy e = true → Date_getTime e = None →
     needsRefresh env tm w = false ∧ (hasValidToken env tm w).1 = false).
Proof.
  intros Hget Htoken Hpos.
  pose proof (getAccessToken_stored tm w r Hget Htoken) as Hgot.
  split_and!.
  - intros e t He Ht. rewrite hasValidToken_unfold. unfold needsRefresh.
    rewrite Hgot, Hget. cbn. rewrite He, (or_null_date e t Ht), Ht. cbn.
    intros Hlate. apply Z.ltb_ge in Hlate. apply Z.ltb_lt. lia.
  - intros He. rewrite hasValidToken_unfold. unfold needsRefresh.
    rewrite Hgot, Hget. cbn. by rewrite He.
  - intros e He Htruthy Ht. rewrite hasValidToken_unfold. unfold needsRefresh.
    rewrite Hgot, Hget. cbn. rewrite He. cbn. rewrite Htruthy, Ht. done.
Qed.

(** X14. [revokeToken] sends at most one request.  It sends none when
    it is called without an endpoint, as [handleAuthLogout] calls it,
    and none when there is no access token in the cache or the store.
    A request that is sent goes to the endpoint given, with the access
    token that [getAccessToken] gave. *)
Theorem revokeToken_request (env : Env) (tm : TokenManager) (w : Machine)
    (revokeEndpoint : option string) (reply : FetchReply) :
  let effects := (revokeToken env tm w revokeEndpoint reply).2 in
  (length (List.filter is_request effects) ≤ 1)%nat ∧
  (truthy_opt revokeEndpoint = false → effects = []) ∧
  (truthy_opt (getAccessToken tm w).1 = false → effects = []) ∧
  (∀ endpoint token, Request endpoint token ∈ effects →
     revokeEndpoint = Some endpoint ∧ (getAccessToken tm w).1 = Some token).
Proof.
  intros effects. subst effects. unfold revokeToken.
  destruct (getAccessToken tm w) as [token tm1]. cbn [fst snd].
  destruct (truthy_opt revokeEndpoint) eqn:He;
    destruct (truthy_opt token) eqn:Ht; cbn [andb fst snd];
    try (split_and!; [cbn; lia|done..|]; intros ? ? Hin; by apply elem_of_nil in Hin).
  destruct revokeEndpoint as [endpoint|]; [|done].
  destruct token as [t|]; [|done]. cbn.
  split_and!; [|done|done|].
  - destruct (await_fetch reply); cbn; lia.
  - intros endpoint' token' Hin.
    apply elem_of_cons in Hin as [[= -> ->]|Hin]; [done|].
    destruct (await_fetch reply); absurd_member Hin.
Qed.

(** X15. Once [getAccessToken] has returned a token, the manager keeps
    returning that token without looking at the store: whatever has
    happened to the file or the keychain since, also if the credential
    was deleted by another process. *)
Theorem getAccessToken_cached (tm : TokenManager) (w : Machine) (t : string) :
  (getAccessToken tm w).1 = Some t →
  ∀ w', getAccessToken (getAccessToken tm w).2 w' =
          (Some t, (getAccessToken tm w).2).
Proof.
  intros Ht w'.
  destruct (getAccessToken_cases tm w) as [[Hc Heq]|[Hc [(r & Hget & Hr & Heq)|[_ Heq]]]];
    rewrite Heq in Ht |- *; cbn [fst snd] in *.
  - unfold getAccessToken. by rewrite Hc, Ht.
  - unfold getAccessToken. cbn. by rewrite Hr, Ht.
  - discriminate.
Qed.

(** What [getTokenInfo] reports about validity is [hasValidToken]. *)
Lemma getTokenInfo_isValid (env : Env) (tm : TokenManager) (w : Machine)
    (info : TokenInfo) :
  (getTokenInfo env tm w).1 = Some info →
  info_isValid info = (hasValidToken env tm w).1 ∧
  hasToken info =
    truthy_opt (property (get (credentialStore tm) w (_getServiceName tm))
                         accessToken).
Proof.
  unfold getTokenInfo.
  destruct (get _ _ _) as [|r|m|v]; [done|..];
    destruct (hasValidToken env tm w) as [valid tm1]; cbn;
    by intros [= <-].
Qed.

(** X16. [getTokenInfo] is null exactly when the store has nothing for
    the provider.  In a process that has not read or stored a token yet
    (the cache is empty, as in every run of [git super auth status]),
    a status that says the token is valid says that there is a token. *)
Theorem getTokenInfo_consistent (env : Env) (tm : TokenManager) (w : Machine) :
  ((getTokenInfo env tm w).1 = None ↔
   get (credentialStore tm) w (_getServiceName tm) = Null) ∧
  (∀ info, truthy_opt (tokenCache tm ≫= accessToken) = false →
     (getTokenInfo env tm w).1 = Some info →
     info_isValid info = true → hasToken info = true).
Proof.
  split.
  - unfold getTokenInfo.
    destruct (get _ _ _) as [|r|m|v]; [done|..];
      destruct (hasValidToken env tm w) as [valid tm1]; cbn; split; done.
  - intros info Hcache Hinfo Hvalid.
    destruct (getTokenInfo_isValid _ _ _ _ Hinfo) as [Hv Ht].
    rewrite Ht. rewrite Hvalid in Hv. symmetry in Hv.
    rewrite hasValidToken_unfold in Hv.
    destruct (truthy_opt (getAccessToken tm w).1) eqn:Hgot; [|done].
    destruct (getAccessToken_cases tm w)
      as [[Hc _]|[_ [(r & Hget & Hr & _)|[_ Heq]]]].
    + congruence.
    + by rewrite Hget.
    + by rewrite Heq in Hgot.
Qed.



End ManagerMore.

(** ** TokenManager: what a refresh leaves *)

Section RefreshMore.

Import CredentialStore TokenManager.

Context `{JSDate}.

(** Running a schedule one label at a time. *)
Lemma run_cons (l : Label) (rest : list Label) (s s' : System) :
  exec l s = Some s' → run (l :: rest) s = run rest s'.
Proof. intros Hl. cbn [run]. by rewrite Hl. Qed.

Lemma doRefresh_step_suspend (p : nat) (env : Env) (event : Event) (s : System)
    (phase phase' : Phase) (tm' : TokenManager) (w' : Machine) (eff : list Effect) :
  coroutines s !! p = Some phase →
  doRefresh_resume env (manager s) (machine s) phase event =
    Some (Suspend phase', tm', w', eff) →
  exec (Resume p env event) s =
    Some {| manager := tm'; machine := w'; promises := promises s;
            coroutines := <[p := phase']> (coroutines s);
            callers := callers s; effects := effects s ++ eff |}.
Proof. intros Hp Hr. cbn [exec]. unfold doRefresh_step. rewrite Hp. cbn. by rewrite Hr. Qed.

Lemma doRefresh_step_settle (p : nat) (env : Env) (event : Event) (s : System)
    (phase : Phase) (result : Outcome bool) (tm' : TokenManager) (w' : Machine)
    (eff : list Effect) :
  coroutines s !! p = Some phase →
  doRefresh_resume env (manager s) (machine s) phase event =
    Some (Settle result, tm', w', eff) →
  exec (Resume p env event) s =
    Some {| manager := tm'; machine := w';
            promises := <[p := Some result]> (promises s);
            coroutines := delete p (coroutines s);
            callers := callers s; effects := effects s ++ eff |}.
Proof. intros Hp Hr. cbn [exec]. unfold doRefresh_step. rewrite Hp. cbn. by rewrite Hr. Qed.

(** What [storeTokens] finds in a token response as the endpoint sends
    it: of the five properties it reads, [scope] only. *)
Lemma token_response_body_read (data : DeviceCodeFlow.TokenResponse) :
  token_response_body data =
    JsonBody {| DeviceCodeFlow.accessToken := None;
                DeviceCodeFlow.refreshToken := None;
                DeviceCodeFlow.expiresIn := None;
                DeviceCodeFlow.tokenType := None;
                DeviceCodeFlow.tokens_scope := DeviceCodeFlow.scope data |}.
Proof.
  unfold token_response_body, token_response_member. cbn.
  by destruct (DeviceCodeFlow.scope data).
Qed.

(** Where [require] is not defined no refresh token is read. *)
Lemma getRefreshToken_undefined (tm : TokenManager) (w : Machine) :
  require_defined w = false → getRefreshToken tm w = None.
Proof.
  intros Hreq. unfold getRefreshToken. by rewrite get_undefined.
Qed.

(** X18. A refresh, in both settings.  Where [require] is not defined
    no refresh token is read: [refreshToken()] resolves to [false]
    without sending a request.  Where [require] is defined, the manager
    has a refresh token and the endpoint answers 2xx with a token
    response as it sends it, whose members are [access_token],
    [refresh_token], [expires_in], [token_type] and [scope]: one
    request is sent, [refreshToken()] resolves to [true], and the
    record that [storeTokens] builds from the body has the scope of the
    response (or the scopes of the manager, if it has none) and the
    type [Bearer], but neither an access token nor a refresh token nor
    an expiry, because it reads [accessToken], [refreshToken] and
    [expiresIn].  Afterwards, on a store that reads back, that record
    is what the store holds, [getAccessToken] is null, [hasValidToken]
    is false and [getRefreshToken] is null: the refresh token that was
    stored is gone. *)
Theorem refresh_discards_tokens (env env' : Env) (tm : TokenManager)
    (w : Machine) :
  (require_defined w = false →
   getRefreshToken tm w = None ∧
   ∃ s,
     run (Call 0 :: map (Resume 0 env) [Tick] ++ [Wake 0]) (idle tm w) =
       Some s ∧
     outcome s 0 = Some (Resolved false) ∧
     requests s = 0%nat ∧
     machine s = w) ∧
  (∀ (rt issued : string) (status : Z) (statusText : string)
     (data : DeviceCodeFlow.TokenResponse),
     getRefreshToken tm w = Some rt →
     Date_toISOString (now env) = Some issued →
     reads_back (credentialStore tm) w →
     ∃ s,
       run (Call 0 ::
            map (Resume 0 env)
              [Tick; FetchSettled (Response true status statusText);
               JsonSettled (token_response_body data); Tick] ++ [Wake 0])
           (idle tm w) = Some s ∧
       outcome s 0 = Some (Resolved true) ∧
       requests s = 1%nat ∧
       get (credentialStore (manager s)) (machine s)
           (_getServiceName (manager s)) =
         Credential
           {| accessToken := None; CredentialStore.refreshToken := None;
              tokenType := Some "Bearer";
              scope := Some (or_default (DeviceCodeFlow.scope data)
                                        (join_scopes (scopes tm)));
              issuedAt := Some issued; expiresAt := None |} ∧
       (getAccessToken (manager s) (machine s)).1 = None ∧
       (hasValidToken env' (manager s) (machine s)).1 = false ∧
       getRefreshToken (manager s) (machine s) = None).
Proof.
  split.
  { intros Hreq.
    pose proof (getRefreshToken_undefined tm w Hreq) as Hrt.
    split; [done|].
    destruct (refreshToken_without_token env tm w Hrt)
      as (s & Hrun & Hout & Hreqs & Hw & _).
    by exists s. }
  intros rt issued status statusText data Hrt Hissued Hrb. cbn [map app].
  pose proof Hrt as Hrt'.
  apply or_null_truthy in Hrt' as [_ Htruthy].
  rewrite (run_cons _ _ _ _ (call_idle tm w 0)).
  unfold doRefresh_start. rewrite Hrt.
  erewrite run_cons; cycle 1.
  { eapply doRefresh_step_suspend; [apply lookup_singleton_eq|].
    cbn [manager machine]. unfold doRefresh_resume, doRefresh_body.
    cbn [truthy_opt negb]. rewrite Htruthy. cbn [negb default]. reflexivity. }
  cbn [promises coroutines callers effects app].
  erewrite run_cons; cycle 1.
  { eapply doRefresh_step_suspend; [apply lookup_insert_eq|].
    cbn [manager machine]. unfold doRefresh_resume, doRefresh_body.
    cbn [negb]. reflexivity. }
  cbn [promises coroutines callers effects app].
  set (tm1 := with_refreshPromise tm (Some 0%nat)).
  set (record := {| accessToken := None; CredentialStore.refreshToken := None;
                    tokenType := Some "Bearer";
                    scope := Some (or_default (DeviceCodeFlow.scope data)
                                              (join_scopes (scopes tm)));
                    issuedAt := Some issued; expiresAt := None |}).
  assert (token_data env tm1
            {| DeviceCodeFlow.accessToken := None;
               DeviceCodeFlow.refreshToken := None;
               DeviceCodeFlow.expiresIn := None;
               DeviceCodeFlow.tokenType := None;
               DeviceCodeFlow.tokens_scope := DeviceCodeFlow.scope data |} =
          Some record) as Hdata.
  { unfold token_data. cbn [now]. rewrite Hissued. reflexivity. }
  set (w1 := set (credentialStore tm1) (iv env) w (_getServiceName tm1) record).
  erewrite run_cons; cycle 1.
  { eapply doRefresh_step_suspend; [apply lookup_insert_eq|].
    cbn [manager machine]. unfold doRefresh_resume.
    rewrite token_response_body_read.
    cbn [doRefresh_body]. rewrite Hdata.
    rewrite (set_call_defined _ _ _ _ _ (proj1 Hrb)). reflexivity. }
  cbn [promises coroutines callers effects app].
  erewrite run_cons; cycle 1.
  { eapply doRefresh_step_settle; [apply lookup_insert_eq|].
    cbn [manager machine]. unfold doRefresh_resume.
    cbn [doRefresh_body]. reflexivity. }
  cbn [promises coroutines callers effects app].
  erewrite run_cons; cycle 1.
  { cbn [exec]. unfold refreshToken_wake. cbn [callers promises].
    rewrite lookup_singleton_eq. cbn. reflexivity. }
  cbn [run]. eexists. split; [reflexivity|].
  cbn [manager machine].
  split; [unfold outcome; cbn [callers]; by rewrite lookup_insert_eq|].
  split; [reflexivity|].
  set (tm2 := with_refreshPromise (with_tokenCache tm1 (Some record)) None).
  change (set (credentialStore tm) (iv env) w (_getServiceName tm1) record)
    with w1.
  assert (get (credentialStore tm2) w1 (_getServiceName tm2) = Credential record)
    as Hget.
  { apply (set_get_reads_back (credentialStore tm));
      [done|apply service_name_not_proto]. }
  assert (getAccessToken tm2 w1 = (None, tm2)) as Hnone.
  { unfold getAccessToken. cbn [tokenCache tm2 with_refreshPromise with_tokenCache].
    cbn [mbind option_bind accessToken record truthy_opt].
    by rewrite Hget. }
  split_and!.
  - exact Hget.
  - by rewrite Hnone.
  - rewrite hasValidToken_unfold. by rewrite Hnone.
  - unfold getRefreshToken. by rewrite Hget.
Qed.

End RefreshMore.

(** ** TokenManager in the program as node runs it *)

Section ManagerNode.

Import CredentialStore TokenManager.

Context `{JSDate}.

(** X19. The token manager where [require] is not defined.  A manager
    whose cache holds no access token, as every new manager, finds no
    token, whatever the credentials file and the keychain hold:
    [getAccessToken] and [getRefreshToken] are null, [hasValidToken]
    and [needsRefresh] are false, [getTokenInfo] is null, and the
    manager is left as it was; [storeTokens] rejects and leaves the
    manager and the machine as they were, so that the cache stays
    empty. *)
Theorem manager_under_node (env : Env) (tm : TokenManager) (w : Machine) :
  require_defined w = false →
  truthy_opt (tokenCache tm ≫= accessToken) = false →
  getAccessToken tm w = (None, tm) ∧
  getRefreshToken tm w = None ∧
  hasValidToken env tm w = (false, tm) ∧
  needsRefresh env tm w = false ∧
  getTokenInfo env tm w = (None, tm) ∧
  (∀ tokens, ∃ message,
     storeTokens env tm w tokens = (Rejected message, tm, w)) ∧
  (∀ providerId options keytar_loads m,
     tokenCache (TokenManager.new providerId options keytar_loads m) = None).
Proof.
  intros Hreq Hcache.
  pose proof (get_undefined (credentialStore tm) w (_getServiceName tm) Hreq)
    as Hnull.
  assert (getAccessToken tm w = (None, tm)) as Hnone.
  { unfold getAccessToken. by rewrite Hcache, Hnull. }
  split_and!.
  - exact Hnone.
  - by apply getRefreshToken_undefined.
  - unfold hasValidToken. by rewrite Hnone.
  - unfold needsRefresh. by rewrite Hnull.
  - unfold getTokenInfo. by rewrite Hnull.
  - intros tokens. by apply storeTokens_undefined.
  - done.
Qed.

End ManagerNode.

(** ** ApiKeyAuthStrategy *)

Section ApiKey.

Import ApiKeyAuthStrategy.

Lemma append_empty (s : string) : s +:+ "" = s.
Proof.
  induction s as [|c s IH]; [done|].
  change (String c (s +:+ "") = String c s). by rewrite IH.
Qed.

Lemma prefix_empty (s : string) : String.prefix "" s = true.
Proof. by destruct s. Qed.

Lemma is_char_eq (c : Ascii.ascii) (d : Ascii.ascii) :
  is_char c (String d "") = bool_decide (d = c).
Proof.
  unfold is_char. cbn. destruct (Ascii.eqb_spec c d) as [->|Hne].
  - by rewrite bool_decide_eq_true_2.
  - rewrite bool_decide_eq_false_2; [done|]. congruence.
Qed.

Lemma prefix_char (d c : Ascii.ascii) (rest : string) :
  String.prefix (String d "") (String c rest) = bool_decide (d = c).
Proof.
  change (String.prefix (String d "") (String c rest))
    with (match Ascii.ascii_dec d c with
          | left _ => String.prefix "" rest
          | right _ => false
          end).
  destruct (Ascii.ascii_dec d c) as [Heq|Hne].
  - by rewrite prefix_empty, bool_decide_eq_true_2.
  - by rewrite bool_decide_eq_false_2.
Qed.

(** A replacement without a dollar sign stands for itself. *)
Lemma substitute_plain (replacement matched before after : string) :
  includes replacement "$" = false →
  substitute replacement matched before after = replacement.
Proof.
  induction replacement as [|c rest IH]; [done|].
  intros Hno. cbn [includes] in Hno. apply orb_false_elim in Hno as [Hc Hrest].
  cbn [substitute]. rewrite is_char_eq.
  rewrite prefix_char in Hc. rewrite Hc. by rewrite IH.
Qed.

(** X20. For a key name that is not the name of a member of
    [Object.prototype], [isValid()] is true exactly when the
    configuration has a non-empty value under the key name, and says
    whether [getAuthHeaders()] resolves: if it is true,
    [getAuthHeaders()] resolves to an object with the one header
    [headerName]; if it is false, [getAuthHeaders()] rejects with a
    message that names the key. *)
Theorem apiKey_isValid_headers (s : ApiKeyAuthStrategy) :
  keyName s ∉ CredentialStore.Object_prototype →
  ∃ valid,
    isValid s = Some valid ∧
    (valid = true ↔ ∃ key, config s !! keyName s = Some key ∧ key ≠ "") ∧
    (valid = true →
     ∃ value, getAuthHeaders s = Some (Resolved {[ headerName s := value ]})) ∧
    (valid = false →
     getAuthHeaders s =
       Some (Rejected (keyName s +:+ " is not configured. Please set it via " +:+
                       "environment variable or config file."))).
Proof.
  intros Hname. unfold isValid, getAuthHeaders, apiKey.
  destruct (config s !! keyName s) as [key|] eqn:Hkey.
  - cbn. exists (truthy key). split; [done|]. split_and!.
    + split.
      * intros Ht. exists key. split; [done|]. by intros ->.
      * intros (key' & [= <-] & Hne). by destruct key.
    + intros ->. cbn. eauto.
    + by intros ->.
  - rewrite bool_decide_eq_false_2 by done. cbn.
    exists false. split; [done|]. split_and!.
    + split; [done|]. by intros (key' & [=] & _).
    + done.
    + done.
Qed.

(** The two header formats of the providers. *)
Lemma replace_bearer (key : string) :
  replace "Bearer {key}" "{key}" key =
    "Bearer " +:+ substitute key "{key}" "Bearer " "".
Proof.
  unfold replace.
  assert (split_at "Bearer {key}" "{key}" = Some ("Bearer ", "")) as ->
    by reflexivity.
  by rewrite append_empty.
Qed.

Lemma replace_whole (key : string) :
  replace "{key}" "{key}" key = substitute key "{key}" "" "".
Proof.
  unfold replace.
  assert (split_at "{key}" "{key}" = Some ("", "")) as -> by reflexivity.
  cbn [String.append]. by rewrite append_empty.
Qed.

(** X21. The header that [OpenAIProvider] and [AnthropicProvider] send.
    The value is the header format with the key put in by
    [String.prototype.replace], which reads [$$], [$&], [$`] and [$']
    in the key as patterns: a key without a dollar sign is sent as it
    is, in [Authorization: Bearer <key>] and in [x-api-key: <key>]; of
    the key [sk-$&] the text [sk-{key}] is sent.  Without a key no
    request is sent. *)
Theorem api_key_request_headers (config : Config) :
  (∀ key, config !! "openaiKey" = Some key → key ≠ "" →
     OpenAI_request_headers config =
       Some (Resolved
         ({[ "Authorization" :=
               "Bearer " +:+ substitute key "{key}" "Bearer " "" ]} ∪
          {[ "Content-Type" := "application/json" ]})) ∧
     (includes key "$" = false →
      OpenAI_request_headers config =
        Some (Resolved
          ({[ "Authorization" := "Bearer " +:+ key ]} ∪
           {[ "Content-Type" := "application/json" ]}))) ∧
     (key = "sk-$&" →
      OpenAI_request_headers config =
        Some (Resolved
          ({[ "Authorization" := "Bearer sk-{key}" ]} ∪
           {[ "Content-Type" := "application/json" ]})))) ∧
  (∀ key, config !! "anthropicKey" = Some key → key ≠ "" →
     includes key "$" = false →
     Anthropic_request_headers config =
       Some (Resolved
         ({[ "anthropic-version" := "2023-06-01" ]} ∪ {[ "x-api-key" := key ]} ∪
          {[ "Content-Type" := "application/json" ]}))) ∧
  (config !! "openaiKey" = None →
   ∃ message, OpenAI_request_headers config = Some (Rejected message)) ∧
  (config !! "anthropicKey" = None →
   ∃ message, Anthropic_request_headers config = Some (Rejected message)).
Proof.
  split_and!.
  - intros key Hkey Hne.
    assert (OpenAI_request_headers config =
            Some (Resolved
              ({[ "Authorization" :=
                    "Bearer " +:+ substitute key "{key}" "Bearer " "" ]} ∪
               {[ "Content-Type" := "application/json" ]}))) as Heq.
    { unfold OpenAI_request_headers, getAuthHeaders, apiKey, OpenAIProvider.
      cbn [ApiKeyAuthStrategy.config keyName headerName headerFormat].
      rewrite Hkey. cbn [mbind option_bind truthy_opt default].
      destruct key as [|c key]; [done|]. cbn [truthy negb]. unfold id.
      by rewrite replace_bearer. }
    split_and!; [done| |].
    + intros Hplain. rewrite Heq.
      rewrite (substitute_plain key "{key}" "Bearer " "" Hplain). reflexivity.
    + intros ->. rewrite Heq.
      assert ("Bearer " +:+ substitute "sk-$&" "{key}" "Bearer " "" =
              "Bearer sk-{key}") as -> by (vm_compute; reflexivity).
      reflexivity.
  - intros key Hkey Hne Hplain.
    unfold Anthropic_request_headers, getAuthHeaders, apiKey, AnthropicProvider.
    cbn [ApiKeyAuthStrategy.config keyName headerName headerFormat].
    rewrite Hkey. cbn [mbind option_bind truthy_opt default].
    destruct key as [|c key]; [done|]. cbn [truthy negb]. unfold id.
    rewrite replace_whole.
    rewrite (substitute_plain (String c key) "{key}" "" "" Hplain). reflexivity.
  - intros Hkey.
    unfold OpenAI_request_headers, getAuthHeaders, apiKey, OpenAIProvider.
    cbn [ApiKeyAuthStrategy.config keyName headerName headerFormat].
    rewrite Hkey.
    assert (bool_decide ("openaiKey" ∈ CredentialStore.Object_prototype) = false)
      as -> by (vm_compute; reflexivity).
    cbn [mbind option_bind truthy_opt negb]. eexists. reflexivity.
  - intros Hkey.
    unfold Anthropic_request_headers, getAuthHeaders, apiKey, AnthropicProvider.
    cbn [ApiKeyAuthStrategy.config keyName headerName headerFormat].
    rewrite Hkey.
    assert (bool_decide ("anthropicKey" ∈ CredentialStore.Object_prototype) = false)
      as -> by (vm_compute; reflexivity).
    cbn [mbind option_bind truthy_opt negb]. eexists. reflexivity.
Qed.

End ApiKey.

(** ** The OAuth providers: [generate] *)

Section GenerateGate.

Import AuthStrategy OAuthProvider.

Context {S : Type} (tm : TokenManagerLike S).

(** [generate] when the manager says no to the provider's check. *)
Lemma generate_request_invalid (s s1 : S) (loginMessage : string) :
  hasValidToken tm s = (Resolved false, s1) →
  exec tm (generate_request loginMessage) s =
    (Rejected loginMessage, s1, [HasValidToken]).
Proof.
  intros H1.
  unfold generate_request, isAuthenticated, isValid. cbn [bind exec].
  by rewrite H1.
Qed.

(** [generate] when the manager says yes twice and has a token. *)
Lemma generate_request_valid (s s1 s2 s3 : S) (c : Ascii.ascii) (t : string)
    (loginMessage : string) :
  hasValidToken tm s = (Resolved true, s1) →
  hasValidToken tm s1 = (Resolved true, s2) →
  getAccessToken tm s2 = (Resolved (Some (String c t)), s3) →
  exec tm (generate_request loginMessage) s =
    (Resolved ({[ "Authorization" := "Bearer " +:+ String c t ]} ∪
               {[ "Content-Type" := "application/json" ]}),
     s3, [HasValidToken; HasValidToken; GetAccessToken]).
Proof.
  intros H1 H2 H3.
  unfold generate_request, isAuthenticated, authenticatedFetch, isValid,
    getAuthHeaders, ensureAuthenticated.
  cbn [bind exec]. rewrite H1. cbn [negb bind exec]. rewrite H2.
  cbn [negb bind exec]. rewrite H3.
  cbn [truthy_opt truthy negb bind exec default]. unfold id.
  by rewrite (left_id_L ∅ (∪)).
Qed.

(** X22. [generate] of an OAuth provider checks [isAuthenticated()]
    first: when the token manager says that there is no valid token,
    also because the token has expired, [generate] rejects with the
    request to log in after that one call, and [refreshToken()] is not
    called, whether or not a refresh token is stored.  A refresh is
    attempted only if the manager says yes to the provider's check and
    no to the check of the strategy that follows it. *)
Theorem generate_does_not_refresh (s : S) (loginMessage : string) :
  let r := exec tm (generate_request loginMessage) s in
  (∀ s1, hasValidToken tm s = (Resolved false, s1) →
     r = (Rejected loginMessage, s1, [HasValidToken])) ∧
  (RefreshToken ∈ r.2 →
     ∃ s1 s2, hasValidToken tm s = (Resolved true, s1) ∧
              hasValidToken tm s1 = (Resolved false, s2)).
Proof.
  intros r. subst r.
  unfold generate_request, isAuthenticated, authenticatedFetch, isValid,
    getAuthHeaders, ensureAuthenticated.
  cbn [bind exec].
  destruct (hasValidToken tm s) as [[[]|m] s1] eqn:H1; cbn [negb bind exec].
  - split; [intros s1' [=]|].
    destruct (hasValidToken tm s1) as [[[]|m] s2] eqn:H2; cbn [negb bind exec].
    + destruct (getAccessToken tm s2) as [[t|m] s3]; cbn.
      * destruct (negb (truthy_opt t)); cbn; intros Hin; absurd_member Hin.
      * intros Hin; absurd_member Hin.
    + intros _. eauto.
    + cbn. intros Hin; absurd_member Hin.
  - split; [by intros s1' [= <-]|].
    cbn. intros Hin; absurd_member Hin.
  - split; [intros s1' [=]|].
    cbn. intros Hin; absurd_member Hin.
Qed.

End GenerateGate.

(** ** The further properties at concrete inputs *)

Lemma pollForToken_times_out_witness :
  (DeviceCodeFlow.pollForToken 5 Examples.always_pending).1 =
    Rejected "Authorization timeout. Please try again." ∧
  DeviceCodeFlow.fetches (DeviceCodeFlow.pollForToken 5 Examples.always_pending).2 =
    DeviceCodeFlow.maxAttempts.
Proof.
  apply (pollForToken_times_out 5 Examples.always_pending).
  intros j _. reflexivity.
Defined.

Lemma initiate_defaults_witness :
  ∃ d, DeviceCodeFlow.initiate
         (DeviceCodeFlow.Authorized Examples.device_authorization) = Resolved d ∧
       DeviceCodeFlow.interval d = 5%Z ∧
       DeviceCodeFlow.verificationUriComplete d =
         Some "https://github.com/login/device".
Proof.
  eexists. split; [reflexivity|].
  destruct (initiate_defaults
              (DeviceCodeFlow.Authorized Examples.device_authorization))
    as [Hok _].
  destruct (Hok _ eq_refl) as (_ & data & Hdata & Hfive & _ & Huri & _).
  injection Hdata as <-.
  split; [apply Hfive; by left | apply Huri; reflexivity].
Defined.

Lemma execute_order_witness :
  let run := DeviceCodeFlow.execute (Some Examples.broken_display)
               (DeviceCodeFlow.Authorized Examples.device_authorization)
               Examples.always_pending in
  run.1 = Rejected "cannot open display" ∧
  ∀ e, DeviceCodeFlow.Poll e ∉ run.2.
Proof.
  destruct (execute_order (Some Examples.broken_display)
              (DeviceCodeFlow.Authorized Examples.device_authorization)
              Examples.always_pending) as (_ & _ & Hbroken & _).
  exact (Hbroken Examples.broken_display _ "cannot open display"
           eq_refl eq_refl eq_refl).
Defined.

Lemma delete_frame_witness :
  CredentialStore.get Examples.file_store
    (CredentialStore.delete_ Examples.file_store Examples.iv16 Examples.laptop1
       "git-super-other")
    "git-super-acme" =
  CredentialStore.get Examples.file_store Examples.laptop1 "git-super-acme".
Proof. apply delete_frame. discriminate. Defined.


Lemma set_one_backend_witness :
  CredentialStore.files
    (CredentialStore.set Examples.keytar_store Examples.iv16 Examples.laptop
       "git-super-acme" Examples.record1) =
  CredentialStore.files Examples.laptop.
Proof.
  destruct (set_one_backend Examples.keytar_store Examples.iv16 Examples.laptop
              "git-super-acme" Examples.record1) as [Hkeytar _].
  destruct (Hkeytar eq_refl eq_refl) as [Hfiles _].
  exact Hfiles.
Defined.

Lemma refused_write_is_not_read_witness :
  let w' := CredentialStore.set Examples.keytar_store Examples.iv16
              Examples.locked_laptop "git-super-acme" Examples.record1 in
  CredentialStore._getFromFile Examples.keytar_store w' "git-super-acme" =
    CredentialStore.Credential Examples.record1 ∧
  CredentialStore.get Examples.keytar_store w' "git-super-acme" =
    CredentialStore.Null.
Proof.
  destruct (refused_write_is_not_read Examples.keytar_store Examples.iv16
              Examples.locked_laptop "git-super-acme" Examples.record1
              eq_refl eq_refl eq_refl) as [Hdefined _].
  destruct (Hdefined eq_refl) as (_ & _ & Hfile & Hnone & _).
  split; [apply Hfile; discriminate | exact (Hnone eq_refl)].
Defined.

Lemma store_under_node_witness :
  CredentialStore.get Examples.node_store Examples.node_laptop1
    "git-super-acme" = CredentialStore.Null ∧
  CredentialStore.delete_ Examples.node_store Examples.iv16
    Examples.node_laptop1 "git-super-acme" = Examples.node_laptop1.
Proof.
  destruct (store_under_node Examples.node_store Examples.iv16
              Examples.node_laptop1 "git-super-acme" eq_refl)
    as (Hget & Hdelete & _).
  exact (conj Hget Hdelete).
Defined.

(** The [Date] of the examples reads back what it writes. *)
Lemma test_date_reads_back (ms : Z) (s : string) :
  TokenManager.Date_toISOString (JSDate := Examples.test_date) ms = Some s →
  TokenManager.Date_getTime (JSDate := Examples.test_date) s = Some ms.
Proof.
  cbn. destruct (ms =? 1767225600000)%Z eqn:H1.
  - intros [= <-]. apply Z.eqb_eq in H1 as ->. reflexivity.
  - destruct (ms =? 1798675200000)%Z eqn:H2; [|discriminate].
    intros [= <-]. apply Z.eqb_eq in H2 as ->. reflexivity.
Qed.

(** The laptop of the examples takes a write and reads it back. *)
Lemma laptop_reads_back (w : CredentialStore.Machine) :
  CredentialStore.require_defined w = true →
  CredentialStore.reads_back Examples.file_store w.
Proof. intros Hreq. split; [done|]. intros Hk. discriminate Hk. Qed.

Lemma laptop1_require_defined :
  CredentialStore.require_defined Examples.laptop1 = true.
Proof. unfold Examples.laptop1. by rewrite require_defined_set. Qed.

Lemma storeTokens_read_back_witness :
  ∃ tm' w',
    TokenManager.storeTokens (H := Examples.test_date) Examples.new_year
      Examples.acme Examples.laptop1 Examples.year_tokens =
      (Resolved (), tm', w') ∧
    (TokenManager.getAccessToken tm' w').1 = Some "tok1" ∧
    TokenManager.getRefreshToken tm' w' = Some "ref1".
Proof.
  pose proof (storeTokens_defined (H := Examples.test_date) Examples.new_year
                Examples.acme Examples.laptop1 Examples.year_tokens
                Examples.record1 laptop1_require_defined eq_refl) as Hstore.
  destruct (storeTokens_read_back (H := Examples.test_date) Examples.new_year
              Examples.acme Examples.laptop1 Examples.year_tokens)
    as (_ & _ & Hback).
  destruct (Hback _ _ Hstore (laptop_reads_back _ laptop1_require_defined))
    as (data & _ & _ & _ & Haccess & Hrefresh).
  eexists. eexists. split; [exact Hstore|].
  exact (conj Haccess Hrefresh).
Defined.

Lemma storeTokens_lifetime_witness :
  ∃ tm' w',
    TokenManager.storeTokens (H := Examples.test_date) Examples.new_year
      Examples.acme Examples.laptop Examples.year_tokens =
      (Resolved (), tm', w') ∧
    (TokenManager.hasValidToken (H := Examples.test_date) Examples.in_2027
       tm' w').1 = false.
Proof.
  pose proof (storeTokens_defined (H := Examples.test_date) Examples.new_year
                Examples.acme Examples.laptop Examples.year_tokens
                Examples.record1 eq_refl eq_refl) as Hstore.
  destruct (storeTokens_lifetime (H := Examples.test_date) Examples.new_year
              Examples.in_2027 Examples.acme _ Examples.laptop _
              Examples.year_tokens test_date_reads_back Hstore
              (laptop_reads_back Examples.laptop eq_refl) eq_refl)
    as [Hvalid _].
  eexists. eexists. split; [exact Hstore|].
  exact Hvalid.
Defined.

Lemma needsRefresh_false_is_valid_witness :
  TokenManager.needsRefresh (H := Examples.test_date) Examples.in_2027
    Examples.acme Examples.laptop2 = false ∧
  (TokenManager.hasValidToken (H := Examples.test_date) Examples.in_2027
     Examples.acme Examples.laptop2).1 = true.
Proof.
  destruct (needsRefresh_false_is_valid (H := Examples.test_date)
              Examples.in_2027 Examples.acme Examples.laptop2 Examples.record2)
    as (_ & Hnone & _).
  - change (TokenManager.credentialStore Examples.acme) with Examples.file_store.
    unfold Examples.laptop2.
    apply set_get_file_mode; [reflexivity..|discriminate].
  - reflexivity.
  - reflexivity.
  - exact (Hnone eq_refl).
Defined.

Lemma revokeToken_request_witness :
  (TokenManager.revokeToken Examples.new_year Examples.acme Examples.laptop1
     None (TokenManager.FetchThrew "Network error")).2 = [].
Proof.
  destruct (revokeToken_request Examples.new_year Examples.acme Examples.laptop1
              None (TokenManager.FetchThrew "Network error"))
    as (_ & Hnone & _).
  exact (Hnone eq_refl).
Defined.

(** The manager [acme] finds [tok1] on the laptop where it is stored. *)
Lemma acme_reads_tok1 :
  (TokenManager.getAccessToken Examples.acme Examples.laptop1).1 = Some "tok1".
Proof.
  unfold TokenManager.getAccessToken.
  change (TokenManager.credentialStore Examples.acme) with Examples.file_store.
  change (TokenManager.tokenCache Examples.acme) with (@None CredentialStore.TokenRecord).
  unfold Examples.laptop1.
  rewrite set_get_file_mode; [reflexivity|reflexivity..|discriminate].
Qed.

Lemma getAccessToken_cached_witness :
  let tm := (TokenManager.getAccessToken Examples.acme Examples.laptop1).2 in
  TokenManager.getAccessToken tm Examples.laptop = (Some "tok1", tm).
Proof.
  exact (getAccessToken_cached Examples.acme Examples.laptop1 "tok1"
           acme_reads_tok1 Examples.laptop).
Defined.

Lemma getTokenInfo_consistent_witness :
  (TokenManager.getTokenInfo (H := Examples.test_date) Examples.new_year
     Examples.acme Examples.laptop).1 = None.
Proof.
  apply (getTokenInfo_consistent (H := Examples.test_date)).
  reflexivity.
Defined.


(** The manager [acme] finds the refresh token [ref1]. *)
Lemma acme_reads_ref1 :
  TokenManager.getRefreshToken Examples.acme Examples.laptop1 = Some "ref1".
Proof.
  unfold TokenManager.getRefreshToken.
  change (TokenManager.credentialStore Examples.acme) with Examples.file_store.
  unfold Examples.laptop1.
  rewrite set_get_file_mode; [reflexivity|reflexivity..|discriminate].
Qed.

Lemma refresh_discards_tokens_witness :
  (∃ s,
     TokenManager.run (H := Examples.test_date)
       (TokenManager.Call 0 ::
        map (TokenManager.Resume 0 Examples.new_year) [TokenManager.Tick] ++
        [TokenManager.Wake 0])
       (TokenManager.idle Examples.acme Examples.node_laptop1) = Some s ∧
     TokenManager.outcome s 0 = Some (Resolved false) ∧
     TokenManager.requests s = 0%nat) ∧
  (∃ s,
     TokenManager.run (H := Examples.test_date)
       (TokenManager.Call 0 ::
        map (TokenManager.Resume 0 Examples.new_year)
          [TokenManager.Tick;
           TokenManager.FetchSettled (TokenManager.Response true 200 "OK");
           TokenManager.JsonSettled
             (TokenManager.token_response_body Examples.token_response);
           TokenManager.Tick] ++ [TokenManager.Wake 0])
       (TokenManager.idle Examples.acme Examples.laptop1) = Some s ∧
     TokenManager.outcome s 0 = Some (Resolved true) ∧
     TokenManager.requests s = 1%nat ∧
     (TokenManager.getAccessToken (TokenManager.manager s)
        (TokenManager.machine s)).1 = None ∧
     (TokenManager.hasValidToken (H := Examples.test_date) Examples.in_2027
        (TokenManager.manager s) (TokenManager.machine s)).1 = false ∧
     TokenManager.getRefreshToken (TokenManager.manager s)
       (TokenManager.machine s) = None).
Proof.
  split.
  - destruct (refresh_discards_tokens (H := Examples.test_date)
                Examples.new_year Examples.in_2027 Examples.acme
                Examples.node_laptop1) as [Hnode _].
    destruct (Hnode eq_refl) as (_ & s & Hrun & Hout & Hreq & _).
    exists s. exact (conj Hrun (conj Hout Hreq)).
  - destruct (refresh_discards_tokens (H := Examples.test_date)
                Examples.new_year Examples.in_2027 Examples.acme
                Examples.laptop1) as [_ Hdefined].
    destruct (Hdefined "ref1" "2026-01-01T00:00:00.000Z" 200%Z "OK"
                Examples.token_response acme_reads_ref1 eq_refl
                (laptop_reads_back _ laptop1_require_defined))
      as (s & Hrun & Hout & Hreq & _ & Haccess & Hvalid & Hrefresh).
    exists s.
    exact (conj Hrun (conj Hout (conj Hreq (conj Haccess (conj Hvalid Hrefresh))))).
Defined.

Lemma manager_under_node_witness :
  TokenManager.hasValidToken (H := Examples.test_date) Examples.new_year
    Examples.acme Examples.node_laptop1 = (false, Examples.acme) ∧
  (TokenManager.getTokenInfo (H := Examples.test_date) Examples.new_year
     Examples.acme Examples.node_laptop1).1 = None.
Proof.
  destruct (manager_under_node (H := Examples.test_date) Examples.new_year
              Examples.acme Examples.node_laptop1 eq_refl eq_refl)
    as (_ & _ & Hvalid & _ & Hinfo & _).
  split; [exact Hvalid | by rewrite Hinfo].
Defined.

Lemma openaiKey_not_inherited :
  "openaiKey" ∉ CredentialStore.Object_prototype.
Proof.
  unfold CredentialStore.Object_prototype. rewrite !elem_of_cons, elem_of_nil.
  intros Hin. repeat (destruct Hin as [Hin|Hin]; [discriminate|]). done.
Qed.

Lemma apiKey_isValid_headers_witness :
  let s := ApiKeyAuthStrategy.OpenAIProvider {[ "openaiKey" := "sk-test" ]} in
  ∃ valid,
    ApiKeyAuthStrategy.isValid s = Some valid ∧
    (valid = true ↔
     ∃ key, ApiKeyAuthStrategy.config s !! ApiKeyAuthStrategy.keyName s =
              Some key ∧ key ≠ "") ∧
    (valid = true →
     ∃ value, ApiKeyAuthStrategy.getAuthHeaders s =
                Some (Resolved {[ ApiKeyAuthStrategy.headerName s := value ]})) ∧
    (valid = false →
     ApiKeyAuthStrategy.getAuthHeaders s =
       Some (Rejected (ApiKeyAuthStrategy.keyName s +:+
                       " is not configured. Please set it via " +:+
                       "environment variable or config file."))).
Proof.
  exact (apiKey_isValid_headers
           (ApiKeyAuthStrategy.OpenAIProvider {[ "openaiKey" := "sk-test" ]})
           openaiKey_not_inherited).
Defined.

Lemma api_key_request_headers_witness :
  ApiKeyAuthStrategy.OpenAI_request_headers {[ "openaiKey" := "sk-test" ]} =
    Some (Resolved
      ({[ "Authorization" := "Bearer sk-test" ]} ∪
       {[ "Content-Type" := "application/json" ]})).
Proof.
  destruct (api_key_request_headers {[ "openaiKey" := "sk-test" ]})
    as (Hopenai & _).
  destruct (Hopenai "sk-test" eq_refl ltac:(discriminate)) as (_ & Hplain & _).
  exact (Hplain eq_refl).
Defined.

Lemma generate_does_not_refresh_witness :
  AuthStrategy.exec (AuthStrategy.mock false true (Some "token"))
    (OAuthProvider.generate_request OAuthProvider.AzureOpenAI_login) () =
  (Rejected OAuthProvider.AzureOpenAI_login, (), [AuthStrategy.HasValidToken]).
Proof.
  destruct (generate_does_not_refresh
              (AuthStrategy.mock false true (Some "token")) ()
              OAuthProvider.AzureOpenAI_login) as [Hno _].
  exact (Hno () eq_refl).
Defined.
